(** * agents_demo: validation, repair and normalisation of model output

    A shallow embedding of [agents_demo.py]: the schema validators of
    [DataBlock] and [AgentJSON], the JSON extractor [sanitize_json_text],
    the repair loop [call_agent] and the topic sanitizer [demeta_tags],
    followed by the properties established about them.

    Conventions of the embedding.
    - Python text ([str]) is a list of characters; a character is a code
      point of the Latin-1 repertoire (0..255), classified as Python's
      [str] methods and the [re] module classify it.
    - [json.loads] and the model backend are external to the program: the
      functions that use them take them as parameters.  A reference decoder
      for the JSON grammar is given for the worked examples, and shown to
      ignore the white space that [str.strip] removes, the one property of
      [json.loads] that a statement relies on.
    - A call that can raise returns an [outcome]; backend state is threaded
      explicitly and every backend invocation is logged. *)

From Stdlib Require Import String Ascii List ZArith NArith Bool Arith Lia.
From Stdlib Require Import Sorted Permutation DecimalString.
Import ListNotations.

Local Open Scope list_scope.

(* ================================================================= *)
(** ** Python text *)

Module PyStr.

Definition str := list ascii.

(** A literal of the source. *)
Definition py (s : string) : str := list_ascii_of_string s.

(** A literal in which every backquote stands for a double quote. *)
Definition pyq (s : string) : str :=
  map (fun c => if Ascii.eqb c "`"%char then ascii_of_nat 34 else c) (py s).

Definition code (c : ascii) : N := N_of_ascii c.

Definition between (lo hi : N) (c : ascii) : bool :=
  ((lo <=? code c) && (code c <=? hi))%N.

Fixpoint str_eqb (a b : str) : bool :=
  match a, b with
  | [], [] => true
  | x :: a', y :: b' => Ascii.eqb x y && str_eqb a' b'
  | _, _ => false
  end.

(** [x in xs] on a list or set of strings. *)
Definition mem (x : str) (xs : list str) : bool := existsb (str_eqb x) xs.

(** [str.isspace] for one character; also the class [\s] of [re]. *)
Definition is_space (c : ascii) : bool :=
  between 9 13 c || between 28 32 c
  || (code c =? 133)%N || (code c =? 160)%N.

Definition is_digit (c : ascii) : bool := between 48 57 c.
Definition is_az (c : ascii) : bool := between 97 122 c.
Definition is_AZ (c : ascii) : bool := between 65 90 c.

(** [str.isalnum] for one character. *)
Definition is_alnum (c : ascii) : bool :=
  is_digit c || is_az c || is_AZ c
  || (code c =? 170)%N || between 178 179 c || (code c =? 181)%N
  || between 185 186 c || between 188 190 c
  || between 192 214 c || between 216 246 c || between 248 255 c.

(** The class [\w] of [re] on text. *)
Definition is_word (c : ascii) : bool :=
  is_alnum c || Ascii.eqb c "_"%char.

Definition lower_char (c : ascii) : ascii :=
  if is_AZ c || between 192 214 c || between 216 222 c
  then ascii_of_N (code c + 32) else c.

(** [str.lower] *)
Definition lower (s : str) : str := map lower_char s.

Fixpoint drop_while (p : ascii -> bool) (s : str) : str :=
  match s with
  | [] => []
  | c :: s' => if p c then drop_while p s' else s
  end.

Definition lstrip (s : str) : str := drop_while is_space s.
Definition rstrip (s : str) : str := rev (drop_while is_space (rev s)).

(** [str.strip] without argument. *)
Definition strip (s : str) : str := rstrip (lstrip s).

(** [sep.join(xs)] *)
Fixpoint join (sep : str) (xs : list str) : str :=
  match xs with
  | [] => []
  | [x] => x
  | x :: xs' => x ++ sep ++ join sep xs'
  end.

(** The longest prefix whose characters satisfy [p], and what follows. *)
Fixpoint span (p : ascii -> bool) (s : str) : str * str :=
  match s with
  | [] => ([], [])
  | c :: s' =>
      if p c then let (a, b) := span p s' in (c :: a, b) else ([], s)
  end.

(** [s] without the prefix [w], when it starts with [w]. *)
Fixpoint strip_prefix (w s : str) : option str :=
  match w, s with
  | [], _ => Some s
  | x :: w', y :: s' => if Ascii.eqb x y then strip_prefix w' s' else None
  | _ :: _, [] => None
  end.

(** The same, comparing characters as [re.I] does. *)
Fixpoint strip_prefix_ci (w s : str) : option str :=
  match w, s with
  | [], _ => Some s
  | x :: w', y :: s' =>
      if Ascii.eqb (lower_char x) (lower_char y)
      then strip_prefix_ci w' s' else None
  | _ :: _, [] => None
  end.

End PyStr.
Import PyStr.

(* ================================================================= *)
(** ** The regular expressions of the source *)

Module Re.

(** Is the next character of [s] a word character?  At the end of the text
    there is none. *)
Definition next_is_word (s : str) : bool :=
  match s with
  | c :: _ => is_word c
  | [] => false
  end.

(** [\b] between a character of word-ness [prev] and the text [s]. *)
Definition boundary (prev : bool) (s : str) : bool :=
  xorb prev (next_is_word s).

(** *** [\b\w[\w'-]*\b], used by [word_count] and [_limit_25] *)

Definition word_cls (c : ascii) : bool :=
  is_word c || Ascii.eqb c "'"%char || Ascii.eqb c "-"%char.

(** Backtracking of the greedy [[\w'-]*] to the final [\b]: of a run of the
    class, the prefix that ends with its last word character, and the
    characters given back. *)
Fixpoint upto_last_word (run : str) : str * str :=
  match run with
  | [] => ([], [])
  | c :: r =>
      let (a, b) := upto_last_word r in
      match a with
      | [] => if is_word c then ([c], r) else ([], run)
      | _ :: _ => (c :: a, b)
      end
  end.

(** [re.findall] scanning from a position whose preceding character has
    word-ness [prev]. *)
Fixpoint findall_words_at (fuel : nat) (prev : bool) (s : str) : list str :=
  match fuel, s with
  | S f, c :: s' =>
      if boundary prev s && is_word c then
        let (run, rest) := span word_cls s in
        let (tok, back) := upto_last_word run in
        tok :: findall_words_at f true (back ++ rest)
      else findall_words_at f (is_word c) s'
  | _, _ => []
  end.

Definition findall_words (s : str) : list str :=
  findall_words_at (length s) false s.

(** The shape of a match of this pattern: it starts and ends with a word
    character and stays within the class. *)
Definition wordlike (w : str) : Prop :=
  next_is_word w = true /\ next_is_word (rev w) = true
  /\ forallb word_cls w = true.

(** *** [[a-z][a-z\-']{3,}], used by [demeta_tags] *)

Definition token_cls (c : ascii) : bool :=
  is_az c || Ascii.eqb c "-"%char || Ascii.eqb c "'"%char.

Fixpoint findall_tokens_at (fuel : nat) (s : str) : list str :=
  match fuel, s with
  | S f, c :: s' =>
      if is_az c then
        let (run, rest) := span token_cls s' in
        if 3 <=? length run
        then (c :: run) :: findall_tokens_at f rest
        else findall_tokens_at f s'
      else findall_tokens_at f s'
  | _, _ => []
  end.

Definition findall_tokens (s : str) : list str :=
  findall_tokens_at (length s) s.

(** *** [\b(here|the|an|a|and|of|about|topic|content|article|post)\b],
    replaced by the empty string in [_three_tags] *)

Definition stopword_alternatives : list str :=
  map py ["here"; "the"; "an"; "a"; "and"; "of"; "about"; "topic";
          "content"; "article"; "post"]%string.

(** The first alternative, in order, that matches at the head of [s] and is
    followed by [\b]; the result is the text after it. *)
Fixpoint first_alternative (alts : list str) (s : str) : option str :=
  match alts with
  | [] => None
  | w :: alts' =>
      match strip_prefix w s with
      | Some rest =>
          if boundary (next_is_word (rev w)) rest then Some rest
          else first_alternative alts' s
      | None => first_alternative alts' s
      end
  end.

Fixpoint sub_stopwords_at (fuel : nat) (prev : bool) (s : str) : str :=
  match fuel, s with
  | S f, c :: s' =>
      match (if boundary prev s
             then first_alternative stopword_alternatives s else None) with
      | Some rest => sub_stopwords_at f true rest
      | None => c :: sub_stopwords_at f (is_word c) s'
      end
  | _, _ => []
  end.

Definition sub_stopwords (s : str) : str :=
  sub_stopwords_at (length s) false s.

(** *** The two preamble patterns of [_limit_25], both anchored by [^] and
    compiled with [re.I] *)

(** [\s*] *)
Definition ws_star (s : str) : option str := Some (drop_while is_space s).

(** [\s+] *)
Definition ws_plus (s : str) : option str :=
  match s with
  | c :: s' => if is_space c then Some (drop_while is_space s') else None
  | [] => None
  end.

(** [.*?:] without [re.DOTALL]: up to the first colon, which must come
    before any newline. *)
Fixpoint lazy_to_colon (s : str) : option str :=
  match s with
  | [] => None
  | c :: s' =>
      if Ascii.eqb c ":"%char then Some s'
      else if (code c =? 10)%N then None
      else lazy_to_colon s'
  end.

Definition lit (w : string) (s : str) : option str := strip_prefix_ci (py w) s.

(** An alternation, its branches tried in order.  In the two patterns below
    no text matches two branches of one alternation, so the first branch
    that matches is the only one. *)
Fixpoint alt (ws : list string) (s : str) : option str :=
  match ws with
  | [] => None
  | w :: ws' =>
      match lit w s with
      | Some r => Some r
      | None => alt ws' s
      end
  end.

Definition andthen (m : option str) (k : str -> option str) : option str :=
  match m with
  | Some r => k r
  | None => None
  end.

Notation "m >> k" := (andthen m k) (at level 50, left associativity).

(** [^\s*here\s+is\s+the\s+paraphrased.*?:\s*]: the text after the match. *)
Definition match_paraphrased (s : str) : option str :=
  ws_star s >> lit "here" >> ws_plus >> lit "is" >> ws_plus >> lit "the"
    >> ws_plus >> lit "paraphrased" >> lazy_to_colon >> ws_star.

(** [^\s*(this|the)\s+(article|post|content)\s+.*?:\s*] *)
Definition match_this_article (s : str) : option str :=
  ws_star s >> alt ["this"; "the"]%string >> ws_plus
    >> alt ["article"; "post"; "content"]%string >> ws_plus
    >> lazy_to_colon >> ws_star.

(** [re.sub(pattern, "", v)] for a pattern anchored at the start: the one
    possible match is removed. *)
Definition sub_anchored (m : str -> option str) (v : str) : str :=
  match m v with
  | Some rest => rest
  | None => v
  end.

(** *** [\{(?:[^{}]|(?R))*\}], searched by [sanitize_json_text] *)

Definition brace_pattern : str := py "\{(?:[^{}]|(?R))*\}".

(** The characters that [re] accepts after an opening "(?": named groups
    and references [P], the non-capturing group [:], comments [#],
    lookarounds [= ! <], conditionals [(], atomic groups [>] and the inline
    flags.  Any other character makes [re.compile] raise
    [re.error("unknown extension ?" + char)]; recursion, written [(?R)] in
    other dialects, is not among them. *)
Definition extension_known (c : ascii) : bool :=
  existsb (Ascii.eqb c) (py "P:#=!<(>-iLmsxatu").

Inductive pattern_place := Outside | SetFirst | InSet.

(** The first unknown extension of a pattern, with the offset that the
    error reports (that of the question mark).  Escapes and character sets
    are skipped over. *)
Fixpoint unknown_extension_at (pos : nat) (w : pattern_place) (p : str)
  : option (ascii * nat) :=
  match p with
  | [] => None
  | c :: p' =>
      if Ascii.eqb c "\"%char then
        match p' with
        | [] => None
        | _ :: p'' =>
            unknown_extension_at (pos + 2)
              (match w with Outside => Outside | _ => InSet end) p''
        end
      else
        match w with
        | Outside =>
            if Ascii.eqb c "["%char then
              match p' with
              | [] => None
              | c2 :: p'' =>
                  if Ascii.eqb c2 "^"%char
                  then unknown_extension_at (pos + 2) SetFirst p''
                  else unknown_extension_at (pos + 1) SetFirst p'
              end
            else if Ascii.eqb c "("%char then
              match p' with
              | q :: x :: _ =>
                  if Ascii.eqb q "?"%char && negb (extension_known x)
                  then Some (x, pos + 1)
                  else unknown_extension_at (pos + 1) Outside p'
              | _ => unknown_extension_at (pos + 1) Outside p'
              end
            else unknown_extension_at (pos + 1) Outside p'
        | SetFirst => unknown_extension_at (pos + 1) InSet p'
        | InSet =>
            if Ascii.eqb c "]"%char
            then unknown_extension_at (pos + 1) Outside p'
            else unknown_extension_at (pos + 1) InSet p'
        end
  end.

Definition unknown_extension (p : str) : option (ascii * nat) :=
  unknown_extension_at 0 Outside p.

(** What the pattern denotes where recursion exists: an opening brace, then
    characters other than braces or nested balanced groups, then the
    closing brace.  [balanced depth s] is the text up to the brace that
    closes [depth] nested groups and the enclosing one. *)
Fixpoint balanced (depth : nat) (s : str) : option str :=
  match s with
  | [] => None
  | c :: s' =>
      if Ascii.eqb c "{"%char then option_map (cons c) (balanced (S depth) s')
      else if Ascii.eqb c "}"%char then
        match depth with
        | O => Some [c]
        | S d => option_map (cons c) (balanced d s')
        end
      else option_map (cons c) (balanced depth s')
  end.

(** The leftmost match: the first opening brace that has its closing one. *)
Fixpoint leftmost_balanced (s : str) : option str :=
  match s with
  | [] => None
  | c :: s' =>
      if Ascii.eqb c "{"%char then
        match balanced 0 s' with
        | Some m => Some (c :: m)
        | None => leftmost_balanced s'
        end
      else leftmost_balanced s'
  end.

End Re.
Import Re.

(* ================================================================= *)
(** ** Exceptions *)

Module Py.

(** The exceptions that reach the functions below: [re.error] with the
    extension character and offset of its message, and whatever the model
    backend raises, kept by name. *)
Inductive exn :=
| re_error (extension : ascii) (pos : nat)
| backend_error (what : str).

(** The result of a call that may raise. *)
Inductive outcome (A : Type) :=
| Returned (a : A)
| Raised (e : exn).

Arguments Returned {A} a.
Arguments Raised {A} e.

(** [re.search(brace_pattern, text, re.DOTALL)]: the pattern is compiled
    first, and the text is searched only if that succeeds.  [m.group(0)] of
    a match is the matched text. *)
Definition search_brace_pattern (text : str) : outcome (option str) :=
  match unknown_extension brace_pattern with
  | Some (c, pos) => Raised (re_error c pos)
  | None => Returned (leftmost_balanced text)
  end.

End Py.
Import Py.

(* ================================================================= *)
(** ** JSON values and a reference decoder *)

Module Json.

(** A decoded document: what [json.loads] returns.  A float is kept as the
    literal that denotes it. *)
#[warnings="-register-all"] Inductive json :=
| JNull
| JBool (b : bool)
| JInt (z : Z)
| JFloat (literal : str)
| JStr (s : str)
| JList (xs : list json)
| JDict (d : list (str * json)).

Definition dict := list (str * json).

(** [d[k]] of a [dict] with text keys. *)
Fixpoint dict_get (k : str) (d : dict) : option json :=
  match d with
  | [] => None
  | (k', v) :: d' => if str_eqb k k' then Some v else dict_get k d'
  end.

(** [d[k] = v]: a key keeps the place of its first insertion. *)
Fixpoint dict_set (k : str) (v : json) (d : dict) : dict :=
  match d with
  | [] => [(k, v)]
  | (k', v') :: d' =>
      if str_eqb k k' then (k, v) :: d' else (k', v') :: dict_set k v d'
  end.

Definition quote : ascii := ascii_of_nat 34.

(** JSON white space: space, tab, line feed, carriage return. *)
Definition is_jws (c : ascii) : bool :=
  (code c =? 32)%N || (code c =? 9)%N || (code c =? 10)%N || (code c =? 13)%N.

Definition skip_jws (s : str) : str := drop_while is_jws s.

Definition hex_digit (c : ascii) : option N :=
  if is_digit c then Some (code c - 48)%N
  else if between 97 102 c then Some (code c - 87)%N
  else if between 65 70 c then Some (code c - 55)%N
  else None.

Definition hex4 (a b c d : ascii) : option N :=
  match hex_digit a, hex_digit b, hex_digit c, hex_digit d with
  | Some x, Some y, Some z, Some w => Some (((x * 16 + y) * 16 + z) * 16 + w)%N
  | _, _, _, _ => None
  end.

Definition simple_escape (e : ascii) : option ascii :=
  if Ascii.eqb e quote then Some quote
  else if Ascii.eqb e "\"%char then Some "\"%char
  else if Ascii.eqb e "/"%char then Some "/"%char
  else if Ascii.eqb e "b"%char then Some (ascii_of_nat 8)
  else if Ascii.eqb e "f"%char then Some (ascii_of_nat 12)
  else if Ascii.eqb e "n"%char then Some (ascii_of_nat 10)
  else if Ascii.eqb e "r"%char then Some (ascii_of_nat 13)
  else if Ascii.eqb e "t"%char then Some (ascii_of_nat 9)
  else None.

Definition consc (c : ascii) (r : option (str * str)) : option (str * str) :=
  match r with
  | Some (x, rest) => Some (c :: x, rest)
  | None => None
  end.

(** The body of a string, after its opening quote.  Control characters are
    refused.  An escape [\uXXXX] above U+00FF names a character that the
    text model does not have; the reference decoder does not decode it. *)
Fixpoint scan_string (s : str) : option (str * str) :=
  match s with
  | [] => None
  | c :: s' =>
      if Ascii.eqb c quote then Some ([], s')
      else if (code c <? 32)%N then None
      else if Ascii.eqb c "\"%char then
        match s' with
        | [] => None
        | e :: s'' =>
            if Ascii.eqb e "u"%char then
              match s'' with
              | h1 :: h2 :: h3 :: h4 :: s4 =>
                  match hex4 h1 h2 h3 h4 with
                  | Some n =>
                      if (n <? 256)%N then consc (ascii_of_N n) (scan_string s4)
                      else None
                  | None => None
                  end
              | _ => None
              end
            else
              match simple_escape e with
              | Some x => consc x (scan_string s'')
              | None => None
              end
        end
      else consc c (scan_string s')
  end.

Definition digits_value (ds : str) : Z :=
  fold_left (fun acc d => (acc * 10 + Z.of_N (code d - 48))%Z) ds 0%Z.

(** The pieces of a number.  Each takes what it matches from the head of
    the text and gives the rest. *)

(** One optional character of a class. *)
Definition opt_char (p : ascii -> bool) (s : str) : str * str :=
  match s with
  | c :: r => if p c then ([c], r) else ([], s)
  | [] => ([], s)
  end.

(** One digit at least. *)
Definition digits1 (s : str) : option (str * str) :=
  match span is_digit s with
  | ([], _) => None
  | (d :: ds, r) => Some (d :: ds, r)
  end.

(** 0, or digits that do not start with 0. *)
Definition int_part (s : str) : option (str * str) :=
  match s with
  | d :: r =>
      if Ascii.eqb d "0"%char then Some ([d], r)
      else if between 49 57 d
      then let (ds, r') := span is_digit r in Some (d :: ds, r')
      else None
  | [] => None
  end.

(** A point and digits, or nothing. *)
Definition frac_part (s : str) : str * str :=
  match s with
  | c :: r =>
      if Ascii.eqb c "."%char then
        match digits1 r with
        | Some (fs, r') => (c :: fs, r')
        | None => ([], s)
        end
      else ([], s)
  | [] => ([], s)
  end.

Definition is_e (c : ascii) : bool :=
  Ascii.eqb c "e"%char || Ascii.eqb c "E"%char.

Definition is_sign (c : ascii) : bool :=
  Ascii.eqb c "+"%char || Ascii.eqb c "-"%char.

(** An exponent mark, an optional sign and digits, or nothing. *)
Definition exp_part (s : str) : str * str :=
  match s with
  | c :: r =>
      if is_e c then
        let (sg, r1) := opt_char is_sign r in
        match digits1 r1 with
        | Some (es, r') => (c :: sg ++ es, r')
        | None => ([], s)
        end
      else ([], s)
  | [] => ([], s)
  end.

(** The value of a number: an integer when neither fraction nor exponent
    is present, a float otherwise. *)
Definition number_value (sign ip frac expo : str) : json :=
  match frac, expo with
  | [], [] =>
      JInt (match sign with
            | [] => digits_value ip
            | _ :: _ => - digits_value ip
            end)%Z
  | _, _ => JFloat (sign ++ ip ++ frac ++ expo)
  end.

(** A number: an optional minus sign, the integer part, an optional
    fraction and an optional exponent. *)
Definition scan_number (s : str) : option (json * str) :=
  let (sign, s1) := opt_char (Ascii.eqb "-"%char) s in
  match int_part s1 with
  | None => None
  | Some (ip, s2) =>
      let (frac, s3) := frac_part s2 in
      let (expo, s4) := exp_part s3 in
      Some (number_value sign ip frac expo, s4)
  end.

Definition keyword (w : string) (v : json) (s : str) : option (json * str) :=
  match strip_prefix (py w) s with
  | Some r => Some (v, r)
  | None => None
  end.

Definition orelse {A} (a b : option A) : option A :=
  match a with
  | Some _ => a
  | None => b
  end.

(** The values that are neither text nor containers, tried in the order
    of the decoder: the three literals, a number, and the three names of
    floats that are not numbers. *)
Definition scan_atom (s : str) : option (json * str) :=
  orelse (keyword "null" JNull s)
  (orelse (keyword "true" (JBool true) s)
  (orelse (keyword "false" (JBool false) s)
  (orelse (scan_number s)
  (orelse (keyword "NaN" (JFloat (py "NaN")) s)
  (orelse (keyword "Infinity" (JFloat (py "Infinity")) s)
          (keyword "-Infinity" (JFloat (py "-Infinity")) s)))))).

(** One value at the head of [s]; then the items of an array after its
    opening bracket, and the members of an object after its opening brace,
    both at their first non-blank character. *)
Fixpoint scan_value (fuel : nat) (s : str) : option (json * str) :=
  match fuel with
  | O => None
  | S f =>
      match s with
      | [] => None
      | c :: s' =>
          if Ascii.eqb c quote then
            match scan_string s' with
            | Some (x, r) => Some (JStr x, r)
            | None => None
            end
          else if Ascii.eqb c "{"%char then
            match skip_jws s' with
            | c1 :: r1 =>
                if Ascii.eqb c1 "}"%char then Some (JDict [], r1)
                else scan_members f [] (c1 :: r1)
            | [] => None
            end
          else if Ascii.eqb c "["%char then
            match skip_jws s' with
            | c1 :: r1 =>
                if Ascii.eqb c1 "]"%char then Some (JList [], r1)
                else scan_items f [] (c1 :: r1)
            | [] => None
            end
          else scan_atom s
      end
  end
with scan_items (fuel : nat) (acc : list json) (s : str)
  : option (json * str) :=
  match fuel with
  | O => None
  | S f =>
      match scan_value f s with
      | Some (v, r) =>
          match skip_jws r with
          | c :: r' =>
              if Ascii.eqb c "]"%char then Some (JList (rev (v :: acc)), r')
              else if Ascii.eqb c ","%char
              then scan_items f (v :: acc) (skip_jws r')
              else None
          | [] => None
          end
      | None => None
      end
  end
with scan_members (fuel : nat) (acc : dict) (s : str)
  : option (json * str) :=
  match fuel with
  | O => None
  | S f =>
      match s with
      | c :: s' =>
          if Ascii.eqb c quote then
            match scan_string s' with
            | Some (k, r) =>
                match skip_jws r with
                | c2 :: r2 =>
                    if Ascii.eqb c2 ":"%char then
                      match scan_value f (skip_jws r2) with
                      | Some (v, r3) =>
                          match skip_jws r3 with
                          | c3 :: r4 =>
                              if Ascii.eqb c3 "}"%char
                              then Some (JDict (dict_set k v acc), r4)
                              else if Ascii.eqb c3 ","%char
                              then scan_members f (dict_set k v acc)
                                     (skip_jws r4)
                              else None
                          | [] => None
                          end
                      | None => None
                      end
                    else None
                | [] => None
                end
            | None => None
            end
          else None
      | [] => None
      end
  end.

(** The reference decoder: one value, blanks allowed around it, nothing
    else.  It follows the grammar that [json.loads] accepts and leaves the
    interpreter's resource limits aside. *)
Definition json_loads_ref (s : str) : option json :=
  match scan_value (2 * length s + 2) (skip_jws s) with
  | Some (v, r) =>
      match skip_jws r with
      | [] => Some v
      | _ :: _ => None
      end
  | None => None
  end.

(** *** What the decoder does with surrounding blanks

    The notions used to state that it ignores them. *)

(** The characters that [str.strip] removes. *)
Definition space_chars : list ascii :=
  map ascii_of_nat [9; 10; 11; 12; 13; 28; 29; 30; 31; 32; 133; 160].

(** [s] is [s'] followed by blanks only. *)
Definition cut_tail (s s' : str) : Prop :=
  exists w, forallb is_space w = true /\ s = s' ++ w.

(** A scanner that neither takes nor looks past blanks behaves on a text
    as on the text followed by blanks. *)
Definition tail_blind {A} (g : str -> option (A * str)) : Prop :=
  forall s w, forallb is_space w = true ->
    g (s ++ w) = match g s with
                 | Some (a, r) => Some (a, r ++ w)
                 | None => None
                 end.

Definition tail_blind_pair (g : str -> str * str) : Prop :=
  forall s w, forallb is_space w = true ->
    g (s ++ w) = let (a, r) := g s in (a, r ++ w).

(** A scanner that succeeds takes at least one character; a piece of a
    number never gives back more than it got. *)
Definition shortens {A} (g : str -> option (A * str)) : Prop :=
  forall s a r, g s = Some (a, r) -> length r < length s.

Definition shortens_pair (g : str -> str * str) : Prop :=
  forall s a r, g s = (a, r) -> length r <= length s.

(** Cutting a tail of blanks from a text on which a scanner succeeds
    leaves it succeeding with the same value, the rest cut likewise, on
    any fuel of at least twice the characters it takes. *)
Definition stable_value (f : nat) : Prop :=
  forall s s' v r,
    cut_tail s s' -> scan_value f s = Some (v, r) ->
    exists r', cut_tail r r' /\ length r' < length s'
      /\ forall f', 2 * (length s' - length r') <= f' ->
           scan_value f' s' = Some (v, r').

Definition stable_items (f : nat) : Prop :=
  forall acc s s' v r,
    cut_tail s s' -> scan_items f acc s = Some (v, r) ->
    exists r', cut_tail r r' /\ length r' < length s'
      /\ forall f', 2 * (length s' - length r') <= f' ->
           scan_items f' acc s' = Some (v, r').

Definition stable_members (f : nat) : Prop :=
  forall acc s s' v r,
    cut_tail s s' -> scan_members f acc s = Some (v, r) ->
    exists r', cut_tail r r' /\ length r' < length s'
      /\ forall f', 2 * (length s' - length r') <= f' ->
           scan_members f' acc s' = Some (v, r').

End Json.
Import Json.

(* ================================================================= *)
(** ** The schema model: [DataBlock] and [AgentJSON] *)

Module Schema.

Record DataBlock := mkDataBlock {
  tags : list str;
  summary : str;
  issues : list str
}.

Record AgentJSON := mkAgentJSON {
  thought : str;
  message : str;
  data : DataBlock
}.

(** [word_count] *)
Definition word_count (s : str) : nat := length (findall_words s).

(** The set [meta_ban] of [_three_tags] and of [demeta_tags]. *)
Definition meta_ban : list str :=
  map py ["json"; "planner"; "reviewer"; "finalizer"; "agent"; "llm";
          "model"; "prompt"]%string.

Definition is_empty (s : str) : bool :=
  match s with
  | [] => true
  | _ :: _ => false
  end.

(** The loop of [_three_tags] over the remaining tags, with the lists
    [clean] and [seen] built so far. *)
Fixpoint three_tags_loop (v clean seen : list str) : list str :=
  match v with
  | [] => clean
  | t :: v' =>
      let t := lower (strip t) in
      if is_empty t || mem t meta_ban then three_tags_loop v' clean seen
      else
        let t := strip (sub_stopwords t) in
        let (clean', seen') :=
          if negb (is_empty t) && negb (mem t seen)
          then (clean ++ [t], t :: seen) else (clean, seen) in
        if length clean' =? 3 then clean'
        else three_tags_loop v' clean' seen'
  end.

(** The validator of [DataBlock.tags]. *)
Definition _three_tags (v : list str) : list str :=
  firstn 3 (three_tags_loop v [] []).

(** The validator of [DataBlock.summary]. *)
Definition _limit_25 (v : str) : str :=
  let v := sub_anchored match_paraphrased v in
  let v := sub_anchored match_this_article v in
  let words := findall_words (strip v) in
  join (py " ") (firstn 25 words).

Definition default_message : str :=
  py "Draft analyzed and improved; provided concise tags and a ≤25-word summary.".

(** The validator of [AgentJSON.message]. *)
Definition _ensure_message (v : str) : str :=
  let v := strip v in
  if negb (is_empty v) then v else default_message.

(** Why a constructor call fails: the unpacked argument is not a mapping,
    or a field, named by its path, is missing or of the wrong type. *)
Inductive construction_error :=
| not_a_mapping
| field_required (loc : list string)
| wrong_type (loc : list string).

Inductive result (A : Type) :=
| Ok (a : A)
| Err (e : construction_error).

Arguments Ok {A} a.
Arguments Err {A} e.

Definition bind {A B} (r : result A) (k : A -> result B) : result B :=
  match r with
  | Ok a => k a
  | Err e => Err e
  end.

Notation "'let*' x ':=' r 'in' k" := (bind r (fun x => k))
  (at level 10, x name, r at level 100, k at level 200).

(** A required field annotated [str]: only text is accepted. *)
Definition str_field (loc : list string) (name : string) (d : dict)
  : result str :=
  match dict_get (py name) d with
  | None => Err (field_required (loc ++ [name]))
  | Some (JStr s) => Ok s
  | Some _ => Err (wrong_type (loc ++ [name]))
  end.

Fixpoint all_str (xs : list json) : option (list str) :=
  match xs with
  | [] => Some []
  | JStr s :: xs' => option_map (cons s) (all_str xs')
  | _ :: _ => None
  end.

(** A value annotated [List[str]]: a list whose items are all text. *)
Definition list_str_value (loc : list string) (j : json)
  : result (list str) :=
  match j with
  | JList xs =>
      match all_str xs with
      | Some l => Ok l
      | None => Err (wrong_type loc)
      end
  | _ => Err (wrong_type loc)
  end.

(** [DataBlock] from the value of the key [data]: [tags] and [summary] are
    required, [issues] defaults to the empty list, other keys are ignored;
    each validator runs on its field once the field has its type. *)
Definition DataBlock_validate (loc : list string) (j : json)
  : result DataBlock :=
  match j with
  | JDict d =>
      let* t :=
        match dict_get (py "tags") d with
        | None => Err (field_required (loc ++ ["tags"%string]))
        | Some v => list_str_value (loc ++ ["tags"%string]) v
        end in
      let* s := str_field loc "summary" d in
      let* i :=
        match dict_get (py "issues") d with
        | None => Ok []
        | Some v => list_str_value (loc ++ ["issues"%string]) v
        end in
      Ok (mkDataBlock (_three_tags t) (_limit_25 s) i)
  | _ => Err (wrong_type loc)
  end.

(** The constructor [AgentJSON] called with the entries of a decoded
    document [obj] as its keyword arguments. *)
Definition AgentJSON_validate (obj : json) : result AgentJSON :=
  match obj with
  | JDict d =>
      let* th := str_field [] "thought" d in
      let* m := str_field [] "message" d in
      let* db :=
        match dict_get (py "data") d with
        | None => Err (field_required ["data"%string])
        | Some v => DataBlock_validate ["data"%string] v
        end in
      Ok (mkAgentJSON th (_ensure_message m) db)
  | _ => Err not_a_mapping
  end.

(** The constructor calls of the fallback in [call_agent], with keyword
    arguments of the declared types: the validators run on them too. *)
Definition fallback : AgentJSON :=
  mkAgentJSON (py "Fallback")
    (_ensure_message default_message)
    (mkDataBlock (_three_tags [])
       (_limit_25 (py "Concise summary not provided by the model"))
       [py "autofix"]).

(** The decoded document of the required shape with the given fields. *)
Definition document (th m : str) (ts : list str) (sm : str)
    (iss : list str) : json :=
  JDict [(py "thought", JStr th); (py "message", JStr m);
         (py "data",
          JDict [(py "tags", JList (map JStr ts));
                 (py "summary", JStr sm);
                 (py "issues", JList (map JStr iss))])].

(** *** The required shape and the normalisation, stated apart from the
    validators *)

Definition is_str (j : json) : bool :=
  match j with
  | JStr _ => true
  | _ => false
  end.

Definition is_str_list (j : json) : bool :=
  match j with
  | JList xs => forallb is_str xs
  | _ => false
  end.

(** The required shape: a mapping with the keys [thought] and [message]
    holding text and [data] holding a mapping, in which [tags] is a list
    of texts, [summary] a text and [issues], if present, a list of texts.
    Other keys, and the number of tags, do not count. *)
Definition data_shape (j : json) : bool :=
  match j with
  | JDict d =>
      match dict_get (py "tags") d with
      | Some v => is_str_list v
      | None => false
      end
      && match dict_get (py "summary") d with
         | Some v => is_str v
         | None => false
         end
      && match dict_get (py "issues") d with
         | Some v => is_str_list v
         | None => true
         end
  | _ => false
  end.

Definition required_shape (obj : json) : bool :=
  match obj with
  | JDict d =>
      match dict_get (py "thought") d with
      | Some v => is_str v
      | None => false
      end
      && match dict_get (py "message") d with
         | Some v => is_str v
         | None => false
         end
      && match dict_get (py "data") d with
         | Some v => data_shape v
         | None => false
         end
  | _ => false
  end.

(** The tags and the summary that a document gives. *)
Definition given_tags (obj : json) : option (list str) :=
  match obj with
  | JDict d =>
      match dict_get (py "data") d with
      | Some (JDict db) =>
          match dict_get (py "tags") db with
          | Some (JList xs) => all_str xs
          | _ => None
          end
      | _ => None
      end
  | _ => None
  end.

Definition given_summary (obj : json) : option str :=
  match obj with
  | JDict d =>
      match dict_get (py "data") d with
      | Some (JDict db) =>
          match dict_get (py "summary") db with
          | Some (JStr s) => Some s
          | _ => None
          end
      | _ => None
      end
  | _ => None
  end.

(** One tag normalised: stripped and put in lower case; dropped when that
    is empty or a banned word; otherwise its stopwords are removed and it
    is stripped again, and dropped when nothing is left. *)
Definition clean_tag (t : str) : option str :=
  let t := lower (strip t) in
  if is_empty t || mem t meta_ban then None
  else
    let t := strip (sub_stopwords t) in
    if is_empty t then None else Some t.

Fixpoint clean_tags (v : list str) : list str :=
  match v with
  | [] => []
  | t :: v' =>
      match clean_tag t with
      | Some u => u :: clean_tags v'
      | None => clean_tags v'
      end
  end.

(** A list without its repetitions: each element stays where it first
    occurs. *)
Fixpoint first_occurrences (l : list str) : list str :=
  match l with
  | [] => []
  | t :: l' =>
      t :: filter (fun u => negb (str_eqb u t)) (first_occurrences l')
  end.

(** The tags of a list, normalised and without repetition, however many
    they are. *)
Definition normalised_tags (v : list str) : list str :=
  first_occurrences (clean_tags v).

(** A summary without the two preambles that [_limit_25] removes. *)
Definition without_preamble (v : str) : str :=
  sub_anchored match_this_article (sub_anchored match_paraphrased v).

End Schema.
Import Schema.

(* ================================================================= *)
(** ** The JSON extractor and the repair loop *)

Module Agent.

Section WithDecoder.

(** [json.loads], [None] standing for any exception it raises. *)
Variable json_loads : str -> option json.

(** [sanitize_json_text] *)
Definition sanitize_json_text (text : str) : outcome str :=
  let text := strip text in
  match json_loads text with
  | Some _ => Returned text
  | None =>
      match search_brace_pattern text with
      | Raised e => Raised e
      | Returned (Some m) => Returned m
      | Returned None => Returned text
      end
  end.

(** The [try] body of [call_agent]: the candidate is decoded and
    [AgentJSON] is constructed from the document; [None] when either
    raises. *)
Definition attempt (candidate : str) : option AgentJSON :=
  match json_loads candidate with
  | Some obj =>
      match AgentJSON_validate obj with
      | Ok a => Some a
      | Err _ => None
      end
  | None => None
  end.

Definition nl : str := [ascii_of_nat 10].

(** The repair prompt built around the rejected candidate. *)
Definition repair_prompt (candidate : str) : str :=
  py "Your previous response was invalid JSON for the required schema. "
  ++ py "Return STRICT JSON ONLY with shape:" ++ nl
  ++ pyq "{ `thought`: str, `message`: str, `data`: { `tags`:[str,str,str], `summary`: str, `issues`:[str,...] } }"
  ++ nl
  ++ py "Constraints:" ++ nl
  ++ py "- Exactly 3 concise, lowercase, topic-derived tags (no meta: json/planner/reviewer/finalizer/agent/llm)"
  ++ nl
  ++ py "- Summary ≤ 25 words, no filler" ++ nl
  ++ py "Fix this JSON now:" ++ nl
  ++ candidate.

(** The outcomes of a run: an accepted document, the fallback, nothing at
    all when the range of the loop is empty, or an exception. *)
Inductive run_result : outcome (option AgentJSON) -> Prop :=
| run_validated candidate obj a :
    json_loads candidate = Some obj -> AgentJSON_validate obj = Ok a ->
    run_result (Returned (Some a))
| run_fallback : run_result (Returned (Some fallback))
| run_none : run_result (Returned None)
| run_raised e : run_result (Raised e).

(** The model backend: from its state and the two prompts, the text it
    answers or the exception it raises, and its next state. *)
Variable Backend : Type.
Variable llm_invoke : Backend -> str -> str -> outcome str * Backend.

(** The backend with the log of the invocations made so far, oldest
    first: the two prompts of each and what came back. *)
Record world := mkWorld {
  backend : Backend;
  calls : list (str * str * outcome str)
}.

(** [_invoke] *)
Definition _invoke (w : world) (sys_msg hum_msg : str)
  : outcome str * world :=
  let (r, b) := llm_invoke (backend w) sys_msg hum_msg in
  (r, mkWorld b (calls w ++ [(sys_msg, hum_msg, r)])).

(** The [for] loop of [call_agent] with [n] values of [k] left, the first
    being [k].  When the range is exhausted the function falls off its end
    and returns [None]. *)
Fixpoint repair_loop (n : nat) (k max_repairs : Z) (system_prompt : str)
    (candidate : str) (w : world) : outcome (option AgentJSON) * world :=
  match n with
  | O => (Returned None, w)
  | S n' =>
      match attempt candidate with
      | Some a => (Returned (Some a), w)
      | None =>
          if (k =? max_repairs)%Z then (Returned (Some fallback), w)
          else
            let (r, w1) := _invoke w system_prompt (repair_prompt candidate) in
            match r with
            | Raised e => (Raised e, w1)
            | Returned raw =>
                match sanitize_json_text raw with
                | Raised e => (Raised e, w1)
                | Returned candidate' =>
                    repair_loop n' (k + 1)%Z max_repairs system_prompt
                      candidate' w1
                end
            end
      end
  end.

(** [call_agent] *)
Definition call_agent (w : world) (system_prompt human_prompt : str)
    (max_repairs : Z) : outcome (option AgentJSON) * world :=
  let (r, w1) := _invoke w system_prompt human_prompt in
  match r with
  | Raised e => (Raised e, w1)
  | Returned raw =>
      match sanitize_json_text raw with
      | Raised e => (Raised e, w1)
      | Returned candidate =>
          repair_loop (Z.to_nat (max_repairs + 1)) 0%Z max_repairs
            system_prompt candidate w1
      end
  end.

(** The number of backend invocations between two states of the world. *)
Definition invocations (w w' : world) : nat :=
  length (calls w') - length (calls w).

End WithDecoder.

Arguments mkWorld {Backend} backend calls.
Arguments backend {Backend} w.
Arguments calls {Backend} w.
Arguments invocations {Backend} w w'.

(** Backends for the worked examples; their state counts the invocations.
    One answers the same text to every prompt, one raises on every prompt,
    one goes through a script of outcomes. *)
Definition answering (text : str) (n : nat) (_ _ : str)
  : outcome str * nat :=
  (Returned text, S n).

Definition failing (e : exn) (n : nat) (_ _ : str) : outcome str * nat :=
  (Raised e, S n).

Definition scripted (script : list (outcome str)) (n : nat) (_ _ : str)
  : outcome str * nat :=
  (nth n script (Raised (backend_error (py "script exhausted"))), S n).

End Agent.
Import Agent.

(* ================================================================= *)
(** ** The topic sanitizer *)

Module Topic.

(** The set [stop] of [demeta_tags]. *)
Definition stop : list str :=
  map py ["the"; "and"; "with"; "from"; "that"; "this"; "into"; "over";
          "under"; "long"; "term"; "about"; "your"; "their"; "very";
          "much"; "more"; "health"; "wellness"]%string.

(** [collections.Counter]: the keys in the order of their first
    occurrence, each with its count. *)
Definition counter := list (str * nat).

Fixpoint counter_add (w : str) (c : counter) : counter :=
  match c with
  | [] => [(w, 1)]
  | (k, n) :: c' =>
      if str_eqb w k then (k, S n) :: c' else (k, n) :: counter_add w c'
  end.

Definition Counter (ws : list str) : counter :=
  fold_left (fun c w => counter_add w c) ws [].

(** [most_common()]: [sorted(items, key=count, reverse=True)], a stable
    sort, so that equal counts keep the order of first occurrence. *)
Fixpoint insert_by_count (x : str * nat) (l : counter) : counter :=
  match l with
  | [] => [x]
  | y :: l' =>
      if snd x <? snd y then y :: insert_by_count x l' else x :: l
  end.

Definition most_common (c : counter) : counter :=
  fold_right insert_by_count [] c.

(** The loop that appends the words of [ws] to [keep]. *)
Fixpoint backfill (keep : list str) (ws : counter) : list str :=
  match ws with
  | [] => keep
  | (w, _) :: ws' =>
      if length keep =? 3 then keep
      else if mem w keep then backfill keep ws'
      else backfill (keep ++ [w]) ws'
  end.

(** The words of title and content that the backfill draws from. *)
Definition topical_words (title content : str) : list str :=
  let text := lower (title ++ py " " ++ content) in
  let words := findall_tokens text in
  filter (fun w => negb (mem w stop)) words.

(** [demeta_tags] *)
Definition demeta_tags (tags : list str) (title content : str) : list str :=
  let keep := filter (fun t => negb (mem t meta_ban)) tags in
  let keep :=
    if length keep <? 3
    then backfill keep (most_common (Counter (topical_words title content)))
    else keep in
  firstn 3 keep.

End Topic.
Import Topic.

(* ================================================================= *)
(** ** The pipeline of [main] *)

Module Pipeline.

(** [DataBlock.model_dump()] and [AgentJSON.model_dump()]: the fields, in
    the order of their declaration, as a [dict]. *)
Definition DataBlock_dump (d : DataBlock) : json :=
  JDict [(py "tags", JList (map JStr (tags d)));
         (py "summary", JStr (summary d));
         (py "issues", JList (map JStr (issues d)))].

Definition model_dump (a : AgentJSON) : json :=
  JDict [(py "thought", JStr (thought a));
         (py "message", JStr (message a));
         (py "data", DataBlock_dump (data a))].

(** [s.replace(old, new)]: the occurrences of [old] are replaced from left
    to right, without overlap; an empty [old] matches before every
    character and at the end. *)
Fixpoint replace_at (fuel : nat) (old new s : str) : str :=
  match fuel with
  | O => s
  | S f =>
      match strip_prefix old s with
      | Some rest => new ++ replace_at f old new rest
      | None =>
          match s with
          | [] => []
          | c :: s' => c :: replace_at f old new s'
          end
      end
  end.

Definition replace (old new s : str) : str :=
  match old with
  | [] => new ++ flat_map (fun c => c :: new) s
  | _ :: _ => replace_at (length s) old new s
  end.

(** [old in s] for texts. *)
Definition occurs (old s : str) : Prop :=
  exists a b, s = a ++ old ++ b.

Definition PLANNER_SYS : str :=
  py "You are the Planner. Output STRICT JSON ONLY with keys thought,message,data."
  ++ nl
  ++ py "- data.tags = EXACTLY three concise, lowercase topical tags derived from TITLE/CONTENT (never meta like json/planner/reviewer)."
  ++ nl
  ++ py "- data.summary = one sentence ≤ 25 words, no filler like 'Here is the paraphrased...'."
  ++ nl
  ++ py "- If unclear, add a short note to data.issues, but DO NOT ask the user for more input.".

Definition REVIEWER_SYS : str :=
  py "You are the Reviewer. Improve the Planner JSON without asking for additional input."
  ++ nl
  ++ py "- Keep the same JSON shape (thought,message,data)."
  ++ nl
  ++ py "- Fix grammar, strengthen topic-specific tags (never meta tags), ensure exactly 3 tags."
  ++ nl
  ++ py "- Ensure summary ≤ 25 words and clear."
  ++ nl
  ++ py "- STRICT JSON ONLY. Never request more information.".

Definition FINALIZER_SYS : str :=
  py "You are the Finalizer. Merge Planner and Reviewer to produce the final JSON."
  ++ nl
  ++ py "- Exactly 3 concise, lowercase, topic-derived tags (no meta tags)."
  ++ nl
  ++ py "- Summary ≤ 25 words, faithful to TITLE/CONTENT."
  ++ nl
  ++ py "- STRICT JSON ONLY. Never ask questions.".

(** The human prompt of the planner. *)
Definition planner_prompt (title content : str) : str :=
  py "TITLE: " ++ title ++ nl ++ py "CONTENT: " ++ content ++ nl
  ++ py "Return JSON now.".

Definition PLANNER_MARK : str := py "<<PLANNER JSON>>".
Definition REVIEWER_MARK : str := py "<<REVIEWER JSON>>".

(** The human prompt of the finalizer: the two marks of the template are
    replaced one after the other, the second replacement running over the
    result of the first. *)
Definition finalizer_prompt (planner_json reviewer_json : str) : str :=
  replace REVIEWER_MARK reviewer_json
    (replace PLANNER_MARK planner_json
       (PLANNER_MARK ++ nl ++ nl ++ REVIEWER_MARK)).

(** The assignment [final_obj.data.tags = ...]; an assignment is not
    validated. *)
Definition with_tags (a : AgentJSON) (ts : list str) : AgentJSON :=
  mkAgentJSON (thought a) (message a)
    (mkDataBlock ts (summary (data a)) (issues (data a))).

(** The [dict] named [publish]. *)
Definition publish_package (title email content : str)
    (planner_obj reviewer_obj final_obj : AgentJSON) (submission_date : str)
  : json :=
  JDict [(py "title", JStr title);
         (py "email", JStr email);
         (py "content", JStr content);
         (py "agents",
          JList [JDict [(py "role", JStr (py "Planner"));
                        (py "content", JStr (message planner_obj))];
                 JDict [(py "role", JStr (py "Reviewer"));
                        (py "content", JStr (message reviewer_obj))]]);
         (py "final", DataBlock_dump (data final_obj));
         (py "submissionDate", JStr submission_date)].

(** How [main] ends: with the package printed, or with the exception that
    [call_agent] raised, or, were [call_agent] to return [None], with the
    [AttributeError] of [None.model_dump]. *)
Inductive main_result :=
| Completed (publish : json)
| Aborted (e : exn)
| NoneType_error.

(** *** Notions that the properties of this code are stated with *)

(** A tag as the validator leaves it: not empty, without a blank at
    either end, in lower case. *)
Definition tidy_tag (t : str) : Prop :=
  t <> [] /\ strip t = t /\ lower t = t.

(** What a piece of the preamble patterns leaves is part of what it got. *)
Definition keeps (g : str -> option str) : Prop :=
  forall s r x, g s = Some r -> In x r -> In x s.

(** The tags of the input that [demeta_tags] keeps. *)
Definition kept_tags (tags : list str) : list str :=
  filter (fun t => negb (mem t meta_ban)) tags.

Definition str_eq_dec : forall a b : str, {a = b} + {a <> b} :=
  list_eq_dec ascii_dec.

(** The count that a counter holds for a word, 0 when it holds none. *)
Fixpoint counter_get (w : str) (c : counter) : nat :=
  match c with
  | [] => 0
  | (k, n) :: c' => if str_eqb w k then n else counter_get w c'
  end.

(** The order of [most_common]: no count before a greater one. *)
Definition by_count (x y : str * nat) : Prop := snd y <= snd x.

(** What every object that a run returns satisfies. *)
Definition well_formed (a : AgentJSON) : Prop :=
  message a <> [] /\ length (tags (data a)) <= 3
  /\ word_count (summary (data a)) <= 25.

Definition hex_char (n : N) : ascii :=
  if (n <? 10)%N then ascii_of_N (48 + n) else ascii_of_N (87 + n).

(** One character inside a string literal, as [json.dumps] writes it with
    [ensure_ascii=False]. *)
Definition escape_char (c : ascii) : str :=
  if Ascii.eqb c quote then ["\"%char; quote]
  else if Ascii.eqb c "\"%char then ["\"%char; "\"%char]
  else if (code c =? 10)%N then py "\n"
  else if (code c =? 13)%N then py "\r"
  else if (code c =? 9)%N then py "\t"
  else if (code c =? 12)%N then py "\f"
  else if (code c =? 8)%N then py "\b"
  else if (code c <? 32)%N
  then py "\u00" ++ [hex_char (code c / 16); hex_char (code c mod 16)]
  else [c].

Definition dumps_str (s : str) : str :=
  quote :: flat_map escape_char s ++ [quote].

(** A reference encoder for the worked examples: [json.dumps] with its
    default separators. *)
Fixpoint json_dumps_ref (j : json) : str :=
  match j with
  | JNull => py "null"
  | JBool true => py "true"
  | JBool false => py "false"
  | JInt z => py (NilEmpty.string_of_int (Z.to_int z))
  | JFloat l => l
  | JStr s => dumps_str s
  | JList xs => py "[" ++ join (py ", ") (map json_dumps_ref xs) ++ py "]"
  | JDict d =>
      py "{"
      ++ join (py ", ")
           (map (fun kv => match kv with
                           | (k, v) => dumps_str k ++ py ": " ++ json_dumps_ref v
                           end) d)
      ++ py "}"
  end.

Section WithBackend.

Variable json_loads : str -> option json.

(** [json.dumps(obj, ensure_ascii=False)] *)
Variable json_dumps : json -> str.

Variable Backend : Type.
Variable llm_invoke : Backend -> str -> str -> outcome str * Backend.

(** One stage: [call_agent] with its default of 2 repairs. *)
Definition stage (w : world Backend) (system_prompt human_prompt : str)
  : (AgentJSON + main_result) * world Backend :=
  match call_agent json_loads Backend llm_invoke w system_prompt
          human_prompt 2 with
  | (Returned (Some a), w') => (inl a, w')
  | (Returned None, w') => (inr NoneType_error, w')
  | (Raised e, w') => (inr (Aborted e), w')
  end.

(** [main] after the arguments are parsed and the client is built: the
    result, the backend with its log, and the calls of [print_block] made,
    each with its title and payload.  [submission_date] is what
    [time.strftime] gives when the package is assembled. *)
Definition main (w : world Backend) (title content email : str)
    (submission_date : str)
  : main_result * world Backend * list (str * json) :=
  match stage w PLANNER_SYS (planner_prompt title content) with
  | (inr r, w1) => (r, w1, [])
  | (inl planner_obj, w1) =>
      let out1 := [(py "Planner", model_dump planner_obj)] in
      let reviewer_h := json_dumps (model_dump planner_obj) in
      match stage w1 REVIEWER_SYS reviewer_h with
      | (inr r, w2) => (r, w2, out1)
      | (inl reviewer_obj, w2) =>
          let out2 := out1 ++ [(py "Reviewer", model_dump reviewer_obj)] in
          let final_h :=
            finalizer_prompt (json_dumps (model_dump planner_obj))
              (json_dumps (model_dump reviewer_obj)) in
          match stage w2 FINALIZER_SYS final_h with
          | (inr r, w3) => (r, w3, out2)
          | (inl final_obj, w3) =>
              let final_obj :=
                with_tags final_obj
                  (demeta_tags (tags (data final_obj)) title content) in
              let out3 :=
                out2 ++ [(py "Finalized Output", model_dump final_obj)] in
              let publish :=
                publish_package title email content planner_obj
                  reviewer_obj final_obj submission_date in
              (Completed publish, w3,
               out3 ++ [(py "Publish Package", publish)])
          end
      end
  end.

(** The invocations that follow the first in the log of a run: each keeps
    the system prompt and asks to repair the answer before it, which
    decoded and was refused. *)
Fixpoint repair_chain (system_prompt : str) (previous : outcome str)
    (l : list (str * str * outcome str)) : Prop :=
  match l with
  | [] => True
  | (s, h, r) :: l' =>
      s = system_prompt
      /\ (exists raw,
            previous = Returned raw
            /\ json_loads (strip raw) <> None
            /\ attempt json_loads (strip raw) = None
            /\ h = repair_prompt (strip raw))
      /\ repair_chain system_prompt r l'
  end.

(** The answer an entry of the log records decoded, once stripped. *)
Definition decoded_answer (c : str * str * outcome str) : Prop :=
  exists raw, snd c = Returned raw /\ json_loads (strip raw) <> None.

(** The failures recorded in a piece of log decide the outcome [r]: an
    exception of the backend is raised further, an answer that does not
    decode ends in [re.error]. *)
Definition failures_decide (new : list (str * str * outcome str))
    (r : outcome (option AgentJSON)) : Prop :=
  (forall s h e, In (s, h, Raised e) new -> r = Raised e)
  /\ (forall s h raw, In (s, h, Returned raw) new ->
        json_loads (strip raw) = None -> r = Raised (re_error "R"%char 12)).

(** What one stage does to the log and how its result reads it. *)
Definition stage_facts (w : world Backend) (sys hum : str)
    (x : AgentJSON + main_result) (w' : world Backend) : Prop :=
  exists first rest,
    calls w' = calls w ++ (sys, hum, first) :: rest
    /\ length rest <= 2
    /\ (forall s h e, In (s, h, Raised e) ((sys, hum, first) :: rest) ->
          x = inr (Aborted e))
    /\ (forall s h raw, In (s, h, Returned raw) ((sys, hum, first) :: rest) ->
          json_loads (strip raw) = None ->
          x = inr (Aborted (re_error "R"%char 12)))
    /\ x <> inr NoneType_error
    /\ (forall p, x <> inr (Completed p))
    /\ (forall a, x = inl a -> well_formed a).

End WithBackend.

(** A sample run for the worked cases: three answers, one per stage, the
    arguments of [main], and the package that results. *)
Definition three_answers : list (outcome str) :=
  [Returned (pyq "{`thought`:`p`,`message`:`planned`,`data`:{`tags`:[`sleep`],`summary`:`Sleep helps focus`}}");
   Returned (pyq "{`thought`:`r`,`message`:`reviewed`,`data`:{`tags`:[`sleep`,`focus`],`summary`:`Sleep helps focus`}}");
   Returned (pyq "{`thought`:`f`,`message`:`final`,`data`:{`tags`:[`json`,`sleep`],`summary`:`Sleep helps focus`}}")].

Definition sample_main (script : list (outcome str)) :=
  main json_loads_ref json_dumps_ref nat (scripted script) (mkWorld 0 [])
    (py "Sleep and Focus") (py "sleep habits improve focus and memory")
    (py "you@sjsu.edu") (py "2025-01-01T00:00:00Z").


End Pipeline.
Import Pipeline.

(* ================================================================= *)
(** * Properties *)

(** ** Text *)

Section TextFacts.

Lemma str_eqb_eq (a b : str) : str_eqb a b = true <-> a = b.
Proof.
  revert b; induction a as [|x a IH]; intros [|y b]; simpl;
    try (split; [discriminate | congruence]); try tauto.
  rewrite andb_true_iff, Ascii.eqb_eq, IH.
  split; [intros [-> ->]; reflexivity | intros [= -> ->]; auto].
Qed.

Lemma mem_In (x : str) (xs : list str) : mem x xs = true <-> In x xs.
Proof.
  unfold mem. rewrite existsb_exists. split.
  - intros (y & Hy & E). apply str_eqb_eq in E. now subst.
  - intros H. exists x. split; [assumption | now apply str_eqb_eq].
Qed.

Lemma mem_false_In (x : str) (xs : list str) : mem x xs = false <-> ~ In x xs.
Proof.
  rewrite <- mem_In. destruct (mem x xs); split; congruence.
Qed.

Lemma span_app (p : ascii -> bool) (s a b : str) :
  span p s = (a, b) -> s = a ++ b.
Proof.
  revert a b; induction s as [|c s IH]; simpl; intros a b E.
  - now inversion E.
  - destruct (p c).
    + destruct (span p s) as [a' b'] eqn:Es. inversion E; subst.
      simpl. f_equal. now apply IH.
    + now inversion E.
Qed.

Lemma span_forallb (p : ascii -> bool) (s a b : str) :
  span p s = (a, b) -> forallb p a = true.
Proof.
  revert a b; induction s as [|c s IH]; simpl; intros a b E.
  - now inversion E.
  - destruct (p c) eqn:Ec.
    + destruct (span p s) as [a' b'] eqn:Es. inversion E; subst.
      simpl. rewrite Ec. now apply (IH a' b).
    + now inversion E.
Qed.

(** A run of the class that stops at a character outside it is the whole
    span. *)
Lemma span_run (p : ascii -> bool) (w rest : str) :
  forallb p w = true ->
  match rest with c :: _ => p c = false | [] => True end ->
  span p (w ++ rest) = (w, rest).
Proof.
  intros Hw Hr. induction w as [|x w IH]; simpl in *.
  - destruct rest as [|c r]; simpl; [reflexivity | now rewrite Hr].
  - apply andb_true_iff in Hw as [Hx Hw]. rewrite Hx, (IH Hw). reflexivity.
Qed.

End TextFacts.

(** ** The word pattern *)

Section WordPattern.

Lemma upto_last_word_app (run tok back : str) :
  upto_last_word run = (tok, back) -> run = tok ++ back.
Proof.
  revert tok back; induction run as [|c r IH]; simpl; intros tok back E.
  - now inversion E.
  - destruct (upto_last_word r) as [a b] eqn:Er.
    destruct a as [|x a].
    + destruct (is_word c); inversion E; subst; reflexivity.
    + inversion E; subst. simpl. f_equal. exact (IH _ _ eq_refl).
Qed.

Lemma last_word_cons (c : ascii) (a : str) :
  a <> [] -> next_is_word (rev (c :: a)) = next_is_word (rev a).
Proof.
  intros Ha. simpl. destruct (rev a) as [|y ra] eqn:E.
  - apply (f_equal (@rev ascii)) in E. rewrite rev_involutive in E.
    now subst.
  - reflexivity.
Qed.

Lemma upto_last_word_ends (run tok back : str) :
  upto_last_word run = (tok, back) ->
  tok <> [] -> next_is_word (rev tok) = true.
Proof.
  revert tok back; induction run as [|c r IH]; simpl; intros tok back E Hne.
  - inversion E; subst. now elim Hne.
  - destruct (upto_last_word r) as [a b] eqn:Er.
    destruct a as [|x a].
    + destruct (is_word c) eqn:Ec; inversion E; subst.
      * simpl. exact Ec.
      * now elim Hne.
    + inversion E; subst. rewrite last_word_cons by discriminate.
      apply (IH _ _ eq_refl). discriminate.
Qed.

Lemma upto_last_word_head (c : ascii) (r tok back : str) :
  is_word c = true ->
  upto_last_word (c :: r) = (tok, back) -> exists t, tok = c :: t.
Proof.
  simpl. intros Hc E. destruct (upto_last_word r) as [a b].
  destruct a as [|x a].
  - rewrite Hc in E. inversion E; subst. now exists [].
  - inversion E; subst. now exists (x :: a).
Qed.

(** A text that ends with a word character is given back nothing. *)
Lemma upto_last_word_all (w : str) :
  next_is_word (rev w) = true -> upto_last_word w = (w, []).
Proof.
  induction w as [|c r IH]; intros H.
  - reflexivity.
  - destruct r as [|y r'].
    + simpl in *. now rewrite H.
    + rewrite last_word_cons in H by discriminate.
      change (upto_last_word (c :: y :: r'))
        with (let (a, b) := upto_last_word (y :: r') in
              match a with
              | [] => if is_word c then ([c], y :: r') else ([], c :: y :: r')
              | _ :: _ => (c :: a, b)
              end).
      rewrite (IH H). reflexivity.
Qed.

Lemma Forall_firstn_keep {A} (P : A -> Prop) (n : nat) (l : list A) :
  Forall P l -> Forall P (firstn n l).
Proof.
  intros H. revert n. induction H as [|x l Hx Hl IH]; intros [|n]; simpl;
    constructor; auto.
Qed.

Lemma forallb_app_l (p : ascii -> bool) (a b : str) :
  forallb p (a ++ b) = true -> forallb p a = true.
Proof.
  rewrite forallb_app, andb_true_iff. tauto.
Qed.

(** Every match is word-shaped. *)
Lemma findall_words_at_wordlike (fuel : nat) :
  forall prev s, Forall wordlike (findall_words_at fuel prev s).
Proof.
  induction fuel as [|f IH]; intros prev s; cbn [findall_words_at].
  - constructor.
  - destruct s as [|c s']; [constructor|].
    destruct (boundary prev (c :: s') && is_word c) eqn:Eb; [|apply IH].
    apply andb_true_iff in Eb as [_ Hc].
    destruct (span word_cls (c :: s')) as [run rest] eqn:Es.
    destruct (upto_last_word run) as [tok back] eqn:Eu.
    constructor; [|apply IH].
    assert (Hrun : exists r, run = c :: r).
    { simpl in Es. unfold word_cls in Es at 1. rewrite Hc in Es. simpl in Es.
      destruct (span word_cls s') as [a b]. inversion Es. now exists a. }
    destruct Hrun as [r ->].
    destruct (upto_last_word_head c r tok back Hc Eu) as [t ->].
    repeat split.
    + exact Hc.
    + apply (upto_last_word_ends _ _ _ Eu). discriminate.
    + apply span_forallb in Es. apply upto_last_word_app in Eu.
      rewrite Eu in Es. now apply forallb_app_l in Es.
Qed.

(** Fuel beyond the length of the text changes nothing. *)
Lemma findall_words_at_fuel (f1 : nat) :
  forall f2 prev s, length s <= f1 -> length s <= f2 ->
    findall_words_at f1 prev s = findall_words_at f2 prev s.
Proof.
  induction f1 as [|f1 IH]; intros f2 prev s H1 H2.
  - destruct s; [|simpl in H1; lia]. destruct f2; reflexivity.
  - destruct s as [|c s']; [destruct f2; reflexivity|].
    destruct f2 as [|f2]; [simpl in H2; lia|].
    simpl in H1, H2. cbn [findall_words_at].
    destruct (boundary prev (c :: s') && is_word c) eqn:Eb.
    + apply andb_true_iff in Eb as [_ Hc].
      destruct (span word_cls (c :: s')) as [run rest] eqn:Es.
      destruct (upto_last_word run) as [tok back] eqn:Eu.
      f_equal.
      assert (Hlen : length (back ++ rest) <= length s').
      { pose proof (span_app _ _ _ _ Es) as E1.
        pose proof (upto_last_word_app _ _ _ Eu) as E2.
        assert (Hrun : exists r, run = c :: r).
        { simpl in Es. unfold word_cls in Es at 1. rewrite Hc in Es.
          simpl in Es. destruct (span word_cls s') as [a b].
          inversion Es. now exists a. }
        destruct Hrun as [r ->].
        destruct (upto_last_word_head c r tok back Hc Eu) as [t ->].
        apply (f_equal (@length ascii)) in E1, E2.
        simpl in E1, E2. rewrite ?length_app in *. lia. }
      apply IH; lia.
    + apply IH; lia.
Qed.

Lemma space_not_word_cls : word_cls " "%char = false.
Proof. reflexivity. Qed.

(** Matching a word-shaped text followed by nothing or by a space gives
    that text and resumes after it. *)
Lemma findall_words_at_word (f : nat) (w rest : str) :
  wordlike w ->
  match rest with c :: _ => word_cls c = false | [] => True end ->
  findall_words_at (S f) false (w ++ rest)
  = w :: findall_words_at f true rest.
Proof.
  intros (Hh & Hl & Hc) Hr.
  destruct w as [|c w']; [discriminate|].
  simpl in Hh.
  change ((c :: w') ++ rest) with (c :: (w' ++ rest)).
  cbn [findall_words_at].
  unfold boundary. cbn [next_is_word]. rewrite Hh. cbn [xorb andb].
  change (c :: (w' ++ rest)) with ((c :: w') ++ rest).
  rewrite (span_run word_cls (c :: w') rest Hc Hr).
  rewrite (upto_last_word_all (c :: w') Hl). reflexivity.
Qed.

(** Joining word-shaped texts with single spaces and matching again gives
    them back. *)
Lemma findall_words_join (ws : list str) :
  Forall wordlike ws -> findall_words (join (py " ") ws) = ws.
Proof.
  unfold findall_words.
  induction ws as [|w ws IH]; intros H.
  - reflexivity.
  - inversion H as [|? ? Hw Hws]; subst.
    destruct ws as [|w2 ws'].
    + cbn [join]. destruct w as [|c w']; [destruct Hw; discriminate|].
      rewrite <- (app_nil_r (c :: w')) at 2.
      cbn [length]. rewrite (findall_words_at_word _ (c :: w') [] Hw I).
      destruct (length w'); reflexivity.
    + specialize (IH Hws). revert IH.
      change (join (py " ") (w :: w2 :: ws'))
        with (w ++ " "%char :: join (py " ") (w2 :: ws')).
      generalize (join (py " ") (w2 :: ws')). intros tl IH.
      destruct w as [|c w']; [destruct Hw; discriminate|].
      rewrite length_app. cbn [length].
      replace (S (length w') + S (length tl))
        with (S (S (length w' + length tl))) by lia.
      rewrite (findall_words_at_word _ (c :: w') (" "%char :: tl) Hw
                 space_not_word_cls).
      f_equal.
      cbn [findall_words_at]. unfold boundary. cbn [next_is_word].
      change (is_word " "%char) with false. cbn [xorb andb].
      rewrite <- IH.
      apply findall_words_at_fuel; lia.
Qed.

End WordPattern.

(** ** The schema model *)

Section SchemaFacts.

Lemma all_str_map (l : list str) : all_str (map JStr l) = Some l.
Proof.
  induction l as [|x l IH]; simpl; [reflexivity | now rewrite IH].
Qed.

Lemma document_valid (th m : str) (ts : list str) (sm : str)
    (iss : list str) :
  AgentJSON_validate (document th m ts sm iss)
  = Ok (mkAgentJSON th (_ensure_message m)
          (mkDataBlock (_three_tags ts) (_limit_25 sm) iss)).
Proof.
  unfold document, AgentJSON_validate, DataBlock_validate, str_field,
    list_str_value.
  cbn [dict_get py list_ascii_of_string str_eqb Ascii.eqb Bool.eqb andb bind].
  now rewrite !all_str_map.
Qed.

(** What an accepted document is made of. *)
Lemma AgentJSON_validate_inv (obj : json) (a : AgentJSON) :
  AgentJSON_validate obj = Ok a ->
  exists d th m db t s i,
    obj = JDict d
    /\ dict_get (py "thought") d = Some (JStr th)
    /\ dict_get (py "message") d = Some (JStr m)
    /\ dict_get (py "data") d = Some (JDict db)
    /\ dict_get (py "summary") db = Some (JStr s)
    /\ a = mkAgentJSON th (_ensure_message m)
             (mkDataBlock (_three_tags t) (_limit_25 s) i).
Proof.
  unfold AgentJSON_validate, DataBlock_validate, str_field, list_str_value,
    bind.
  intros H.
  destruct obj as [| | | | |xs|d]; try discriminate.
  destruct (dict_get (py "thought") d) as [[| | | |th| |]|] eqn:Eth;
    try discriminate.
  destruct (dict_get (py "message") d) as [[| | | |m| |]|] eqn:Em;
    try discriminate.
  destruct (dict_get (py "data") d) as [[| | | | | |db]|] eqn:Ed;
    try discriminate.
  destruct (dict_get (py "tags") db) as [[| | | | |ts|]|] eqn:Et;
    try discriminate.
  destruct (all_str ts) as [t|] eqn:Ets; try discriminate.
  destruct (dict_get (py "summary") db) as [[| | | |s| |]|] eqn:Es;
    try discriminate.
  destruct (dict_get (py "issues") db) as [[| | | | |il|]|] eqn:Ei;
    try discriminate.
  - destruct (all_str il) as [i|] eqn:Eis; try discriminate.
    inversion H; subst.
    exists d, th, m, db, t, s, i. repeat split; assumption.
  - inversion H; subst.
    exists d, th, m, db, t, s, []. repeat split; assumption.
Qed.

Lemma _three_tags_length (v : list str) : length (_three_tags v) <= 3.
Proof.
  unfold _three_tags. apply firstn_le_length.
Qed.

Lemma _limit_25_word_count (v : str) : word_count (_limit_25 v) <= 25.
Proof.
  unfold word_count, _limit_25.
  rewrite findall_words_join.
  - apply firstn_le_length.
  - apply Forall_firstn_keep. apply findall_words_at_wordlike.
Qed.

Lemma default_message_not_empty : default_message <> [].
Proof. discriminate. Qed.

Lemma _ensure_message_not_empty (v : str) : _ensure_message v <> [].
Proof.
  unfold _ensure_message. destruct (strip v) eqn:E; simpl.
  - apply default_message_not_empty.
  - discriminate.
Qed.

Lemma _ensure_message_blank (v : str) :
  strip v = [] -> _ensure_message v = default_message.
Proof.
  unfold _ensure_message. now intros ->.
Qed.

Lemma _ensure_message_kept (v : str) :
  strip v <> [] -> _ensure_message v = strip v.
Proof.
  unfold _ensure_message. destruct (strip v); [congruence | reflexivity].
Qed.

(** The fallback, once its constructors have run, is the fixed artifact. *)
Lemma fallback_value :
  fallback
  = mkAgentJSON (py "Fallback") default_message
      (mkDataBlock [] (py "Concise summary not provided by the model")
         [py "autofix"]).
Proof. vm_compute. reflexivity. Qed.

(** *** The shape that is accepted, and the tags that are kept *)

Lemma str_eqb_refl (a : str) : str_eqb a a = true.
Proof. now apply str_eqb_eq. Qed.

Lemma str_eqb_sym (a b : str) : str_eqb a b = str_eqb b a.
Proof.
  destruct (str_eqb a b) eqn:E.
  - apply str_eqb_eq in E. subst. symmetry. apply str_eqb_refl.
  - destruct (str_eqb b a) eqn:E'; [|reflexivity].
    apply str_eqb_eq in E'. subst. now rewrite str_eqb_refl in E.
Qed.

Lemma mem_app (x : str) (a b : list str) :
  mem x (a ++ b) = mem x a || mem x b.
Proof. unfold mem. apply existsb_app. Qed.

Lemma filter_filter {A} (f g : A -> bool) (l : list A) :
  filter f (filter g l) = filter (fun x => g x && f x) l.
Proof.
  induction l as [|x l IH]; simpl; [reflexivity|].
  destruct (g x); simpl; [destruct (f x)|]; now rewrite IH.
Qed.

(** Leaving out what [clean] holds, once a tag of [clean] has been left
    out anyway. *)
Lemma unseen_known (clean : list str) (u : str) (l : list str) :
  mem u clean = true ->
  filter (fun x => negb (mem x clean))
    (filter (fun x => negb (str_eqb x u)) l)
  = filter (fun x => negb (mem x clean)) l.
Proof.
  intros H. rewrite filter_filter. apply filter_ext. intros x.
  destruct (str_eqb x u) eqn:E; simpl; [|reflexivity].
  apply str_eqb_eq in E. subst. now rewrite H.
Qed.

Lemma unseen_new (clean : list str) (u : str) (l : list str) :
  filter (fun x => negb (mem x (clean ++ [u]))) l
  = filter (fun x => negb (mem x clean))
      (filter (fun x => negb (str_eqb x u)) l).
Proof.
  rewrite filter_filter. apply filter_ext. intros x.
  rewrite mem_app. unfold mem at 2. simpl. rewrite orb_false_r.
  destruct (str_eqb x u), (mem x clean); reflexivity.
Qed.

Lemma firstn_full (a : list str) (u : str) (l : list str) (n : nat) :
  length (a ++ [u]) = n ->
  firstn n (a ++ [u]) = firstn n (a ++ u :: l).
Proof.
  intros <-.
  replace (a ++ u :: l) with ((a ++ [u]) ++ l)
    by (rewrite <- app_assoc; reflexivity).
  rewrite firstn_all, firstn_app, Nat.sub_diag, firstn_all.
  cbn [firstn]. now rewrite app_nil_r.
Qed.

(** The loop of [_three_tags], from any state with fewer than 3 tags
    gathered: its first three results are those of the tags gathered
    followed by the normalised tags to come that are not among them. *)
Lemma three_tags_loop_normalised (v clean seen : list str) :
  length clean < 3 ->
  (forall u, mem u seen = mem u clean) ->
  firstn 3 (three_tags_loop v clean seen)
  = firstn 3 (clean ++ filter (fun u => negb (mem u clean))
                         (normalised_tags v)).
Proof.
  unfold normalised_tags.
  revert clean seen. induction v as [|t v IH]; intros clean seen Hl Hs.
  - cbn [three_tags_loop clean_tags first_occurrences filter].
    now rewrite app_nil_r.
  - cbn [three_tags_loop clean_tags]. unfold clean_tag.
    destruct (is_empty (lower (strip t)) || mem (lower (strip t)) meta_ban)
      eqn:E1.
    + now apply IH.
    + set (u := strip (sub_stopwords (lower (strip t)))).
      destruct (is_empty u) eqn:E2; cbn [negb andb].
      * replace (length clean =? 3) with false
          by (symmetry; apply Nat.eqb_neq; lia).
        now apply IH.
      * cbn [first_occurrences filter].
        rewrite Hs.
        destruct (mem u clean) eqn:E3; cbn [negb].
        -- replace (length clean =? 3) with false
             by (symmetry; apply Nat.eqb_neq; lia).
           rewrite unseen_known by assumption. now apply IH.
        -- destruct (length (clean ++ [u]) =? 3) eqn:E4.
           ++ apply Nat.eqb_eq in E4.
              now apply firstn_full.
           ++ apply Nat.eqb_neq in E4.
              rewrite IH.
              ** rewrite unseen_new. rewrite <- app_assoc. reflexivity.
              ** rewrite length_app in *. cbn [length] in *. lia.
              ** intros x. rewrite mem_app. unfold mem at 1 3.
                 cbn [existsb]. fold (mem x seen). rewrite Hs.
                 rewrite orb_false_r. apply orb_comm.
Qed.

Lemma _three_tags_normalised (v : list str) :
  _three_tags v = firstn 3 (normalised_tags v).
Proof.
  unfold _three_tags.
  rewrite (three_tags_loop_normalised v [] []); [|cbn [length]; lia|reflexivity].
  cbn [app]. f_equal.
  rewrite <- (filter_ext (fun _ => true)); [|reflexivity].
  induction (normalised_tags v) as [|x l IH]; cbn [filter]; congruence.
Qed.

Lemma all_str_is_str (xs : list json) :
  forallb is_str xs = true <-> exists l, all_str xs = Some l.
Proof.
  induction xs as [|x xs IH]; cbn [forallb all_str].
  - split; [intros _; now exists [] | reflexivity].
  - destruct x; cbn [is_str andb];
      try (split; [discriminate | intros [? H]; discriminate]).
    rewrite IH. split; intros [l H].
    + rewrite H. now eexists.
    + destruct (all_str xs) as [l'|]; [now exists l' | discriminate].
Qed.

Lemma is_str_list_all_str (j : json) :
  is_str_list j = true <-> exists xs l, j = JList xs /\ all_str xs = Some l.
Proof.
  destruct j; cbn [is_str_list];
    try (split; [discriminate | intros (xs & l & H & _); discriminate]).
  rewrite all_str_is_str. split.
  - intros [l H]. now exists xs, l.
  - intros (xs' & l & [= <-] & H). now exists l.
Qed.

Lemma list_str_value_shape (loc : list string) (j : json) :
  is_str_list j = true <-> exists l, list_str_value loc j = Ok l.
Proof.
  rewrite is_str_list_all_str. unfold list_str_value. split.
  - intros (xs & l & -> & H). rewrite H. now exists l.
  - intros [l H]. destruct j; try discriminate.
    destruct (all_str xs) as [l'|] eqn:E; [|discriminate].
    now exists xs, l'.
Qed.

Lemma DataBlock_validate_shape (loc : list string) (j : json) :
  data_shape j = true <-> exists b, DataBlock_validate loc j = Ok b.
Proof.
  unfold data_shape, DataBlock_validate, str_field, bind.
  destruct j as [| | | | |xs|d];
    try (split; [discriminate | intros [? H]; discriminate]).
  destruct (dict_get (py "tags") d) as [vt|];
    [|split; [discriminate | intros [? H]; discriminate]].
  destruct (is_str_list vt) eqn:Et.
  - apply (list_str_value_shape (loc ++ ["tags"%string])) in Et.
    destruct Et as [t ->].
    destruct (dict_get (py "summary") d) as [[| | | |s| |]|];
      cbn [is_str andb];
      try (split; [discriminate | intros [? H]; discriminate]).
    destruct (dict_get (py "issues") d) as [vi|].
    + destruct (is_str_list vi) eqn:Ei.
      * apply (list_str_value_shape (loc ++ ["issues"%string])) in Ei.
        destruct Ei as [i ->]. split; [now eexists | reflexivity].
      * split; [discriminate|]. intros [b H].
        destruct (list_str_value (loc ++ ["issues"%string]) vi) as [i|e] eqn:E;
          [|discriminate].
        assert (Hs : is_str_list vi = true)
          by (apply (list_str_value_shape (loc ++ ["issues"%string]));
              now exists i).
        congruence.
    + split; [now eexists | reflexivity].
  - cbn [andb]. split; [discriminate|]. intros [b H].
    destruct (list_str_value (loc ++ ["tags"%string]) vt) as [t|e] eqn:E;
      [|discriminate].
    assert (Hs : is_str_list vt = true)
      by (apply (list_str_value_shape (loc ++ ["tags"%string])); now exists t).
    congruence.
Qed.

(** Acceptance is a matter of shape alone. *)
Lemma AgentJSON_validate_shape (obj : json) :
  required_shape obj = true <-> exists a, AgentJSON_validate obj = Ok a.
Proof.
  unfold required_shape, AgentJSON_validate, str_field, bind.
  destruct obj as [| | | | |xs|d];
    try (split; [discriminate | intros [? H]; discriminate]).
  destruct (dict_get (py "thought") d) as [[| | | |th| |]|];
    cbn [is_str andb];
    try (split; [discriminate | intros [? H]; discriminate]).
  destruct (dict_get (py "message") d) as [[| | | |m| |]|];
    cbn [is_str andb];
    try (split; [discriminate | intros [? H]; discriminate]).
  destruct (dict_get (py "data") d) as [v|];
    [|split; [discriminate | intros [? H]; discriminate]].
  rewrite (DataBlock_validate_shape ["data"%string]). split.
  - intros [b ->]. now eexists.
  - intros [a H].
    destruct (DataBlock_validate ["data"%string] v) as [b|e];
      [now exists b | discriminate].
Qed.

(** What an accepted document gave, and what was made of it. *)
Lemma AgentJSON_validate_given (obj : json) (a : AgentJSON) :
  AgentJSON_validate obj = Ok a ->
  exists ts sm,
    given_tags obj = Some ts /\ given_summary obj = Some sm
    /\ tags (data a) = _three_tags ts
    /\ summary (data a) = _limit_25 sm.
Proof.
  unfold AgentJSON_validate, DataBlock_validate, str_field, list_str_value,
    given_tags, given_summary, bind.
  intros H.
  destruct obj as [| | | | |xs|d]; try discriminate.
  destruct (dict_get (py "thought") d) as [[| | | |th| |]|];
    try discriminate.
  destruct (dict_get (py "message") d) as [[| | | |m| |]|];
    try discriminate.
  destruct (dict_get (py "data") d) as [[| | | | | |db]|];
    try discriminate.
  destruct (dict_get (py "tags") db) as [[| | | | |ts|]|];
    try discriminate.
  destruct (all_str ts) as [t|]; try discriminate.
  destruct (dict_get (py "summary") db) as [[| | | |s| |]|];
    try discriminate.
  destruct (dict_get (py "issues") db) as [[| | | | |il|]|];
    try discriminate.
  - destruct (all_str il) as [i|]; try discriminate.
    inversion H; subst. exists t, s. repeat split.
  - inversion H; subst. exists t, s. repeat split.
Qed.

Lemma _limit_25_words (v : str) :
  findall_words (_limit_25 v)
  = firstn 25 (findall_words (strip (without_preamble v))).
Proof.
  unfold _limit_25, without_preamble.
  apply findall_words_join.
  apply Forall_firstn_keep. apply findall_words_at_wordlike.
Qed.

Lemma clean_tags_id (ts : list str) :
  Forall (fun t => clean_tag t = Some t) ts -> clean_tags ts = ts.
Proof.
  induction 1 as [|t ts Ht _ IH]; cbn [clean_tags]; [reflexivity|].
  now rewrite Ht, IH.
Qed.

Lemma filter_others (t : str) (ts : list str) :
  ~ In t ts -> filter (fun u => negb (str_eqb u t)) ts = ts.
Proof.
  induction ts as [|x ts IH]; cbn [filter In]; intros H; [reflexivity|].
  destruct (str_eqb x t) eqn:E; cbn [negb].
  - apply str_eqb_eq in E. tauto.
  - rewrite IH; tauto.
Qed.

Lemma first_occurrences_id (ts : list str) :
  NoDup ts -> first_occurrences ts = ts.
Proof.
  induction 1 as [|t ts Ht _ IH]; cbn [first_occurrences]; [reflexivity|].
  now rewrite IH, filter_others.
Qed.

End SchemaFacts.

(** C5.  A document is accepted exactly when it has the required shape,
    in which the number of tags has no part: no count of tags causes a
    rejection.  Every accepted document yields the first three of its
    tags as normalised and freed of repetitions: all of them when they
    are 3 or fewer, exactly 3 when they are more; hence at most 3.  Its
    summary holds the first 25 words of the given summary without its
    preamble; hence at most 25 words.  A document of the required shape
    with any list of tags is accepted, and a list of distinct tags that
    normalisation leaves as they are is cut to its first three. *)
Theorem schema_validation_bounds :
  (forall obj,
     required_shape obj = true <-> exists a, AgentJSON_validate obj = Ok a)
  /\
  (forall obj a, AgentJSON_validate obj = Ok a ->
     exists ts sm,
       given_tags obj = Some ts /\ given_summary obj = Some sm
       /\ tags (data a) = firstn 3 (normalised_tags ts)
       /\ length (tags (data a)) = Nat.min 3 (length (normalised_tags ts))
       /\ length (tags (data a)) <= 3
       /\ findall_words (summary (data a))
          = firstn 25 (findall_words (strip (without_preamble sm)))
       /\ word_count (summary (data a)) <= 25)
  /\
  (forall th m ts sm iss, exists a,
     AgentJSON_validate (document th m ts sm iss) = Ok a
     /\ tags (data a) = firstn 3 (normalised_tags ts)
     /\ (Forall (fun t => clean_tag t = Some t) ts -> NoDup ts ->
         tags (data a) = firstn 3 ts)).
Proof.
  split; [exact AgentJSON_validate_shape | split].
  - intros obj a H.
    destruct (AgentJSON_validate_given obj a H) as (ts & sm & Ht & Hs & -> & ->).
    exists ts, sm. rewrite _three_tags_normalised.
    repeat split; try assumption.
    + apply length_firstn.
    + apply firstn_le_length.
    + apply _limit_25_words.
    + apply _limit_25_word_count.
  - intros th m ts sm iss. eexists. split; [apply document_valid|].
    cbn [tags data]. rewrite _three_tags_normalised. split; [reflexivity|].
    intros Hc Hn. unfold normalised_tags.
    now rewrite (clean_tags_id ts Hc), (first_occurrences_id ts Hn).
Qed.

Lemma schema_validation_bounds_witness :
  let obj :=
    document (py "x") (py "")
      [py "Sleep"; py "json"; py " the focus "; py "sleep"; py "memory";
       py "habits"]
      (py "Here is the paraphrased summary: a1 a2 a3 a4 a5 a6 a7 a8 a9 a10 a11 a12 a13 a14 a15 a16 a17 a18 a19 a20 a21 a22 a23 a24 a25 a26 a27")
      [] in
  let a :=
    mkAgentJSON (py "x") default_message
      (mkDataBlock [py "sleep"; py "focus"; py "memory"]
         (py "a1 a2 a3 a4 a5 a6 a7 a8 a9 a10 a11 a12 a13 a14 a15 a16 a17 a18 a19 a20 a21 a22 a23 a24 a25")
         []) in
  AgentJSON_validate obj = Ok a
  /\ required_shape obj = true
  /\ length (tags (data a)) = 3
  /\ word_count (summary (data a)) = 25
  /\ exists ts sm,
       given_tags obj = Some ts /\ given_summary obj = Some sm
       /\ tags (data a) = firstn 3 (normalised_tags ts)
       /\ length (tags (data a)) = Nat.min 3 (length (normalised_tags ts))
       /\ length (tags (data a)) <= 3
       /\ findall_words (summary (data a))
          = firstn 25 (findall_words (strip (without_preamble sm)))
       /\ word_count (summary (data a)) <= 25.
Proof.
  intros obj a.
  assert (H : AgentJSON_validate obj = Ok a) by (vm_compute; reflexivity).
  split; [exact H | split; [|split; [|split]]].
  - apply (proj1 schema_validation_bounds obj). now exists a.
  - vm_compute; reflexivity.
  - vm_compute; reflexivity.
  - exact (proj1 (proj2 schema_validation_bounds) obj a H).
Defined.

(** C9.  [_ensure_message] never yields the empty text: a message that is
    empty or blank once stripped is replaced by the default message, any
    other is kept stripped; hence the message of every accepted document,
    and that of the fallback, is not empty. *)
Theorem message_never_empty :
  (forall v, _ensure_message v <> []
             /\ (strip v = [] -> _ensure_message v = default_message)
             /\ (strip v <> [] -> _ensure_message v = strip v))
  /\ (forall obj a, AgentJSON_validate obj = Ok a -> message a <> [])
  /\ message fallback <> [].
Proof.
  split; [|split].
  - intros v. split; [apply _ensure_message_not_empty|].
    split; [apply _ensure_message_blank | apply _ensure_message_kept].
  - intros obj a H.
    destruct (AgentJSON_validate_inv obj a H)
      as (d & th & m & db & t & s & i & _ & _ & _ & _ & _ & ->).
    simpl. apply _ensure_message_not_empty.
  - unfold fallback. simpl. apply _ensure_message_not_empty.
Qed.

Lemma message_never_empty_witness :
  let obj := document (py "x") (py "   ") [] (py "s") [] in
  let a := mkAgentJSON (py "x") default_message
             (mkDataBlock [] (py "s") []) in
  AgentJSON_validate obj = Ok a /\ message a <> [].
Proof.
  split; [vm_compute; reflexivity|].
  apply (proj1 (proj2 message_never_empty)
           (document (py "x") (py "   ") [] (py "s") [])).
  vm_compute; reflexivity.
Defined.

(** C10.  [_three_tags] tests a tag against the meta-ban set before it
    removes the stop words from it: a tag made of "the" and a banned word
    passes the test and is then reduced to the banned word.  So the
    document whose only tag is "the json" is accepted and the tags of the
    result contain "json", an element of the meta-ban set. *)
Theorem validated_tags_may_be_meta :
  (forall b, In b meta_ban -> _three_tags [py "the " ++ b] = [b])
  /\ exists obj a,
       json_loads_ref
         (pyq "{`thought`:`t`,`message`:`m`,`data`:{`tags`:[`the json`],`summary`:`s`}}")
       = Some obj
       /\ AgentJSON_validate obj = Ok a
       /\ tags (data a) = [py "json"]
       /\ In (py "json") meta_ban.
Proof.
  split.
  - intros b Hb. unfold meta_ban in Hb. simpl in Hb.
    repeat (destruct Hb as [<- | Hb]; [vm_compute; reflexivity|]).
    destruct Hb.
  - eexists. eexists. split; [vm_compute; reflexivity|].
    split; [vm_compute; reflexivity|].
    split; [reflexivity|]. simpl. auto.
Qed.

Lemma validated_tags_may_be_meta_witness :
  In (py "prompt") meta_ban
  /\ _three_tags [py "the " ++ py "prompt"] = [py "prompt"].
Proof.
  assert (H : In (py "prompt") meta_ban) by (simpl; tauto).
  split; [exact H|].
  exact (proj1 validated_tags_may_be_meta (py "prompt") H).
Defined.

(** ** The topic sanitizer *)

Section TopicFacts.

Lemma filter_all {A} (p : A -> bool) (l : list A) :
  (forall x, In x l -> p x = true) -> filter p l = l.
Proof.
  induction l as [|x l IH]; simpl; intros H; [reflexivity|].
  rewrite (H x (or_introl eq_refl)). f_equal. apply IH. auto.
Qed.

Lemma In_firstn_keep {A} (x : A) (n : nat) (l : list A) :
  In x (firstn n l) -> In x l.
Proof.
  revert n; induction l as [|y l IH]; intros [|n]; simpl; try tauto.
  intros [H | H]; [now left | right; eauto].
Qed.

Lemma insert_by_count_In (x y : str * nat) (l : counter) :
  In x (insert_by_count y l) -> x = y \/ In x l.
Proof.
  induction l as [|z l IH]; simpl.
  - intros [H | []]; auto.
  - destruct (snd y <? snd z); simpl; intros [H | H]; auto.
    destruct (IH H); auto.
Qed.

Lemma most_common_In (x : str * nat) (c : counter) :
  In x (most_common c) -> In x c.
Proof.
  induction c as [|y c IH]; simpl; [tauto|].
  intros H. apply insert_by_count_In in H as [H | H]; auto.
Qed.

Lemma counter_add_In (w w' : str) (n : nat) (c : counter) :
  In (w, n) (counter_add w' c) -> w = w' \/ exists n', In (w, n') c.
Proof.
  induction c as [|[k m] c IH]; simpl.
  - intros [[= -> _] | []]. now left.
  - destruct (str_eqb w' k) eqn:E; simpl.
    + intros [[= <- _] | H].
      * right. exists m. now left.
      * right. exists n. now right.
    + intros [[= <- <-] | H].
      * right. exists m. now left.
      * destruct (IH H) as [-> | [n' Hn']]; [now left|].
        right. exists n'. now right.
Qed.

Lemma Counter_from_In (ws : list str) :
  forall c0 w n,
    In (w, n) (fold_left (fun c x => counter_add x c) ws c0) ->
    In w ws \/ exists n', In (w, n') c0.
Proof.
  induction ws as [|x ws IH]; simpl; intros c0 w n H.
  - right. now exists n.
  - destruct (IH _ _ _ H) as [Hw | [n' Hn']]; [auto|].
    destruct (counter_add_In _ _ _ _ Hn') as [-> | Hc]; auto.
Qed.

Lemma Counter_In (ws : list str) (w : str) (n : nat) :
  In (w, n) (Counter ws) -> In w ws.
Proof.
  intros H. destruct (Counter_from_In ws [] w n H) as [Hw | [n' []]].
  exact Hw.
Qed.

Lemma backfill_In (ws : counter) :
  forall keep t, In t (backfill keep ws) ->
    In t keep \/ exists n, In (t, n) ws.
Proof.
  induction ws as [|[w m] ws IH]; simpl; intros keep t H; [auto|].
  destruct (length keep =? 3); [auto|].
  destruct (mem w keep).
  - destruct (IH _ _ H) as [Hk | [n Hn]]; [auto|]. right. exists n. auto.
  - destruct (IH _ _ H) as [Hk | [n Hn]].
    + apply in_app_or in Hk as [Hk | [<- | []]]; [auto|].
      right. exists m. auto.
    + right. exists n. auto.
Qed.

(** The backfill only appends. *)
Lemma backfill_extends (ws : counter) :
  forall keep, exists extra, backfill keep ws = keep ++ extra.
Proof.
  induction ws as [|[w m] ws IH]; simpl; intros keep.
  - exists []. now rewrite app_nil_r.
  - destruct (length keep =? 3); [exists []; now rewrite app_nil_r|].
    destruct (mem w keep); [apply IH|].
    destruct (IH (keep ++ [w])) as [extra ->].
    exists (w :: extra). now rewrite <- app_assoc.
Qed.

Lemma topical_words_In (title content t : str) :
  In t (topical_words title content) ->
  In t (findall_tokens (lower (title ++ py " " ++ content)))
  /\ ~ In t stop.
Proof.
  unfold topical_words. rewrite filter_In, negb_true_iff, mem_false_In.
  tauto.
Qed.

End TopicFacts.

(** C4, as the code has it.  [demeta_tags] returns at most 3 tags.  Each
    of them is either a tag of the input that is not in the meta-ban set,
    compared as it is written (no lowercasing), or a token of the
    lowercased title and content that is not in the stop set; the tokens
    drawn from title and content are not compared with the meta-ban set.
    The kept tags of the input come first, in their order. *)
Theorem demeta_tags_result :
  forall tags title content,
    length (demeta_tags tags title content) <= 3
    /\ Forall
         (fun t =>
            (In t tags /\ ~ In t meta_ban)
            \/ (In t (findall_tokens (lower (title ++ py " " ++ content)))
                /\ ~ In t stop))
         (demeta_tags tags title content)
    /\ exists extra,
         demeta_tags tags title content
         = firstn 3 (filter (fun t => negb (mem t meta_ban)) tags ++ extra).
Proof.
  intros tags title content. unfold demeta_tags.
  set (keep := filter (fun t => negb (mem t meta_ban)) tags).
  assert (Hkeep : forall t, In t keep -> In t tags /\ ~ In t meta_ban).
  { intros t. unfold keep.
    rewrite filter_In, negb_true_iff, mem_false_In. tauto. }
  split; [apply firstn_le_length|]. split.
  - apply Forall_forall. intros t Ht. apply In_firstn_keep in Ht.
    destruct (length keep <? 3); [|left; auto].
    apply backfill_In in Ht as [Hk | [n Hn]]; [left; auto|].
    right. apply most_common_In, Counter_In in Hn.
    now apply topical_words_In.
  - destruct (length keep <? 3).
    + destruct (backfill_extends
                  (most_common (Counter (topical_words title content))) keep)
        as [extra ->].
      now exists extra.
    + exists []. now rewrite app_nil_r.
Qed.

(** The claim C4 as worded fails: with no input tag and the title "json",
    the backfill puts "json", an element of the meta-ban set, into the
    result. *)
Lemma demeta_tags_backfills_meta :
  ~ (forall t, In t (demeta_tags [] (py "json") (py "")) ->
       ~ In (lower t) meta_ban).
Proof.
  intros H. apply (H (py "json")).
  - vm_compute. auto.
  - vm_compute. auto.
Qed.

(** An input tag that differs from a banned word only by case is kept. *)
Lemma demeta_tags_case_sensitive :
  demeta_tags [py "JSON"; py "sleep"; py "focus"] (py "t") (py "c")
  = [py "JSON"; py "sleep"; py "focus"].
Proof. vm_compute. reflexivity. Qed.

(** C8.  A list of 3 tags, none of them in the meta-ban set, is returned
    unchanged, whatever the title and the content. *)
Theorem demeta_tags_idempotent :
  forall tags title content,
    length tags = 3 ->
    (forall t, In t tags -> ~ In t meta_ban) ->
    demeta_tags tags title content = tags.
Proof.
  intros tags title content Hlen Hban. unfold demeta_tags.
  rewrite filter_all.
  - replace (length tags <? 3) with false by (now rewrite Hlen).
    apply firstn_all2. lia.
  - intros t Ht. rewrite negb_true_iff, mem_false_In. auto.
Qed.

Lemma demeta_tags_idempotent_witness :
  demeta_tags [py "sleep"; py "focus"; py "memory"]
    (py "Sleep and Focus") (py "sleep habits improve focus and memory")
  = [py "sleep"; py "focus"; py "memory"].
Proof.
  apply demeta_tags_idempotent.
  - reflexivity.
  - intros t Ht. apply mem_false_In.
    simpl in Ht.
    repeat (destruct Ht as [<- | Ht]; [vm_compute; reflexivity|]).
    destruct Ht.
Defined.

(** ** The reference decoder and surrounding blanks *)

Lemma space_char_cases (c : ascii) : is_space c = true -> In c space_chars.
Proof.
  destruct c as [[|] [|] [|] [|] [|] [|] [|] [|]]; intros H;
    first [discriminate H | vm_compute; tauto].
Qed.

Ltac space_cases H :=
  apply space_char_cases in H; unfold space_chars in H; simpl in H;
  repeat (destruct H as [<- | H]; [|]); [..|destruct H].

Lemma is_jws_space (c : ascii) : is_jws c = true -> is_space c = true.
Proof.
  destruct c as [[|] [|] [|] [|] [|] [|] [|] [|]]; intros H;
    first [discriminate H | reflexivity].
Qed.

Lemma cut_tail_refl (s : str) : cut_tail s s.
Proof. exists []. now rewrite app_nil_r. Qed.

Lemma cut_tail_nil (s : str) : cut_tail s [] -> forallb is_space s = true.
Proof. intros (w & Hw & ->). exact Hw. Qed.

Lemma cut_tail_cons (c : ascii) (s s' : str) :
  cut_tail s s' -> cut_tail (c :: s) (c :: s').
Proof. intros (w & Hw & ->). now exists w. Qed.

Lemma cut_tail_heads (c c' : ascii) (s s' : str) :
  cut_tail (c :: s) (c' :: s') -> c = c' /\ cut_tail s s'.
Proof.
  intros (w & Hw & E). inversion E; subst. split; [reflexivity|]. now exists w.
Qed.

Lemma cut_tail_cons_inv (c : ascii) (s s' : str) :
  cut_tail (c :: s) s' -> is_space c = false ->
  exists s1, s' = c :: s1 /\ cut_tail s s1.
Proof.
  intros H Hc. destruct s' as [|c' s1].
  - apply cut_tail_nil in H. simpl in H. rewrite Hc in H. discriminate.
  - apply cut_tail_heads in H as [<- H]. now exists s1.
Qed.

Lemma cut_tail_length (s s' : str) : cut_tail s s' -> length s' <= length s.
Proof. intros (w & _ & ->). rewrite length_app. lia. Qed.

Lemma drop_while_forallb (p q : ascii -> bool) (s : str) :
  forallb q s = true -> forallb q (drop_while p s) = true.
Proof.
  induction s as [|c s IH]; simpl; [reflexivity|].
  intros H. apply andb_true_iff in H as [Hc Hs].
  destruct (p c); [auto | simpl; now rewrite Hc, Hs].
Qed.

Lemma drop_while_length (p : ascii -> bool) (s : str) :
  length (drop_while p s) <= length s.
Proof.
  induction s as [|c s IH]; simpl; [lia|]. destruct (p c); simpl; lia.
Qed.

Lemma cut_tail_skip_jws (s s' : str) :
  cut_tail s s' -> cut_tail (skip_jws s) (skip_jws s').
Proof.
  intros (w & Hw & ->). unfold skip_jws.
  induction s' as [|c s' IH]; simpl.
  - exists (drop_while is_jws w). split; [|reflexivity].
    now apply drop_while_forallb.
  - destruct (is_jws c); [exact IH | now exists w].
Qed.

Lemma cut_tail_skip_jws_nil (r r' : str) :
  cut_tail r r' -> skip_jws r = [] -> skip_jws r' = [].
Proof.
  intros H E. apply cut_tail_skip_jws in H. rewrite E in H.
  destruct H as (w & _ & H). destruct (skip_jws r'); [reflexivity|discriminate].
Qed.

Lemma consc_Some (c : ascii) (m : option (str * str)) (x r : str) :
  consc c m = Some (x, r) ->
  exists x1, m = Some (x1, r) /\ x = c :: x1.
Proof.
  destruct m as [[x1 r1]|]; simpl; intros H; inversion H; subst.
  now exists x1.
Qed.

Lemma simple_escape_not_space (e x : ascii) :
  simple_escape e = Some x -> is_space e = false.
Proof.
  intros H. destruct (is_space e) eqn:E; [|reflexivity].
  space_cases E; discriminate H.
Qed.

Lemma hex_digit_not_space (h : ascii) (n : N) :
  hex_digit h = Some n -> is_space h = false.
Proof.
  intros H. destruct (is_space h) eqn:E; [|reflexivity].
  space_cases E; discriminate H.
Qed.

Lemma hex4_not_space (a b c d : ascii) (n : N) :
  hex4 a b c d = Some n ->
  is_space a = false /\ is_space b = false
  /\ is_space c = false /\ is_space d = false.
Proof.
  unfold hex4.
  destruct (hex_digit a) eqn:Ea; [|discriminate].
  destruct (hex_digit b) eqn:Eb; [|discriminate].
  destruct (hex_digit c) eqn:Ec; [|discriminate].
  destruct (hex_digit d) eqn:Ed; [|discriminate].
  intros _. repeat split; eauto using hex_digit_not_space.
Qed.

(** On a blank at its head the body of a string goes on or fails. *)
Lemma scan_string_blank (c : ascii) (s x r : str) :
  is_space c = true -> scan_string (c :: s) = Some (x, r) ->
  exists x1, scan_string s = Some (x1, r).
Proof.
  intros Hc H. space_cases Hc; simpl in H; try discriminate H;
    apply consc_Some in H as (x1 & H & _); now exists x1.
Qed.

Lemma scan_string_blanks (s x r : str) :
  forallb is_space s = true -> scan_string s = Some (x, r) -> False.
Proof.
  revert x. induction s as [|c s IH]; intros x Hs H; [discriminate H|].
  simpl in Hs. apply andb_true_iff in Hs as [Hc Hs].
  destruct (scan_string_blank c s x r Hc H) as [x1 H1]. eauto.
Qed.

Lemma scan_string_cut (n : nat) :
  forall s s' x r,
    length s <= n -> cut_tail s s' -> scan_string s = Some (x, r) ->
    exists r', scan_string s' = Some (x, r') /\ cut_tail r r'
               /\ length r' < length s'.
Proof.
  induction n as [|n IH]; intros s s' x r Hn Hc H.
  - destruct s; [discriminate H | simpl in Hn; lia].
  - destruct s as [|c s1]; [discriminate H|].
    destruct s' as [|c' s1'].
    { apply cut_tail_nil in Hc. elim (scan_string_blanks _ _ _ Hc H). }
    apply cut_tail_heads in Hc as [<- Hc]. simpl in Hn.
    cbn [scan_string] in H |- *.
    destruct (Ascii.eqb c quote).
    { inversion H; subst. exists s1'. repeat split; [assumption | simpl; lia]. }
    destruct (code c <? 32)%N; [discriminate H|].
    destruct (Ascii.eqb c "\"%char).
    + destruct s1 as [|e s2]; [discriminate H|].
      destruct (Ascii.eqb e "u"%char) eqn:Eu.
      * apply Ascii.eqb_eq in Eu. subst e.
        apply cut_tail_cons_inv in Hc as (t1 & -> & Hc); [|reflexivity].
        destruct s2 as [|h1 [|h2 [|h3 [|h4 s4]]]]; try discriminate H.
        destruct (hex4 h1 h2 h3 h4) as [m|] eqn:Eh; [|discriminate H].
        destruct (hex4_not_space _ _ _ _ _ Eh) as (N1 & N2 & N3 & N4).
        apply cut_tail_cons_inv in Hc as (t2 & -> & Hc); [|assumption].
        apply cut_tail_cons_inv in Hc as (t3 & -> & Hc); [|assumption].
        apply cut_tail_cons_inv in Hc as (t4 & -> & Hc); [|assumption].
        apply cut_tail_cons_inv in Hc as (t5 & -> & Hc); [|assumption].
        rewrite Eh. destruct (m <? 256)%N; [|discriminate H].
        apply consc_Some in H as (x1 & H & ->).
        destruct (IH s4 t5 x1 r) as (r' & E & Hr & Hl);
          [simpl in Hn; lia | assumption | assumption |].
        exists r'. rewrite E. simpl. repeat split; [assumption | lia].
      * destruct (simple_escape e) as [x0|] eqn:Ee; [|discriminate H].
        apply simple_escape_not_space in Ee as Ne.
        apply cut_tail_cons_inv in Hc as (t1 & -> & Hc); [|assumption].
        rewrite Eu, Ee.
        apply consc_Some in H as (x1 & H & ->).
        destruct (IH s2 t1 x1 r) as (r' & E & Hr & Hl);
          [simpl in Hn; lia | assumption | assumption |].
        exists r'. rewrite E. simpl. repeat split; [assumption | lia].
    + apply consc_Some in H as (x1 & H & ->).
      destruct (IH s1 s1' x1 r) as (r' & E & Hr & Hl);
        [lia | assumption | assumption |].
      exists r'. rewrite E. simpl. repeat split; [assumption | lia].
Qed.

Lemma blank_head (p : ascii -> bool) (w : str) :
  (forall c, is_space c = true -> p c = false) ->
  forallb is_space w = true ->
  match w with c :: _ => p c = false | [] => True end.
Proof.
  intros Hp Hw. destruct w as [|c w]; [exact I|].
  simpl in Hw. apply andb_true_iff in Hw as [Hc _]. auto.
Qed.

Lemma span_tail (p : ascii -> bool) :
  (forall c, is_space c = true -> p c = false) ->
  tail_blind_pair (span p).
Proof.
  intros Hp s w Hw. induction s as [|c s IH]; simpl.
  - pose proof (blank_head p w Hp Hw) as H.
    destruct w as [|c w]; simpl; [reflexivity | now rewrite H].
  - destruct (p c); [|reflexivity].
    rewrite IH. now destruct (span p s).
Qed.

Lemma span_length (p : ascii -> bool) : shortens_pair (span p).
Proof.
  intros s a r H. apply span_app in H. subst. rewrite length_app. lia.
Qed.

Lemma opt_char_tail (p : ascii -> bool) :
  (forall c, is_space c = true -> p c = false) ->
  tail_blind_pair (opt_char p).
Proof.
  intros Hp s w Hw. destruct s as [|c s]; simpl.
  - pose proof (blank_head p w Hp Hw) as H.
    destruct w as [|c w]; simpl; [reflexivity | now rewrite H].
  - now destruct (p c).
Qed.

Lemma opt_char_length (p : ascii -> bool) : shortens_pair (opt_char p).
Proof.
  intros [|c s] a r; simpl; [intros [= <- <-]; simpl; lia|].
  destruct (p c); intros [= <- <-]; simpl; lia.
Qed.

Lemma space_not (p : ascii -> bool) :
  forallb (fun c => negb (p c)) space_chars = true ->
  forall c, is_space c = true -> p c = false.
Proof.
  intros H c Hc. apply space_char_cases in Hc.
  rewrite forallb_forall in H. apply H in Hc.
  now apply negb_true_iff in Hc.
Qed.

Lemma space_not_digit : forall c, is_space c = true -> is_digit c = false.
Proof. apply space_not. reflexivity. Qed.

Lemma digits1_tail : tail_blind digits1.
Proof.
  intros s w Hw. unfold digits1.
  rewrite (span_tail is_digit space_not_digit s w Hw).
  destruct (span is_digit s) as [[|d ds] r]; reflexivity.
Qed.

Lemma digits1_length : shortens digits1.
Proof.
  intros s a r. unfold digits1.
  destruct (span is_digit s) as [[|d ds] r0] eqn:E; [discriminate|].
  intros [= <- <-]. apply span_app in E. subst. simpl. rewrite length_app. lia.
Qed.

Lemma int_part_tail : tail_blind int_part.
Proof.
  intros s w Hw. destruct s as [|d s]; simpl.
  - destruct w as [|c w]; [reflexivity|].
    simpl in Hw. apply andb_true_iff in Hw as [Hc _]. simpl.
    rewrite (space_not (fun c => Ascii.eqb c "0"%char) eq_refl c Hc).
    now rewrite (space_not (between 49 57) eq_refl c Hc).
  - destruct (Ascii.eqb d "0"%char); [reflexivity|].
    destruct (between 49 57 d); [|reflexivity].
    rewrite (span_tail is_digit space_not_digit s w Hw).
    now destruct (span is_digit s).
Qed.

Lemma int_part_length : shortens int_part.
Proof.
  intros [|d s] a r; simpl; [discriminate|].
  destruct (Ascii.eqb d "0"%char); [intros [= <- <-]; simpl; lia|].
  destruct (between 49 57 d); [|discriminate].
  destruct (span is_digit s) as [ds r'] eqn:E. intros [= <- <-].
  apply span_length in E. simpl. lia.
Qed.

Lemma frac_part_tail : tail_blind_pair frac_part.
Proof.
  intros s w Hw. destruct s as [|c s]; simpl.
  - destruct w as [|c w]; [reflexivity|].
    simpl in Hw. apply andb_true_iff in Hw as [Hc _]. simpl.
    now rewrite (space_not (fun c => Ascii.eqb c "."%char) eq_refl c Hc).
  - destruct (Ascii.eqb c "."%char); [|reflexivity].
    rewrite (digits1_tail s w Hw).
    now destruct (digits1 s) as [[fs r']|].
Qed.

Lemma frac_part_length : shortens_pair frac_part.
Proof.
  intros [|c s] a r; simpl; [intros [= <- <-]; simpl; lia|].
  destruct (Ascii.eqb c "."%char); [|intros [= <- <-]; simpl; lia].
  destruct (digits1 s) as [[fs r']|] eqn:E; intros [= <- <-]; simpl; [|lia].
  apply digits1_length in E. lia.
Qed.

Lemma exp_part_tail : tail_blind_pair exp_part.
Proof.
  intros s w Hw. destruct s as [|c s]; simpl.
  - destruct w as [|c w]; [reflexivity|].
    simpl in Hw. apply andb_true_iff in Hw as [Hc _]. simpl.
    now rewrite (space_not is_e eq_refl c Hc).
  - destruct (is_e c); [|reflexivity].
    rewrite (opt_char_tail is_sign (space_not is_sign eq_refl) s w Hw).
    destruct (opt_char is_sign s) as [sg r1].
    rewrite (digits1_tail r1 w Hw).
    now destruct (digits1 r1) as [[es r']|].
Qed.

Lemma exp_part_length : shortens_pair exp_part.
Proof.
  intros [|c s] a r; simpl; [intros [= <- <-]; simpl; lia|].
  destruct (is_e c); [|intros [= <- <-]; simpl; lia].
  destruct (opt_char is_sign s) as [sg r1] eqn:Es.
  apply opt_char_length in Es.
  destruct (digits1 r1) as [[es r']|] eqn:E; intros [= <- <-]; simpl; [|lia].
  apply digits1_length in E. lia.
Qed.

Lemma scan_number_tail : tail_blind scan_number.
Proof.
  intros s w Hw. unfold scan_number.
  rewrite (opt_char_tail (Ascii.eqb "-"%char)
             (space_not (Ascii.eqb "-"%char) eq_refl) s w Hw).
  destruct (opt_char (Ascii.eqb "-"%char) s) as [sign s1].
  rewrite (int_part_tail s1 w Hw).
  destruct (int_part s1) as [[ip s2]|]; [|reflexivity].
  rewrite (frac_part_tail s2 w Hw).
  destruct (frac_part s2) as [frac s3].
  rewrite (exp_part_tail s3 w Hw).
  now destruct (exp_part s3) as [expo s4].
Qed.

Lemma scan_number_length : shortens scan_number.
Proof.
  intros s v r. unfold scan_number.
  destruct (opt_char (Ascii.eqb "-"%char) s) as [sign s1] eqn:E1.
  destruct (int_part s1) as [[ip s2]|] eqn:E2; [|discriminate].
  destruct (frac_part s2) as [frac s3] eqn:E3.
  destruct (exp_part s3) as [expo s4] eqn:E4.
  intros [= _ <-].
  apply opt_char_length in E1. apply int_part_length in E2.
  apply frac_part_length in E3. apply exp_part_length in E4. lia.
Qed.

Lemma strip_prefix_tail (k : str) :
  k <> [] -> forallb (fun c => negb (is_space c)) k = true ->
  forall s w, forallb is_space w = true ->
    strip_prefix k (s ++ w) = option_map (fun r => r ++ w) (strip_prefix k s).
Proof.
  intros _ Hk. induction k as [|x k IH]; intros s w Hw; [reflexivity|].
  simpl in Hk. apply andb_true_iff in Hk as [Hx Hk].
  apply negb_true_iff in Hx.
  destruct s as [|y s]; simpl.
  - destruct w as [|c w]; [reflexivity|].
    simpl in Hw. apply andb_true_iff in Hw as [Hc _].
    destruct (Ascii.eqb x c) eqn:E; [|reflexivity].
    apply Ascii.eqb_eq in E. congruence.
  - destruct (Ascii.eqb x y); [|reflexivity]. now apply IH.
Qed.

Lemma strip_prefix_length (k s r : str) :
  strip_prefix k s = Some r -> length s = length k + length r.
Proof.
  revert s; induction k as [|x k IH]; intros s; simpl.
  - now intros [= ->].
  - destruct s as [|y s]; [discriminate|].
    destruct (Ascii.eqb x y); [|discriminate].
    intros H. apply IH in H. simpl. lia.
Qed.

Lemma keyword_tail (k : string) (v : json) :
  py k <> [] -> forallb (fun c => negb (is_space c)) (py k) = true ->
  tail_blind (keyword k v).
Proof.
  intros Hne Hk s w Hw. unfold keyword.
  rewrite (strip_prefix_tail (py k) Hne Hk s w Hw).
  now destruct (strip_prefix (py k) s).
Qed.

Lemma keyword_length (k : string) (v : json) :
  py k <> [] -> shortens (keyword k v).
Proof.
  intros Hne s a r. unfold keyword.
  destruct (strip_prefix (py k) s) as [r0|] eqn:E; [|discriminate].
  intros [= _ <-]. apply strip_prefix_length in E.
  destruct (py k); [congruence | simpl in E; lia].
Qed.

Lemma orelse_tail {A} (g h : str -> option (A * str)) :
  tail_blind g -> tail_blind h -> tail_blind (fun s => orelse (g s) (h s)).
Proof.
  intros Hg Hh s w Hw. rewrite (Hg s w Hw), (Hh s w Hw).
  destruct (g s) as [[a r]|]; reflexivity.
Qed.

Lemma orelse_length {A} (g h : str -> option (A * str)) :
  shortens g -> shortens h -> shortens (fun s => orelse (g s) (h s)).
Proof.
  intros Hg Hh s a r. destruct (g s) as [[a0 r0]|] eqn:E; simpl.
  - intros [= <- <-]. eauto.
  - apply Hh.
Qed.

Lemma scan_atom_tail : tail_blind scan_atom.
Proof.
  unfold scan_atom.
  repeat (apply orelse_tail);
    first [ apply scan_number_tail
          | apply keyword_tail; [discriminate | reflexivity] ].
Qed.

Lemma scan_atom_length : shortens scan_atom.
Proof.
  unfold scan_atom.
  repeat (apply orelse_length);
    first [ apply scan_number_length
          | apply keyword_length; discriminate ].
Qed.

Lemma scan_atom_cut (s s' : str) (v : json) (r : str) :
  cut_tail s s' -> scan_atom s = Some (v, r) ->
  exists r', scan_atom s' = Some (v, r') /\ cut_tail r r'
             /\ length r' < length s'.
Proof.
  intros (w & Hw & ->) H. rewrite (scan_atom_tail s' w Hw) in H.
  destruct (scan_atom s') as [[v' r']|] eqn:E; [|discriminate].
  inversion H; subst. exists r'. split; [reflexivity|].
  split; [now exists w | now apply scan_atom_length in E].
Qed.

Lemma skip_jws_length (s : str) : length (skip_jws s) <= length s.
Proof. apply drop_while_length. Qed.

(** No value starts with a blank. *)
Lemma scan_value_head (f : nat) (c : ascii) (s : str) (v : json) (r : str) :
  scan_value f (c :: s) = Some (v, r) -> is_space c = false.
Proof.
  intros H. destruct f as [|f]; [discriminate H|].
  destruct (is_space c) eqn:E; [|reflexivity].
  space_cases E; cbn in H; discriminate H.
Qed.

Ltac more_fuel f' f'' :=
  destruct f' as [|f'']; [exfalso; cbn [length] in *; lia|].

Lemma stable_value_step (f : nat) :
  stable_items f -> stable_members f -> stable_value (S f).
Proof.
  intros IHi IHm s s' v r Hc H.
  destruct s as [|c s1]; [discriminate H|].
  pose proof (scan_value_head _ _ _ _ _ H) as Nc.
  apply cut_tail_cons_inv in Hc as (s1' & -> & Hc); [|assumption].
  pose proof (cut_tail_skip_jws _ _ Hc) as Hk.
  pose proof (skip_jws_length s1') as Hl.
  cbn [scan_value] in H.
  destruct (Ascii.eqb c quote) eqn:Eq.
  { destruct (scan_string s1) as [[x r0]|] eqn:Es; [|discriminate H].
    inversion H; subst.
    destruct (scan_string_cut _ _ _ _ _ (le_n _) Hc Es) as (r' & E & Hr & Hlen).
    exists r'. split; [assumption|]. split; [cbn [length]; lia|].
    intros f' Hf. more_fuel f' f''. cbn [scan_value]. now rewrite Eq, E. }
  destruct (Ascii.eqb c "{"%char) eqn:Eb.
  { destruct (skip_jws s1) as [|c1 r1] eqn:Ek; [discriminate H|].
    destruct (Ascii.eqb c1 "}"%char) eqn:Ec.
    - inversion H; subst.
      apply Ascii.eqb_eq in Ec. subst c1.
      apply cut_tail_cons_inv in Hk as (r1' & Ek' & Hk); [|reflexivity].
      rewrite Ek' in Hl. cbn [length] in Hl.
      exists r1'. split; [assumption|]. split; [cbn [length]; lia|].
      intros f' Hf. more_fuel f' f''. cbn [scan_value].
      now rewrite Eq, Eb, Ek'.
    - destruct (IHm _ _ _ _ _ Hk H) as (r' & Hr & Hlen & Hfuel).
      destruct (skip_jws s1') as [|c1' r1'] eqn:Ek'; [cbn [length] in Hlen; lia|].
      apply cut_tail_heads in Hk as [<- Hk].
      exists r'. split; [assumption|]. split; [cbn [length] in *; lia|].
      intros f' Hf. more_fuel f' f''. cbn [scan_value].
      rewrite Eq, Eb, Ek', Ec. apply Hfuel. cbn [length] in *. lia. }
  destruct (Ascii.eqb c "["%char) eqn:Ea.
  { destruct (skip_jws s1) as [|c1 r1] eqn:Ek; [discriminate H|].
    destruct (Ascii.eqb c1 "]"%char) eqn:Ec.
    - inversion H; subst.
      apply Ascii.eqb_eq in Ec. subst c1.
      apply cut_tail_cons_inv in Hk as (r1' & Ek' & Hk); [|reflexivity].
      rewrite Ek' in Hl. cbn [length] in Hl.
      exists r1'. split; [assumption|]. split; [cbn [length]; lia|].
      intros f' Hf. more_fuel f' f''. cbn [scan_value].
      now rewrite Eq, Eb, Ea, Ek'.
    - destruct (IHi _ _ _ _ _ Hk H) as (r' & Hr & Hlen & Hfuel).
      destruct (skip_jws s1') as [|c1' r1'] eqn:Ek'; [cbn [length] in Hlen; lia|].
      apply cut_tail_heads in Hk as [<- Hk].
      exists r'. split; [assumption|]. split; [cbn [length] in *; lia|].
      intros f' Hf. more_fuel f' f''. cbn [scan_value].
      rewrite Eq, Eb, Ea, Ek', Ec. apply Hfuel. cbn [length] in *. lia. }
  destruct (scan_atom_cut _ _ _ _ (cut_tail_cons c _ _ Hc) H)
    as (r' & E & Hr & Hlen).
  exists r'. split; [assumption|]. split; [assumption|].
  intros f' Hf. more_fuel f' f''. cbn [scan_value]. now rewrite Eq, Eb, Ea.
Qed.

Lemma stable_items_step (f : nat) :
  stable_value f -> stable_items f -> stable_items (S f).
Proof.
  intros IHv IHi acc s s' v r Hc H.
  cbn [scan_items] in H.
  destruct (scan_value f s) as [[v1 r1]|] eqn:Ev; [|discriminate H].
  destruct (IHv _ _ _ _ Hc Ev) as (r1' & Hr1 & Hlen1 & Hfuel1).
  pose proof (cut_tail_skip_jws _ _ Hr1) as Hk.
  pose proof (skip_jws_length r1') as Hl.
  destruct (skip_jws r1) as [|c r2] eqn:Ek; [discriminate H|].
  destruct (Ascii.eqb c "]"%char) eqn:Ec.
  - inversion H; subst.
    apply Ascii.eqb_eq in Ec. subst c.
    apply cut_tail_cons_inv in Hk as (r2' & Ek' & Hk); [|reflexivity].
    rewrite Ek' in Hl. cbn [length] in Hl.
    exists r2'. split; [assumption|]. split; [lia|].
    intros f' Hf. more_fuel f' f''. cbn [scan_items].
    rewrite (Hfuel1 f'') by lia. now rewrite Ek'.
  - destruct (Ascii.eqb c ","%char) eqn:Em; [|discriminate H].
    apply Ascii.eqb_eq in Em. subst c.
    apply cut_tail_cons_inv in Hk as (r2' & Ek' & Hk); [|reflexivity].
    rewrite Ek' in Hl. cbn [length] in Hl.
    pose proof (cut_tail_skip_jws _ _ Hk) as Hk2.
    pose proof (skip_jws_length r2') as Hl2.
    destruct (IHi _ _ _ _ _ Hk2 H) as (r' & Hr & Hlen & Hfuel).
    exists r'. split; [assumption|]. split; [lia|].
    intros f' Hf. more_fuel f' f''. cbn [scan_items].
    rewrite (Hfuel1 f'') by lia. rewrite Ek'. simpl.
    apply Hfuel. lia.
Qed.

Lemma stable_members_step (f : nat) :
  stable_value f -> stable_members f -> stable_members (S f).
Proof.
  intros IHv IHm acc s s' v r Hc H.
  cbn [scan_members] in H.
  destruct s as [|c s1]; [discriminate H|].
  destruct (Ascii.eqb c quote) eqn:Eq; [|discriminate H].
  apply Ascii.eqb_eq in Eq. subst c.
  apply cut_tail_cons_inv in Hc as (s1' & -> & Hc); [|reflexivity].
  destruct (scan_string s1) as [[k r0]|] eqn:Es; [|discriminate H].
  destruct (scan_string_cut _ _ _ _ _ (le_n _) Hc Es) as (r0' & E0 & Hr0 & Hlen0).
  pose proof (cut_tail_skip_jws _ _ Hr0) as Hk0.
  pose proof (skip_jws_length r0') as Hl0.
  destruct (skip_jws r0) as [|c2 r2] eqn:Ek0; [discriminate H|].
  destruct (Ascii.eqb c2 ":"%char) eqn:Ec2; [|discriminate H].
  apply Ascii.eqb_eq in Ec2. subst c2.
  apply cut_tail_cons_inv in Hk0 as (r2' & Ek0' & Hk0); [|reflexivity].
  rewrite Ek0' in Hl0. cbn [length] in Hl0.
  pose proof (cut_tail_skip_jws _ _ Hk0) as Hk2.
  pose proof (skip_jws_length r2') as Hl2.
  destruct (scan_value f (skip_jws r2)) as [[v1 r3]|] eqn:Ev; [|discriminate H].
  destruct (IHv _ _ _ _ Hk2 Ev) as (r3' & Hr3 & Hlen3 & Hfuel3).
  pose proof (cut_tail_skip_jws _ _ Hr3) as Hk3.
  pose proof (skip_jws_length r3') as Hl3.
  destruct (skip_jws r3) as [|c3 r4] eqn:Ek3; [discriminate H|].
  destruct (Ascii.eqb c3 "}"%char) eqn:Ec3.
  - inversion H; subst.
    apply Ascii.eqb_eq in Ec3. subst c3.
    apply cut_tail_cons_inv in Hk3 as (r4' & Ek3' & Hk3); [|reflexivity].
    rewrite Ek3' in Hl3. cbn [length] in Hl3.
    exists r4'. split; [assumption|]. split; [cbn [length]; lia|].
    intros f' Hf. more_fuel f' f''. cbn [scan_members].
    rewrite Ascii.eqb_refl, E0, Ek0'. simpl.
    rewrite (Hfuel3 f'') by (cbn [length] in Hf; lia). now rewrite Ek3'.
  - destruct (Ascii.eqb c3 ","%char) eqn:Em; [|discriminate H].
    apply Ascii.eqb_eq in Em. subst c3.
    apply cut_tail_cons_inv in Hk3 as (r4' & Ek3' & Hk3); [|reflexivity].
    rewrite Ek3' in Hl3. cbn [length] in Hl3.
    pose proof (cut_tail_skip_jws _ _ Hk3) as Hk4.
    pose proof (skip_jws_length r4') as Hl4.
    destruct (IHm _ _ _ _ _ Hk4 H) as (r' & Hr & Hlen & Hfuel).
    exists r'. split; [assumption|]. split; [cbn [length]; lia|].
    intros f' Hf. more_fuel f' f''. cbn [scan_members].
    rewrite Ascii.eqb_refl, E0, Ek0'. simpl.
    rewrite (Hfuel3 f'') by (cbn [length] in Hf; lia). rewrite Ek3'. simpl.
    apply Hfuel. cbn [length] in Hf. lia.
Qed.

Lemma scan_stable (f : nat) :
  stable_value f /\ stable_items f /\ stable_members f.
Proof.
  induction f as [|f (IHv & IHi & IHm)].
  - repeat split; intros ? ? ? ? ? ; try intros ?; discriminate.
  - split; [now apply stable_value_step|].
    split; [now apply stable_items_step | now apply stable_members_step].
Qed.

Lemma drop_while_split (p : ascii -> bool) (s : str) :
  exists pre, s = pre ++ drop_while p s /\ forallb p pre = true.
Proof.
  induction s as [|c s (pre & E & Hp)]; simpl.
  - now exists [].
  - destruct (p c) eqn:Ec.
    + exists (c :: pre). simpl. rewrite Ec, Hp. split; [now f_equal | reflexivity].
    + now exists [].
Qed.

Lemma forallb_rev_keep (p : ascii -> bool) (s : str) :
  forallb p s = true -> forallb p (rev s) = true.
Proof.
  rewrite !forallb_forall. intros H x Hx. apply H. now apply in_rev.
Qed.

(** [rstrip] cuts a tail of blanks. *)
Lemma rstrip_cut (s : str) : cut_tail s (rstrip s).
Proof.
  unfold rstrip.
  destruct (drop_while_split is_space (rev s)) as (pre & E & Hp).
  exists (rev pre). split; [now apply forallb_rev_keep|].
  rewrite <- rev_app_distr, <- E. now rewrite rev_involutive.
Qed.

(** Where the decoder finds the start of a value, [lstrip] has taken the
    same blanks. *)
Lemma lstrip_skip_jws (s : str) (c : ascii) (t : str) :
  skip_jws s = c :: t -> is_space c = false -> lstrip s = c :: t.
Proof.
  unfold skip_jws, lstrip. induction s as [|a s IH]; simpl; [discriminate|].
  intros H Hc. destruct (is_jws a) eqn:Ea.
  - rewrite (is_jws_space a Ea). auto.
  - inversion H; subst. now rewrite Hc.
Qed.

(** The reference decoder ignores the white space that [strip] removes: a
    text that decodes still decodes, to the same document, once
    stripped. *)
Lemma json_loads_ref_strip (s : str) (obj : json) :
  json_loads_ref s = Some obj -> json_loads_ref (strip s) = Some obj.
Proof.
  unfold json_loads_ref. intros H.
  destruct (scan_value (2 * length s + 2) (skip_jws s)) as [[v r]|] eqn:Ev;
    [|discriminate H].
  destruct (skip_jws r) as [|x y] eqn:Er; [|discriminate H].
  inversion H; subst v.
  destruct (skip_jws s) as [|c t] eqn:Es;
    [destruct (2 * length s + 2); discriminate Ev|].
  pose proof (scan_value_head _ _ _ _ _ Ev) as Nc.
  unfold strip. rewrite (lstrip_skip_jws s c t Es Nc).
  pose proof (rstrip_cut (c :: t)) as Hc.
  destruct (proj1 (scan_stable _) _ _ _ _ Hc Ev) as (r' & Hr & Hlen & Hfuel).
  destruct (rstrip (c :: t)) as [|c' q] eqn:Eq; [simpl in Hlen; lia|].
  apply cut_tail_heads in Hc as [<- Hc].
  assert (Ej : is_jws c = false).
  { destruct (is_jws c) eqn:E; [|reflexivity].
    apply is_jws_space in E. congruence. }
  replace (skip_jws (c :: q)) with (c :: q)
    by (unfold skip_jws; simpl; now rewrite Ej).
  rewrite Hfuel by lia.
  now rewrite (cut_tail_skip_jws_nil r r' Hr Er).
Qed.

(** ** The JSON extractor *)

Lemma brace_pattern_rejected :
  unknown_extension brace_pattern = Some ("R"%char, 12).
Proof. vm_compute. reflexivity. Qed.

Lemma search_brace_pattern_raises (text : str) :
  search_brace_pattern text = Raised (re_error "R"%char 12).
Proof.
  unfold search_brace_pattern. now rewrite brace_pattern_rejected.
Qed.

Section ExtractorFacts.

Variable json_loads : str -> option json.

Lemma sanitize_json_text_decoded (text : str) (obj : json) :
  json_loads (strip text) = Some obj ->
  sanitize_json_text json_loads text = Returned (strip text).
Proof.
  unfold sanitize_json_text. now intros ->.
Qed.

(** Whatever does not decode reaches [re.search], whose pattern does not
    compile. *)
Lemma sanitize_json_text_undecoded (text : str) :
  json_loads (strip text) = None ->
  sanitize_json_text json_loads text = Raised (re_error "R"%char 12).
Proof.
  unfold sanitize_json_text. intros ->.
  now rewrite search_brace_pattern_raises.
Qed.

(** What the statements that speak of the text as received assume of
    [json.loads]: it ignores the white space that [strip] removes. *)
Hypothesis json_loads_ignores_blanks :
  forall s obj, json_loads s = Some obj -> json_loads (strip s) = Some obj.

(** C1, as the code has it.  When the input decodes as JSON,
    [sanitize_json_text] returns it stripped of the white space around it,
    and does not raise; that is the input itself when it has no white
    space around it. *)
Theorem sanitize_json_text_json :
  forall text obj,
    json_loads text = Some obj ->
    sanitize_json_text json_loads text = Returned (strip text)
    /\ (strip text = text ->
        sanitize_json_text json_loads text = Returned text).
Proof.
  intros text obj H. apply json_loads_ignores_blanks in H.
  rewrite (sanitize_json_text_decoded text obj H).
  split; [reflexivity | now intros ->].
Qed.

End ExtractorFacts.

Lemma sanitize_json_text_json_witness :
  json_loads_ref (pyq " {`a`: 1} ") = Some (JDict [(py "a", JInt 1)])
  /\ sanitize_json_text json_loads_ref (pyq " {`a`: 1} ")
     = Returned (pyq "{`a`: 1}").
Proof.
  split; [vm_compute; reflexivity|].
  apply (proj1 (sanitize_json_text_json json_loads_ref json_loads_ref_strip
                  (pyq " {`a`: 1} ") (JDict [(py "a", JInt 1)]) eq_refl)).
Defined.

(** The claim C1 as worded fails: a document with white space around it
    decodes as it stands, and what is returned is not the input. *)
Lemma sanitize_json_text_strips :
  ~ (json_loads_ref (py " {} ") <> None ->
     sanitize_json_text json_loads_ref (py " {} ") = Returned (py " {} ")).
Proof.
  intros H.
  assert (E : sanitize_json_text json_loads_ref (py " {} ")
              = Returned (py "{}")) by (vm_compute; reflexivity).
  rewrite E in H.
  assert (D : json_loads_ref (py " {} ") <> None) by (vm_compute; discriminate).
  specialize (H D). discriminate H.
Qed.

(** And on a text that does not decode, the extractor raises. *)
Lemma sanitize_json_text_raises :
  sanitize_json_text json_loads_ref (py "no object here")
  = Raised (re_error "R"%char 12).
Proof. vm_compute. reflexivity. Qed.

(** ** The repair loop *)

Section LoopFacts.

Variable json_loads : str -> option json.
Variable Backend : Type.
Variable llm_invoke : Backend -> str -> str -> outcome str * Backend.

Local Abbreviation sanitize := (sanitize_json_text json_loads).
Local Abbreviation attempt := (attempt json_loads).
Local Abbreviation invoke := (_invoke Backend llm_invoke).
Local Abbreviation loop := (repair_loop json_loads Backend llm_invoke).
Local Abbreviation run := (call_agent json_loads Backend llm_invoke).
Local Abbreviation run_result := (Agent.run_result json_loads).

Lemma _invoke_eq (w : world Backend) (s h : str) (r : outcome str)
    (b : Backend) :
  llm_invoke (backend w) s h = (r, b) ->
  invoke w s h = (r, mkWorld b (calls w ++ [(s, h, r)])).
Proof.
  unfold _invoke. now intros ->.
Qed.

Lemma _invoke_inv (w w1 : world Backend) (s h : str) (r : outcome str) :
  invoke w s h = (r, w1) -> calls w1 = calls w ++ [(s, h, r)].
Proof.
  unfold _invoke. destruct (llm_invoke (backend w) s h) as [r0 b].
  intros [= <- <-]. reflexivity.
Qed.

(** What a loop adds to the log: any exception of the backend recorded
    there is the outcome of the loop. *)
Lemma repair_loop_log (n : nat) :
  forall k max sys candidate w r w',
    loop n k max sys candidate w = (r, w') ->
    exists new,
      calls w' = calls w ++ new
      /\ (forall s h e, In (s, h, Raised e) new -> r = Raised e).
Proof.
  induction n as [|n IH]; intros k max sys candidate w r w' H.
  - simpl in H. inversion H; subst. exists []. rewrite app_nil_r.
    split; [reflexivity | intros s h e []].
  - cbn [repair_loop] in H.
    destruct (attempt candidate) as [a|].
    { inversion H; subst. exists []. rewrite app_nil_r.
      split; [reflexivity | intros s h e []]. }
    destruct (k =? max)%Z.
    { inversion H; subst. exists []. rewrite app_nil_r.
      split; [reflexivity | intros s h e []]. }
    destruct (invoke w sys (repair_prompt candidate)) as [r1 w1] eqn:Ei.
    apply _invoke_inv in Ei.
    destruct r1 as [raw|e].
    + destruct (sanitize raw) as [candidate'|e].
      * apply IH in H. destruct H as (new & Hc & Hr).
        exists ((sys, repair_prompt candidate, Returned raw) :: new).
        rewrite Hc, Ei, <- app_assoc. split; [reflexivity|].
        intros s h e [[=] | Hin]. eauto.
      * inversion H; subst.
        exists [(sys, repair_prompt candidate, Returned raw)].
        split; [assumption | intros s h e' [[=] | []]].
    + inversion H; subst.
      exists [(sys, repair_prompt candidate, Raised e)].
      split; [assumption|].
      intros s h e' [[= _ _ <-] | []]. reflexivity.
Qed.

(** The invocations of a loop that has [n] values of [k] left, the last of
    them [max]: at most [max - k], and the loop does not fall off its end
    unless the range is empty. *)
Lemma repair_loop_bound (n : nat) :
  forall k max sys candidate w r w',
    (Z.of_nat n + k = max + 1)%Z ->
    loop n k max sys candidate w = (r, w') ->
    length (calls w') <= length (calls w) + Z.to_nat (max - k)
    /\ length (calls w) <= length (calls w')
    /\ (r = Returned None -> n = 0).
Proof.
  induction n as [|n IH]; intros k max sys candidate w r w' Hk H.
  - simpl in H. inversion H; subst. repeat split; lia.
  - cbn [repair_loop] in H.
    destruct (attempt candidate) as [a|].
    { inversion H; subst. repeat split; try lia; discriminate. }
    destruct (k =? max)%Z eqn:Ek.
    { inversion H; subst. repeat split; try lia; discriminate. }
    apply Z.eqb_neq in Ek.
    destruct (invoke w sys (repair_prompt candidate)) as [r1 w1] eqn:Ei.
    apply _invoke_inv in Ei. apply (f_equal (@length _)) in Ei.
    rewrite length_app in Ei. simpl in Ei.
    destruct r1 as [raw|e].
    + destruct (sanitize raw) as [candidate'|e].
      * apply IH in H; [|lia]. destruct H as (Hu & Hl & Hn).
        repeat split; try lia. intros E. apply Hn in E. lia.
      * inversion H; subst. repeat split; try lia; discriminate.
    + inversion H; subst. repeat split; try lia; discriminate.
Qed.

Lemma repair_loop_result (n : nat) :
  forall k max sys candidate w,
    run_result (fst (loop n k max sys candidate w)).
Proof.
  induction n as [|n IH]; intros k max sys candidate w.
  - simpl. constructor.
  - cbn [repair_loop]. unfold Agent.attempt.
    destruct (json_loads candidate) as [obj|] eqn:Ej.
    + destruct (AgentJSON_validate obj) as [a|err] eqn:Ev.
      { simpl. now apply (run_validated json_loads candidate obj a). }
      destruct (k =? max)%Z; [simpl; constructor|].
      destruct (invoke w sys (repair_prompt candidate)) as [[raw|e] w1];
        [|simpl; constructor].
      destruct (sanitize raw); [apply IH | simpl; constructor].
    + destruct (k =? max)%Z; [simpl; constructor|].
      destruct (invoke w sys (repair_prompt candidate)) as [[raw|e] w1];
        [|simpl; constructor].
      destruct (sanitize raw); [apply IH | simpl; constructor].
Qed.

(** A loop whose every candidate decodes and is refused spends all its
    repairs and ends on the fallback. *)
Lemma repair_loop_exhausts (n : nat) :
  (forall b s h, exists raw b' obj,
      llm_invoke b s h = (Returned raw, b')
      /\ json_loads (strip raw) = Some obj
      /\ attempt (strip raw) = None) ->
  forall k max sys candidate w,
    (Z.of_nat (S n) + k = max + 1)%Z ->
    attempt candidate = None ->
    exists w',
      loop (S n) k max sys candidate w = (Returned (Some fallback), w')
      /\ length (calls w') = length (calls w) + n.
Proof.
  intros Hb. induction n as [|n IH]; intros k max sys candidate w Hk Ha.
  - cbn [repair_loop]. rewrite Ha.
    replace (k =? max)%Z with true by (symmetry; apply Z.eqb_eq; lia).
    exists w. split; [reflexivity | lia].
  - cbn [repair_loop]. rewrite Ha.
    replace (k =? max)%Z with false by (symmetry; apply Z.eqb_neq; lia).
    destruct (Hb (backend w) sys (repair_prompt candidate))
      as (raw & b' & obj & Hi & Hj & Hr).
    rewrite (_invoke_eq _ _ _ _ _ Hi).
    rewrite (sanitize_json_text_decoded json_loads raw obj Hj).
    destruct (IH (k + 1)%Z max sys (strip raw)
                (mkWorld b'
                   (calls w ++ [(sys, repair_prompt candidate, Returned raw)])))
      as (w' & Hw & Hl); [lia | assumption |].
    exists w'. split; [exact Hw|].
    rewrite Hl. simpl. rewrite length_app. simpl. lia.
Qed.

(** On text that decodes but is refused by the schema, the loop does what
    its documentation says: [max_repairs + 1] invocations, then the
    fallback. *)
Lemma call_agent_exhausts (w : world Backend) (sys hum : str) (max : Z) :
  (0 <= max)%Z ->
  (forall b s h, exists raw b' obj,
      llm_invoke b s h = (Returned raw, b')
      /\ json_loads (strip raw) = Some obj
      /\ attempt (strip raw) = None) ->
  exists w',
    run w sys hum max = (Returned (Some fallback), w')
    /\ invocations w w' = Z.to_nat (max + 1).
Proof.
  intros Hmax Hb. unfold call_agent.
  destruct (Hb (backend w) sys hum) as (raw & b' & obj & Hi & Hj & Hr).
  rewrite (_invoke_eq _ _ _ _ _ Hi).
  rewrite (sanitize_json_text_decoded json_loads raw obj Hj).
  destruct (Z.to_nat (max + 1)) as [|n] eqn:En; [lia|].
  destruct (repair_loop_exhausts n Hb 0%Z max sys (strip raw)
              (mkWorld b' (calls w ++ [(sys, hum, Returned raw)])))
    as (w' & Hw & Hl); [lia | assumption |].
  exists w'. split; [exact Hw|].
  unfold invocations. rewrite Hl. simpl. rewrite length_app. simpl. lia.
Qed.

(** A run makes between 1 and [max_repairs + 1] invocations, and its
    outcome is an accepted document, the fallback, or an exception. *)
Lemma call_agent_invocations (w w' : world Backend) (sys hum : str)
    (max : Z) (r : outcome (option AgentJSON)) :
  (0 <= max)%Z ->
  run w sys hum max = (r, w') ->
  1 <= invocations w w' <= Z.to_nat (max + 1)
  /\ run_result r /\ r <> Returned None.
Proof.
  intros Hmax H.
  pose proof (repair_loop_result (Z.to_nat (max + 1)) 0%Z max sys) as Hres.
  unfold call_agent in H.
  destruct (invoke w sys hum) as [r1 w1] eqn:Ei.
  apply _invoke_inv in Ei. apply (f_equal (@length _)) in Ei.
  rewrite length_app in Ei. simpl in Ei.
  unfold invocations.
  destruct r1 as [raw|e].
  - destruct (sanitize raw) as [candidate|e].
    + specialize (Hres candidate w1). rewrite H in Hres. simpl in Hres.
      apply repair_loop_bound in H; [|lia].
      destruct H as (Hu & Hl & Hn).
      repeat split; try lia; try assumption.
      intros E. apply Hn in E. lia.
    + inversion H; subst.
      repeat split; try lia; [constructor | discriminate].
  - inversion H; subst.
    repeat split; try lia; [constructor | discriminate].
Qed.

(** A first answer that does not decode ends the run in [re.error],
    whatever the repair budget. *)
Lemma call_agent_undecoded (w : world Backend) (sys hum : str) (max : Z)
    (raw : str) (b' : Backend) :
  llm_invoke (backend w) sys hum = (Returned raw, b') ->
  json_loads (strip raw) = None ->
  run w sys hum max
  = (Raised (re_error "R"%char 12),
     mkWorld b' (calls w ++ [(sys, hum, Returned raw)])).
Proof.
  intros Hi Hj. unfold call_agent. rewrite (_invoke_eq _ _ _ _ _ Hi).
  now rewrite (sanitize_json_text_undecoded json_loads raw Hj).
Qed.

Hypothesis json_loads_ignores_blanks :
  forall s obj, json_loads s = Some obj -> json_loads (strip s) = Some obj.

(** C6.  When the first answer of the backend decodes to a document that
    [AgentJSON] accepts, [call_agent] returns that validated document
    after exactly one backend invocation.  The repair budget is not
    negative, and [json.loads] ignores the white space that the extractor
    strips. *)
Theorem call_agent_short_circuit :
  forall (w : world Backend) sys hum max raw b' obj a,
    (0 <= max)%Z ->
    llm_invoke (backend w) sys hum = (Returned raw, b') ->
    json_loads raw = Some obj ->
    AgentJSON_validate obj = Ok a ->
    run w sys hum max
    = (Returned (Some a),
       mkWorld b' (calls w ++ [(sys, hum, Returned raw)]))
    /\ invocations w (snd (run w sys hum max)) = 1.
Proof.
  intros w sys hum max raw b' obj a Hmax Hi Hj Hv.
  apply json_loads_ignores_blanks in Hj.
  assert (E : run w sys hum max
              = (Returned (Some a),
                 mkWorld b' (calls w ++ [(sys, hum, Returned raw)]))).
  { unfold call_agent. rewrite (_invoke_eq _ _ _ _ _ Hi).
    rewrite (sanitize_json_text_decoded json_loads raw obj Hj).
    destruct (Z.to_nat (max + 1)) as [|n] eqn:En; [lia|].
    cbn [repair_loop]. unfold Agent.attempt. now rewrite Hj, Hv. }
  rewrite E. split; [reflexivity|].
  unfold invocations. simpl. rewrite length_app. simpl. lia.
Qed.

(** C7.  An exception of the backend is the outcome of the run.  Raised at
    the first invocation, it ends the run there, with no repair and no
    fallback; and whatever invocation of a run raises, the run raises the
    same exception. *)
Theorem backend_error_propagates :
  (forall (w : world Backend) sys hum max e b',
      llm_invoke (backend w) sys hum = (Raised e, b') ->
      run w sys hum max
      = (Raised e, mkWorld b' (calls w ++ [(sys, hum, Raised e)])))
  /\
  (forall (w w' : world Backend) sys hum max r,
      run w sys hum max = (r, w') ->
      exists new,
        calls w' = calls w ++ new
        /\ forall s h e, In (s, h, Raised e) new -> r = Raised e).
Proof.
  split.
  - intros w sys hum max e b' Hi. unfold call_agent.
    now rewrite (_invoke_eq _ _ _ _ _ Hi).
  - intros w w' sys hum max r H. unfold call_agent in H.
    destruct (invoke w sys hum) as [r1 w1] eqn:Ei.
    apply _invoke_inv in Ei.
    destruct r1 as [raw|e].
    + destruct (sanitize raw) as [candidate|e].
      * apply repair_loop_log in H.
        destruct H as (new & Hc & Hr).
        exists ((sys, hum, Returned raw) :: new).
        rewrite Hc, Ei, <- app_assoc. split; [reflexivity|].
        intros s h e [[=] | Hin]. eauto.
      * inversion H; subst. exists [(sys, hum, Returned raw)].
        split; [assumption|]. intros s h e' [[=] | []].
    + inversion H; subst. exists [(sys, hum, Raised e)].
      split; [assumption|]. intros s h e' [[= _ _ <-] | []]. reflexivity.
Qed.

End LoopFacts.

(** ** Worked runs *)

Lemma call_agent_short_circuit_witness :
  let good :=
    pyq " {`thought`:`t`,`message`:`m`,`data`:{`tags`:[`sleep`],`summary`:`s`,`issues`:[]}} "
  in
  let w := mkWorld 0 [] in
  call_agent json_loads_ref nat (answering good) w (py "system") (py "human") 2
  = (Returned
       (Some (mkAgentJSON (py "t") (py "m")
                (mkDataBlock [py "sleep"] (py "s") []))),
     mkWorld 1 [(py "system", py "human", Returned good)])
  /\ invocations w
       (snd (call_agent json_loads_ref nat (answering good) w
               (py "system") (py "human") 2)) = 1.
Proof.
  intros good w.
  apply (call_agent_short_circuit json_loads_ref nat (answering good)
           json_loads_ref_strip w
           (py "system") (py "human") 2 good 1
           (document (py "t") (py "m") [py "sleep"] (py "s") [])
           (mkAgentJSON (py "t") (py "m")
              (mkDataBlock [py "sleep"] (py "s") []))).
  - lia.
  - reflexivity.
  - vm_compute; reflexivity.
  - vm_compute; reflexivity.
Defined.

Lemma backend_error_propagates_witness :
  let timeout := backend_error (py "timeout") in
  call_agent json_loads_ref nat (failing timeout) (mkWorld 0 [])
    (py "system") (py "human") 2
  = (Raised timeout, mkWorld 1 [(py "system", py "human", Raised timeout)]).
Proof.
  intros timeout.
  apply (proj1 (backend_error_propagates json_loads_ref nat (failing timeout))
           (mkWorld 0 []) (py "system") (py "human") 2%Z timeout 1).
  reflexivity.
Defined.

(** The same when the backend fails at a repair: the first answer decodes
    and is refused, the second invocation raises, and so does the run. *)
Lemma call_agent_raises_at_repair :
  let timeout := backend_error (py "timeout") in
  let '(r, w') :=
    call_agent json_loads_ref nat
      (scripted [Returned (py "{}"); Raised timeout]) (mkWorld 0 [])
      (py "system") (py "human") 2 in
  r = Raised timeout /\ length (calls w') = 2.
Proof. vm_compute. split; reflexivity. Qed.

(** C2.  What the code does on a malformed answer: the backend answers a
    valid document wrapped in prose, the extractor reaches [re.search],
    whose pattern [re] rejects, and [call_agent] raises [re.error] to its
    caller instead of repairing or falling back. *)
Theorem call_agent_raises_on_wrapped_json :
  let wrapped :=
    pyq "Here is the JSON: {`thought`:`t`,`message`:`m`,`data`:{`tags`:[`sleep`],`summary`:`s`}}"
  in
  call_agent json_loads_ref nat (answering wrapped) (mkWorld 0 [])
    (py "system") (py "human") 2
  = (Raised (re_error "R"%char 12),
     mkWorld 1 [(py "system", py "human", Returned wrapped)]).
Proof.
  intros wrapped.
  apply (call_agent_undecoded json_loads_ref nat (answering wrapped)
           (mkWorld 0 []) (py "system") (py "human") 2 wrapped 1).
  - reflexivity.
  - vm_compute; reflexivity.
Qed.

(** C3.  What the code does when every answer fails to parse: with a
    budget of 2 repairs the run ends after 1 invocation, not 3, and in
    [re.error], not in the fallback. *)
Theorem call_agent_stops_on_unparsable :
  let w := mkWorld 0 [] in
  let run :=
    call_agent json_loads_ref nat (answering (py "not json at all")) w
      (py "system") (py "human") 2 in
  json_loads_ref (py "not json at all") = None
  /\ fst run = Raised (re_error "R"%char 12)
  /\ invocations w (snd run) = 1.
Proof. vm_compute. repeat split; reflexivity. Qed.

(** Where every answer decodes and is refused by the schema, the same
    budget is spent as documented: 3 invocations, then the fallback. *)
Lemma call_agent_fallback_after_repairs :
  let w := mkWorld 0 [] in
  let run :=
    call_agent json_loads_ref nat (answering (py "{}")) w
      (py "system") (py "human") 2 in
  fst run = Returned (Some fallback) /\ invocations w (snd run) = 3.
Proof. vm_compute. split; reflexivity. Qed.

(** ** Further properties of the code *)

(** ** More on text: [strip] *)

Lemma drop_while_head (p : ascii -> bool) (s : str) :
  match drop_while p s with c :: _ => p c = false | [] => True end.
Proof.
  induction s as [|c s IH]; simpl; [exact I|].
  destruct (p c) eqn:E; [exact IH | exact E].
Qed.

Lemma drop_while_fix (p : ascii -> bool) (s : str) :
  match s with c :: _ => p c = false | [] => True end ->
  drop_while p s = s.
Proof.
  destruct s as [|c s]; simpl; [reflexivity|]. now intros ->.
Qed.

Lemma drop_while_incl (p : ascii -> bool) (s : str) (x : ascii) :
  In x (drop_while p s) -> In x s.
Proof.
  induction s as [|c s IH]; simpl; [tauto|].
  destruct (p c); simpl; tauto.
Qed.

Lemma strip_incl (s : str) (x : ascii) : In x (strip s) -> In x s.
Proof.
  unfold strip, rstrip, lstrip. intros H.
  apply in_rev, drop_while_incl, in_rev in H.
  now apply drop_while_incl in H.
Qed.

(** The ends of a stripped text are not blanks. *)
Lemma strip_head (s : str) :
  match strip s with c :: _ => is_space c = false | [] => True end.
Proof.
  unfold strip. pose proof (drop_while_head is_space s) as H.
  fold (lstrip s) in H. destruct (lstrip s) as [|c t]; [exact I|].
  destruct (cut_tail_cons_inv c t _ (rstrip_cut (c :: t)) H) as (t' & -> & _).
  exact H.
Qed.

Lemma strip_last (s : str) :
  match rev (strip s) with c :: _ => is_space c = false | [] => True end.
Proof.
  unfold strip, rstrip. rewrite rev_involutive. apply drop_while_head.
Qed.

(** A text whose ends are not blanks is left as it is. *)
Lemma strip_fix (s : str) :
  match s with c :: _ => is_space c = false | [] => True end ->
  match rev s with c :: _ => is_space c = false | [] => True end ->
  strip s = s.
Proof.
  intros Hh Hl. unfold strip, lstrip. rewrite (drop_while_fix _ _ Hh).
  unfold rstrip. rewrite (drop_while_fix _ _ Hl). apply rev_involutive.
Qed.

Lemma strip_idempotent (s : str) : strip (strip s) = strip s.
Proof.
  apply strip_fix; [apply strip_head | apply strip_last].
Qed.

Lemma lower_char_idempotent (c : ascii) :
  lower_char (lower_char c) = lower_char c.
Proof.
  destruct c as [[|] [|] [|] [|] [|] [|] [|] [|]]; reflexivity.
Qed.

Lemma lower_idempotent (s : str) : lower (lower s) = lower s.
Proof.
  unfold lower. rewrite map_map. apply map_ext. apply lower_char_idempotent.
Qed.

(** A text is in lower case when [lower] leaves its characters alone. *)
Lemma lower_fix (s : str) :
  (forall c, In c s -> lower_char c = c) -> lower s = s.
Proof.
  induction s as [|c s IH]; simpl; intros H; [reflexivity|].
  rewrite (H c (or_introl eq_refl)). f_equal. apply IH. auto.
Qed.

Lemma lower_In (s : str) (c : ascii) : In c (lower s) -> lower_char c = c.
Proof.
  unfold lower. rewrite in_map_iff. intros (x & <- & _).
  apply lower_char_idempotent.
Qed.

Lemma word_not_space (c : ascii) : is_word c = true -> is_space c = false.
Proof.
  intros H. destruct (is_space c) eqn:E; [|reflexivity].
  space_cases E; discriminate H.
Qed.

Lemma strip_prefix_app (w s r : str) :
  strip_prefix w s = Some r -> s = w ++ r.
Proof.
  revert s; induction w as [|x w IH]; intros s; simpl.
  - now intros [= ->].
  - destruct s as [|y s]; [discriminate|].
    destruct (Ascii.eqb x y) eqn:E; [|discriminate].
    apply Ascii.eqb_eq in E. subst. intros H. f_equal. now apply IH.
Qed.

Lemma first_alternative_incl (alts : list str) (s r : str) (x : ascii) :
  first_alternative alts s = Some r -> In x r -> In x s.
Proof.
  induction alts as [|w alts IH]; simpl; [discriminate|].
  destruct (strip_prefix w s) as [rest|] eqn:E; [|exact IH].
  destruct (boundary (next_is_word (rev w)) rest); [|exact IH].
  intros [= <-] Hx. apply strip_prefix_app in E. subst.
  apply in_or_app. now right.
Qed.

(** Removing stop words only removes characters. *)
Lemma sub_stopwords_at_incl (fuel : nat) :
  forall prev s x, In x (sub_stopwords_at fuel prev s) -> In x s.
Proof.
  induction fuel as [|f IH]; intros prev s x; cbn [sub_stopwords_at];
    [intros []|].
  destruct s as [|c s']; [intros []|].
  destruct (if boundary prev (c :: s')
            then first_alternative stopword_alternatives (c :: s')
            else None) as [rest|] eqn:E.
  - intros H. apply IH in H.
    destruct (boundary prev (c :: s')); [|discriminate E].
    eapply first_alternative_incl; eauto.
  - intros [<- | H]; [now left | right; eauto].
Qed.

Lemma tidy_after_sub (t : str) :
  let t' := strip (sub_stopwords (lower (strip t))) in
  is_empty t' = false -> tidy_tag t'.
Proof.
  intros t' Hne. repeat split.
  - intros E. now rewrite E in Hne.
  - apply strip_idempotent.
  - apply lower_fix. intros c Hc. unfold t' in Hc.
    apply strip_incl in Hc. unfold sub_stopwords in Hc.
    apply sub_stopwords_at_incl in Hc. now apply lower_In in Hc.
Qed.

Lemma three_tags_loop_inv (v : list str) :
  forall clean seen,
    Forall tidy_tag clean -> NoDup clean ->
    (forall x, In x clean -> In x seen) ->
    let out := three_tags_loop v clean seen in
    Forall tidy_tag out /\ NoDup out
    /\ length out <= length clean + length v.
Proof.
  induction v as [|t v IH]; intros clean seen Ht Hn Hs; cbn [three_tags_loop].
  - repeat split; [assumption | assumption | simpl; lia].
  - destruct (is_empty (lower (strip t)) || mem (lower (strip t)) meta_ban).
    { destruct (IH clean seen Ht Hn Hs) as (A & B & C).
      repeat split; [assumption | assumption | simpl; lia]. }
    set (t' := strip (sub_stopwords (lower (strip t)))).
    destruct (negb (is_empty t') && negb (mem t' seen)) eqn:E.
    + apply andb_true_iff in E as [E1 E2].
      apply negb_true_iff in E1, E2. apply mem_false_In in E2.
      assert (Ht' : Forall tidy_tag (clean ++ [t'])).
      { apply Forall_app. split; [assumption|].
        constructor; [now apply tidy_after_sub | constructor]. }
      assert (Hn' : NoDup (clean ++ [t'])).
      { apply NoDup_app; [assumption | repeat constructor; intros [] |].
        intros x Hx [<- | []]. apply E2. now apply Hs. }
      assert (Hs' : forall x, In x (clean ++ [t']) -> In x (t' :: seen)).
      { intros x Hx. apply in_app_or in Hx as [Hx | [<- | []]];
          [right; now apply Hs | now left]. }
      destruct (length (clean ++ [t']) =? 3) eqn:E3.
      * repeat split; [assumption | assumption |].
        rewrite length_app. simpl. lia.
      * destruct (IH _ _ Ht' Hn' Hs') as (A & B & C).
        repeat split; [assumption | assumption |].
        rewrite length_app in C. simpl in *. lia.
    + destruct (length clean =? 3).
      * repeat split; [assumption | assumption | simpl; lia].
      * destruct (IH clean seen Ht Hn Hs) as (A & B & C).
        repeat split; [assumption | assumption | simpl; lia].
Qed.

Lemma NoDup_firstn_keep {A} (n : nat) (l : list A) :
  NoDup l -> NoDup (firstn n l).
Proof.
  intros H. revert n. induction H as [|x l Hx Hl IH]; intros [|n]; simpl;
    try constructor; auto.
  intros Hin. apply Hx. now apply In_firstn_keep in Hin.
Qed.

(** The tags that [_three_tags] returns are not empty, carry no blank at
    either end, are in lower case and differ from one another; there are
    at most 3 of them and no more than the list had. *)
Theorem _three_tags_tidy (v : list str) :
  Forall tidy_tag (_three_tags v) /\ NoDup (_three_tags v)
  /\ length (_three_tags v) <= Nat.min 3 (length v).
Proof.
  unfold _three_tags.
  destruct (three_tags_loop_inv v [] [] (Forall_nil _) (NoDup_nil _)
              (fun x H => H)) as (A & B & C).
  split; [now apply Forall_firstn_keep|].
  split; [now apply NoDup_firstn_keep|].
  pose proof (firstn_le_length 3 (three_tags_loop v [] [])) as H1.
  pose proof (length_firstn 3 (three_tags_loop v [] [])) as H2.
  simpl in C. lia.
Qed.

(** ** The summary validator *)

(** The characters of a join of word-shaped texts. *)
Lemma join_words_chars (ws : list str) (x : ascii) :
  Forall wordlike ws -> In x (join (py " ") ws) ->
  word_cls x = true \/ x = " "%char.
Proof.
  induction 1 as [|w ws Hw Hws IH]; simpl; [tauto|].
  destruct Hw as (_ & _ & Hc). rewrite forallb_forall in Hc.
  destruct ws as [|w2 ws'].
  - intros Hx. left. auto.
  - intros Hx. apply in_app_or in Hx as [Hx | [<- | Hx]]; auto.
Qed.

Lemma join_words_head (ws : list str) :
  Forall wordlike ws -> next_is_word (join (py " ") ws) = negb (is_empty (join (py " ") ws)).
Proof.
  intros H. destruct H as [|w ws Hw Hws]; [reflexivity|].
  destruct Hw as (Hh & _ & _).
  destruct w as [|c w]; [discriminate Hh|].
  simpl in Hh. destruct ws; simpl; exact Hh.
Qed.

Lemma rev_last_app (a : str) (c : ascii) (b : str) :
  b <> [] -> next_is_word (rev (a ++ c :: b)) = next_is_word (rev b).
Proof.
  intros Hb. rewrite rev_app_distr. simpl.
  destruct (rev b) as [|y rb] eqn:E.
  - apply (f_equal (@rev ascii)) in E. rewrite rev_involutive in E. now subst.
  - reflexivity.
Qed.

Lemma join_words_last (ws : list str) :
  Forall wordlike ws ->
  next_is_word (rev (join (py " ") ws)) = negb (is_empty (join (py " ") ws)).
Proof.
  induction 1 as [|w ws Hw Hws IH]; [reflexivity|].
  pose proof Hw as (Hh & Hl & _).
  destruct w as [|c w]; [discriminate Hh|].
  destruct ws as [|w2 ws'].
  - cbn [join]. rewrite Hl. reflexivity.
  - change (join (py " ") ((c :: w) :: w2 :: ws'))
      with ((c :: w) ++ " "%char :: join (py " ") (w2 :: ws')).
    inversion Hws as [|? ? Hw2 _]; subst.
    destruct Hw2 as (Hh2 & _ & _).
    assert (Hne : join (py " ") (w2 :: ws') <> []).
    { destruct w2 as [|c2 w2]; [discriminate Hh2|].
      destruct ws'; discriminate. }
    rewrite rev_last_app by assumption. rewrite IH.
    destruct (join (py " ") (w2 :: ws')); [congruence | reflexivity].
Qed.

(** A join of word-shaped texts is its own strip. *)
Lemma strip_join_words (ws : list str) :
  Forall wordlike ws -> strip (join (py " ") ws) = join (py " ") ws.
Proof.
  intros H. pose proof (join_words_head ws H) as Hh.
  pose proof (join_words_last ws H) as Hl.
  apply strip_fix.
  - destruct (join (py " ") ws) as [|c t]; [exact I|].
    simpl in Hh. now apply word_not_space.
  - destruct (join (py " ") ws) as [|c t] eqn:E; [exact I|].
    destruct (rev (c :: t)) as [|y r] eqn:Er.
    + apply (f_equal (@rev ascii)) in Er. rewrite rev_involutive in Er.
      discriminate.
    + simpl in Hl. now apply word_not_space.
Qed.

Lemma ws_star_keeps : keeps ws_star.
Proof.
  intros s r x [= <-]. apply drop_while_incl.
Qed.

Lemma ws_plus_keeps : keeps ws_plus.
Proof.
  intros [|c s] r x; simpl; [discriminate|].
  destruct (is_space c); [|discriminate].
  intros [= <-] H. right. now apply drop_while_incl in H.
Qed.

Lemma strip_prefix_ci_keeps (w : str) : keeps (strip_prefix_ci w).
Proof.
  induction w as [|a w IH]; intros s r x; simpl.
  - now intros [= ->].
  - destruct s as [|b s]; [discriminate|].
    destruct (Ascii.eqb (lower_char a) (lower_char b)); [|discriminate].
    intros H Hx. right. eapply IH; eauto.
Qed.

Lemma lit_keeps (w : string) : keeps (lit w).
Proof. apply strip_prefix_ci_keeps. Qed.

Lemma alt_keeps (ws : list string) : keeps (alt ws).
Proof.
  induction ws as [|w ws IH]; intros s r x; simpl; [discriminate|].
  destruct (lit w s) as [r0|] eqn:E; [|apply IH].
  intros [= <-]. now apply (lit_keeps w s r0 x).
Qed.

Lemma lazy_to_colon_colon (s r : str) :
  lazy_to_colon s = Some r -> In ":"%char s.
Proof.
  induction s as [|c s IH]; simpl; [discriminate|].
  destruct (Ascii.eqb c ":"%char) eqn:E.
  - apply Ascii.eqb_eq in E. now left.
  - destruct (code c =? 10)%N; [discriminate | right; auto].
Qed.

(** Without a colon the patterns do not match. *)
Lemma andthen_keeps (m : option str) (g : str -> option str) (s : str) :
  (forall r x, m = Some r -> In x r -> In x s) -> keeps g ->
  forall r x, andthen m g = Some r -> In x r -> In x s.
Proof.
  intros Hm Hg r x. destruct m as [r0|]; simpl; [|discriminate].
  intros H Hx. eapply Hm; [reflexivity|]. eapply Hg; eauto.
Qed.

Lemma andthen_colon (m : option str) (s : str) :
  (forall r x, m = Some r -> In x r -> In x s) ->
  ~ In ":"%char s ->
  andthen (andthen m lazy_to_colon) ws_star = None.
Proof.
  intros Hm Hs. destruct m as [r0|]; [|reflexivity]. simpl.
  destruct (lazy_to_colon r0) as [r1|] eqn:E; [|reflexivity].
  apply lazy_to_colon_colon in E. elim Hs. eapply Hm; eauto.
Qed.

Lemma match_paraphrased_colon (s : str) :
  ~ In ":"%char s -> match_paraphrased s = None.
Proof.
  intros Hs. unfold match_paraphrased. apply (andthen_colon _ s); [|assumption].
  repeat (apply andthen_keeps;
          [|first [apply ws_plus_keeps | apply lit_keeps]]).
  intros r x H Hx. exact (ws_star_keeps _ _ _ H Hx).
Qed.

Lemma match_this_article_colon (s : str) :
  ~ In ":"%char s -> match_this_article s = None.
Proof.
  intros Hs. unfold match_this_article. apply (andthen_colon _ s); [|assumption].
  repeat (apply andthen_keeps;
          [|first [apply ws_plus_keeps | apply alt_keeps]]).
  intros r x H Hx. exact (ws_star_keeps _ _ _ H Hx).
Qed.

Lemma firstn_firstn_same {A} (n : nat) (l : list A) :
  firstn n (firstn n l) = firstn n l.
Proof.
  apply firstn_all2. apply firstn_le_length.
Qed.

(** The form of every validated summary: at most 25 word-shaped texts
    joined by single spaces. *)
Lemma _limit_25_form (v : str) :
  exists ws, _limit_25 v = join (py " ") ws /\ Forall wordlike ws
             /\ length ws <= 25 /\ findall_words (_limit_25 v) = ws.
Proof.
  unfold _limit_25.
  set (ws := firstn 25 (findall_words
                 (strip (sub_anchored match_this_article
                           (sub_anchored match_paraphrased v))))).
  assert (Hw : Forall wordlike ws)
    by (apply Forall_firstn_keep, findall_words_at_wordlike).
  exists ws. split; [reflexivity|]. split; [assumption|].
  split; [apply firstn_le_length | now apply findall_words_join].
Qed.

(** A summary that was validated passes unchanged. *)
Lemma _limit_25_twice (v : str) :
  _limit_25 (_limit_25 v) = _limit_25 v.
Proof.
  destruct (_limit_25_form v) as (ws & E & Hw & Hl & Hf).
  assert (Hc : ~ In ":"%char (_limit_25 v)).
  { rewrite E. intros H. apply (join_words_chars ws _ Hw) in H.
    destruct H as [H | H]; discriminate H. }
  unfold _limit_25 at 1. unfold sub_anchored.
  rewrite (match_paraphrased_colon _ Hc), (match_this_article_colon _ Hc).
  rewrite E at 1. rewrite (strip_join_words ws Hw).
  rewrite <- E, Hf. rewrite firstn_all2 by assumption. now rewrite E.
Qed.

(** [_limit_25] changes nothing in a summary that it has produced. *)
Theorem _limit_25_idempotent (v : str) :
  _limit_25 (_limit_25 v) = _limit_25 v.
Proof. exact (_limit_25_twice v). Qed.

(** ** The message validator *)

Lemma strip_default_message : strip default_message = default_message.
Proof. vm_compute. reflexivity. Qed.

(** A message that was validated passes unchanged. *)
Lemma _ensure_message_twice (v : str) :
  _ensure_message (_ensure_message v) = _ensure_message v
  /\ strip (_ensure_message v) = _ensure_message v.
Proof.
  assert (H : strip (_ensure_message v) = _ensure_message v).
  { unfold _ensure_message. destruct (is_empty (strip v)); simpl;
      [apply strip_default_message | apply strip_idempotent]. }
  split; [|exact H].
  unfold _ensure_message at 1. rewrite H.
  pose proof (_ensure_message_not_empty v) as Hne.
  destruct (_ensure_message v); [congruence | reflexivity].
Qed.

(** [_ensure_message] changes nothing in a message that it has produced,
    and what it produces has no blank at either end. *)
Theorem _ensure_message_idempotent (v : str) :
  _ensure_message (_ensure_message v) = _ensure_message v
  /\ strip (_ensure_message v) = _ensure_message v.
Proof. exact (_ensure_message_twice v). Qed.

(** ** Documents and their validation *)

Lemma str_eqb_neq (a b : str) : a <> b -> str_eqb a b = false.
Proof.
  intros H. destruct (str_eqb a b) eqn:E; [|reflexivity].
  apply str_eqb_eq in E. contradiction.
Qed.

Lemma dict_get_set_same (k : str) (v : json) (d : dict) :
  dict_get k (dict_set k v d) = Some v.
Proof.
  induction d as [|[k' v'] d IH]; simpl.
  - now rewrite str_eqb_refl.
  - destruct (str_eqb k k') eqn:E; simpl.
    + now rewrite str_eqb_refl.
    + now rewrite E.
Qed.

Lemma dict_get_set_other (k k' : str) (v : json) (d : dict) :
  k <> k' -> dict_get k (dict_set k' v d) = dict_get k d.
Proof.
  intros Hk. induction d as [|[k0 v0] d IH]; simpl.
  - now rewrite (str_eqb_neq k k' Hk).
  - destruct (str_eqb k' k0) eqn:E; simpl.
    + apply str_eqb_eq in E. subst k0.
      now rewrite (str_eqb_neq k k' Hk).
    + now rewrite IH.
Qed.

(** A key other than the three fields does not count: setting it in a
    document, present or not, changes neither whether [AgentJSON] accepts
    the document nor what it makes of it. *)
Theorem AgentJSON_validate_extra_key (d : dict) (k : str) (v : json) :
  k <> py "thought" -> k <> py "message" -> k <> py "data" ->
  AgentJSON_validate (JDict (dict_set k v d)) = AgentJSON_validate (JDict d).
Proof.
  intros H1 H2 H3. unfold AgentJSON_validate, str_field.
  rewrite !dict_get_set_other by congruence. reflexivity.
Qed.

Lemma AgentJSON_validate_extra_key_witness :
  AgentJSON_validate
    (JDict (dict_set (py "note") JNull
              [(py "thought", JStr (py "t")); (py "message", JStr (py "m"));
               (py "data", JDict [(py "tags", JList []);
                                  (py "summary", JStr (py "s"))])]))
  = AgentJSON_validate
      (JDict [(py "thought", JStr (py "t")); (py "message", JStr (py "m"));
              (py "data", JDict [(py "tags", JList []);
                                 (py "summary", JStr (py "s"))])]).
Proof.
  apply AgentJSON_validate_extra_key; discriminate.
Defined.

(** Validating the dump of a validated object again keeps its thought, its
    message, its summary and its issues; its tags go through
    [_three_tags] once more. *)
Theorem AgentJSON_validate_dump (obj : json) (a : AgentJSON) :
  AgentJSON_validate obj = Ok a ->
  AgentJSON_validate (model_dump a)
  = Ok (with_tags a (_three_tags (tags (data a)))).
Proof.
  intros H.
  destruct (AgentJSON_validate_inv obj a H)
    as (d & th & m & db & t & s & i & _ & _ & _ & _ & _ & ->).
  change (model_dump
            (mkAgentJSON th (_ensure_message m)
               (mkDataBlock (_three_tags t) (_limit_25 s) i)))
    with (document th (_ensure_message m) (_three_tags t) (_limit_25 s) i).
  rewrite document_valid. unfold with_tags. simpl.
  rewrite (proj1 (_ensure_message_twice m)).
  now rewrite _limit_25_twice.
Qed.

Lemma AgentJSON_validate_dump_witness :
  let a := mkAgentJSON (py "t") (py "m")
             (mkDataBlock [py "json"] (py "s") []) in
  AgentJSON_validate (document (py "t") (py "m") [py "the json"] (py "s") [])
  = Ok a
  /\ AgentJSON_validate (model_dump a)
     = Ok (mkAgentJSON (py "t") (py "m") (mkDataBlock [] (py "s") [])).
Proof.
  split; [vm_compute; reflexivity|].
  apply (AgentJSON_validate_dump
           (document (py "t") (py "m") [py "the json"] (py "s") [])).
  vm_compute; reflexivity.
Defined.

(** ** More on the extractor *)

Section ExtractorMore.

Variable json_loads : str -> option json.

(** The two outcomes of the extractor. *)
Lemma sanitize_json_text_cases (text : str) :
  (forall r, sanitize_json_text json_loads text = Returned r ->
     r = strip text /\ json_loads r <> None)
  /\ (forall e, sanitize_json_text json_loads text = Raised e ->
        e = re_error "R"%char 12 /\ json_loads (strip text) = None).
Proof.
  destruct (json_loads (strip text)) as [obj|] eqn:E.
  - rewrite (sanitize_json_text_decoded json_loads text obj E).
    split; [|discriminate].
    intros r [= <-]. split; [reflexivity | now rewrite E].
  - rewrite (sanitize_json_text_undecoded json_loads text E).
    split; [discriminate|]. intros e [= <-]. now split.
Qed.

(** What [sanitize_json_text] returns is the input stripped, and it
    decodes; it raises exactly when the stripped input does not decode,
    and then [re.error]. *)
Theorem sanitize_json_text_outcomes (text : str) :
  (forall r, sanitize_json_text json_loads text = Returned r ->
     r = strip text /\ json_loads r <> None)
  /\ (forall e, sanitize_json_text json_loads text = Raised e ->
        e = re_error "R"%char 12 /\ json_loads (strip text) = None).
Proof. exact (sanitize_json_text_cases text). Qed.

(** Extracting again from what was extracted gives the same text. *)
Theorem sanitize_json_text_idempotent (text r : str) :
  sanitize_json_text json_loads text = Returned r ->
  sanitize_json_text json_loads r = Returned r.
Proof.
  intros H. apply (proj1 (sanitize_json_text_cases text)) in H as [-> Hj].
  destruct (json_loads (strip text)) as [obj|] eqn:E; [|congruence].
  rewrite <- (strip_idempotent text) at 2.
  apply (sanitize_json_text_decoded json_loads (strip text) obj).
  now rewrite strip_idempotent.
Qed.

End ExtractorMore.

Lemma sanitize_json_text_outcomes_witness :
  sanitize_json_text json_loads_ref (py " [1, 2] ") = Returned (py "[1, 2]")
  /\ py "[1, 2]" = strip (py " [1, 2] ")
  /\ json_loads_ref (py "[1, 2]") <> None.
Proof.
  assert (H : sanitize_json_text json_loads_ref (py " [1, 2] ")
              = Returned (py "[1, 2]")) by (vm_compute; reflexivity).
  split; [exact H|].
  exact (proj1 (sanitize_json_text_outcomes json_loads_ref (py " [1, 2] "))
           (py "[1, 2]") H).
Defined.

Lemma sanitize_json_text_idempotent_witness :
  sanitize_json_text json_loads_ref (py "[1, 2]") = Returned (py "[1, 2]").
Proof.
  apply (sanitize_json_text_idempotent json_loads_ref (py " [1, 2] ")).
  vm_compute; reflexivity.
Defined.

(** ** More on the repair loop *)

Section LoopMore.

Variable json_loads : str -> option json.
Variable Backend : Type.
Variable llm_invoke : Backend -> str -> str -> outcome str * Backend.

Local Abbreviation sanitize := (sanitize_json_text json_loads).
Local Abbreviation attempt := (attempt json_loads).
Local Abbreviation invoke := (_invoke Backend llm_invoke).
Local Abbreviation loop := (repair_loop json_loads Backend llm_invoke).
Local Abbreviation run := (call_agent json_loads Backend llm_invoke).
Local Abbreviation chain := (repair_chain json_loads).
Local Abbreviation decoded_answer := (Pipeline.decoded_answer json_loads).

Lemma sanitize_returned (raw candidate : str) :
  sanitize raw = Returned candidate ->
  candidate = strip raw /\ json_loads (strip raw) <> None.
Proof.
  intros H.
  apply (proj1 (sanitize_json_text_cases json_loads raw)) in H as [-> H].
  now split.
Qed.

Lemma repair_loop_chain (n : nat) :
  forall k max sys candidate w r w' raw,
    candidate = strip raw -> json_loads (strip raw) <> None ->
    loop n k max sys candidate w = (r, w') ->
    exists new, calls w' = calls w ++ new /\ chain sys (Returned raw) new.
Proof.
  induction n as [|n IH]; intros k max sys candidate w r w' raw Hc Hj H.
  - simpl in H. inversion H; subst. exists []. now rewrite app_nil_r.
  - cbn [repair_loop] in H.
    destruct (attempt candidate) as [a|] eqn:Ea.
    { inversion H; subst. exists []. now rewrite app_nil_r. }
    destruct (k =? max)%Z.
    { inversion H; subst. exists []. now rewrite app_nil_r. }
    destruct (invoke w sys (repair_prompt candidate)) as [r1 w1] eqn:Ei.
    apply _invoke_inv in Ei.
    assert (Hd : exists raw0,
               Returned raw = Returned raw0
               /\ json_loads (strip raw0) <> None
               /\ attempt (strip raw0) = None
               /\ repair_prompt candidate = repair_prompt (strip raw0)).
    { exists raw. subst candidate. auto. }
    destruct r1 as [raw1|e].
    + destruct (sanitize raw1) as [candidate'|e] eqn:Es.
      * destruct (sanitize_returned _ _ Es) as [Hc' Hj'].
        destruct (IH _ _ _ _ _ _ _ raw1 Hc' Hj' H) as (new & Hn & Hch).
        exists ((sys, repair_prompt candidate, Returned raw1) :: new).
        rewrite Hn, Ei, <- app_assoc. split; [reflexivity|].
        simpl. auto.
      * inversion H; subst.
        exists [(sys, repair_prompt (strip raw), Returned raw1)].
        split; [assumption|]. simpl. auto.
    + inversion H; subst.
      exists [(sys, repair_prompt (strip raw), Raised e)].
      split; [assumption|]. simpl. auto.
Qed.

(** The log of a run as a chain of repairs. *)
Lemma call_agent_chain (w w' : world Backend) (sys hum : str) (max : Z)
    (r : outcome (option AgentJSON)) :
  run w sys hum max = (r, w') ->
  exists first rest,
    calls w' = calls w ++ (sys, hum, first) :: rest
    /\ chain sys first rest.
Proof.
  intros H. unfold call_agent in H.
  destruct (invoke w sys hum) as [r1 w1] eqn:Ei.
  apply _invoke_inv in Ei.
  destruct r1 as [raw|e].
  - destruct (sanitize raw) as [candidate|e] eqn:Es.
    + destruct (sanitize_returned _ _ Es) as [Hc Hj].
      destruct (repair_loop_chain _ _ _ _ _ _ _ _ raw Hc Hj H)
        as (new & Hn & Hch).
      exists (Returned raw), new. rewrite Hn, Ei, <- app_assoc. now split.
    + inversion H; subst. exists (Returned raw), []. now split.
  - inversion H; subst. exists (Raised e), []. now split.
Qed.

(** The log of a run.  Its first invocation carries the two prompts
    given.  Every later one carries the same system prompt and the repair
    prompt built on the answer before it, stripped; and that answer had
    decoded as JSON and been refused by the schema. *)
Theorem call_agent_trace (w w' : world Backend) (sys hum : str) (max : Z)
    (r : outcome (option AgentJSON)) :
  run w sys hum max = (r, w') ->
  exists first rest,
    calls w' = calls w ++ (sys, hum, first) :: rest
    /\ chain sys first rest.
Proof. exact (call_agent_chain w w' sys hum max r). Qed.

Lemma repair_loop_decoded (n : nat) :
  forall k max sys candidate w x w',
    loop n k max sys candidate w = (Returned x, w') ->
    exists new, calls w' = calls w ++ new /\ Forall decoded_answer new.
Proof.
  induction n as [|n IH]; intros k max sys candidate w x w' H.
  - simpl in H. inversion H; subst. exists []. now rewrite app_nil_r.
  - cbn [repair_loop] in H.
    destruct (attempt candidate) as [a|].
    { inversion H; subst. exists []. now rewrite app_nil_r. }
    destruct (k =? max)%Z.
    { inversion H; subst. exists []. now rewrite app_nil_r. }
    destruct (invoke w sys (repair_prompt candidate)) as [r1 w1] eqn:Ei.
    apply _invoke_inv in Ei.
    destruct r1 as [raw1|e]; [|discriminate H].
    destruct (sanitize raw1) as [candidate'|e] eqn:Es; [|discriminate H].
    destruct (sanitize_returned _ _ Es) as [_ Hj].
    destruct (IH _ _ _ _ _ _ _ H) as (new & Hn & Hd).
    exists ((sys, repair_prompt candidate, Returned raw1) :: new).
    rewrite Hn, Ei, <- app_assoc. split; [reflexivity|].
    constructor; [now exists raw1 | assumption].
Qed.

(** For a budget that is not negative, a run makes between 1 and
    [max_repairs + 1] backend invocations; it ends with a document that
    the schema accepts, with the fallback, or with an exception, and never
    returns [None]. *)
Theorem call_agent_bounds (w w' : world Backend) (sys hum : str) (max : Z)
    (r : outcome (option AgentJSON)) :
  (0 <= max)%Z ->
  run w sys hum max = (r, w') ->
  1 <= invocations w w' <= Z.to_nat (max + 1)
  /\ run_result json_loads r /\ r <> Returned None.
Proof.
  exact (call_agent_invocations json_loads Backend llm_invoke w w' sys hum
           max r).
Qed.

(** A run that returns has never met an answer that does not decode:
    every answer in its log decoded as JSON once stripped.  An answer made
    of a valid document inside prose is not recovered. *)
Theorem call_agent_returns_decoded (w w' : world Backend) (sys hum : str)
    (max : Z) (x : option AgentJSON) :
  run w sys hum max = (Returned x, w') ->
  exists new, calls w' = calls w ++ new /\ new <> []
              /\ Forall decoded_answer new.
Proof.
  intros H. unfold call_agent in H.
  destruct (invoke w sys hum) as [r1 w1] eqn:Ei.
  apply _invoke_inv in Ei.
  destruct r1 as [raw|e]; [|discriminate H].
  destruct (sanitize raw) as [candidate|e] eqn:Es; [|discriminate H].
  destruct (sanitize_returned _ _ Es) as [_ Hj].
  destruct (repair_loop_decoded _ _ _ _ _ _ _ _ H) as (new & Hn & Hd).
  exists ((sys, hum, Returned raw) :: new).
  rewrite Hn, Ei, <- app_assoc. split; [reflexivity|].
  split; [discriminate|]. constructor; [now exists raw | assumption].
Qed.

(** With a negative budget the loop has no round: the run makes its one
    invocation and returns [None], even on a valid document. *)
Theorem call_agent_negative_budget (w : world Backend) (sys hum : str)
    (max : Z) (raw : str) (b' : Backend) (obj : json) :
  (max < 0)%Z ->
  llm_invoke (backend w) sys hum = (Returned raw, b') ->
  json_loads (strip raw) = Some obj ->
  run w sys hum max
  = (Returned None, mkWorld b' (calls w ++ [(sys, hum, Returned raw)])).
Proof.
  intros Hmax Hi Hj. unfold call_agent. rewrite (_invoke_eq _ _ _ _ _ _ _ Hi).
  rewrite (sanitize_json_text_decoded json_loads raw obj Hj).
  replace (Z.to_nat (max + 1)) with 0 by lia. reflexivity.
Qed.

(** A repair that works: the first answer decodes and is refused, the
    answer to the repair prompt is accepted; the run returns the validated
    document after two invocations. *)
Theorem call_agent_repaired (w : world Backend) (sys hum : str) (max : Z)
    (raw1 raw2 : str) (b1 b2 : Backend) (obj1 obj2 : json) (a : AgentJSON) :
  (1 <= max)%Z ->
  llm_invoke (backend w) sys hum = (Returned raw1, b1) ->
  json_loads (strip raw1) = Some obj1 ->
  attempt (strip raw1) = None ->
  llm_invoke b1 sys (repair_prompt (strip raw1)) = (Returned raw2, b2) ->
  json_loads (strip raw2) = Some obj2 ->
  AgentJSON_validate obj2 = Ok a ->
  run w sys hum max
  = (Returned (Some a),
     mkWorld b2
       (calls w ++ [(sys, hum, Returned raw1);
                    (sys, repair_prompt (strip raw1), Returned raw2)])).
Proof.
  intros Hmax H1 J1 A1 H2 J2 V2. unfold call_agent.
  rewrite (_invoke_eq _ _ _ _ _ _ _ H1).
  rewrite (sanitize_json_text_decoded json_loads raw1 obj1 J1).
  destruct (Z.to_nat (max + 1)) as [|[|n]] eqn:En; try lia.
  cbn [repair_loop]. rewrite A1.
  replace (0 =? max)%Z with false by (symmetry; apply Z.eqb_neq; lia).
  unfold _invoke at 1. cbn [backend calls]. rewrite H2.
  rewrite (sanitize_json_text_decoded json_loads raw2 obj2 J2).
  unfold Agent.attempt at 1. rewrite J2, V2.
  now rewrite <- app_assoc.
Qed.

End LoopMore.

(** ** More on the topic sanitizer *)

Section TopicMore.

Lemma backfill_NoDup (ws : counter) :
  forall keep, NoDup keep -> NoDup (backfill keep ws).
Proof.
  induction ws as [|[w m] ws IH]; simpl; intros keep H; [assumption|].
  destruct (length keep =? 3); [assumption|].
  destruct (mem w keep) eqn:E; [auto|].
  apply IH. apply NoDup_app; [assumption | repeat constructor; intros [] |].
  intros x Hx [<- | []]. apply mem_false_In in E. contradiction.
Qed.

Lemma NoDup_filter_keep {A} (p : A -> bool) (l : list A) :
  NoDup l -> NoDup (filter p l).
Proof.
  induction 1 as [|x l Hx Hl IH]; simpl; [constructor|].
  destruct (p x); [|assumption].
  constructor; [|assumption]. rewrite filter_In. tauto.
Qed.

(** [demeta_tags] brings in no duplicate: tags that differ from one
    another give a result whose tags differ from one another. *)
Theorem demeta_tags_NoDup (tags : list str) (title content : str) :
  NoDup tags -> NoDup (demeta_tags tags title content).
Proof.
  intros H. unfold demeta_tags. apply NoDup_firstn_keep.
  pose proof (NoDup_filter_keep (fun t => negb (mem t meta_ban)) tags H) as Hk.
  destruct (length _ <? 3); [now apply backfill_NoDup | assumption].
Qed.

Lemma backfill_keeps (ws : counter) (keep : list str) (t : str) :
  In t keep -> In t (backfill keep ws).
Proof.
  intros H. destruct (backfill_extends ws keep) as [extra ->].
  apply in_or_app. now left.
Qed.

Lemma backfill_complete (ws : counter) :
  forall keep, length (backfill keep ws) < 3 ->
    forall w n, In (w, n) ws -> In w (backfill keep ws).
Proof.
  induction ws as [|[w0 m] ws IH]; simpl; intros keep Hl w n; [tauto|].
  destruct (length keep =? 3) eqn:E3.
  { apply Nat.eqb_eq in E3. lia. }
  destruct (mem w0 keep) eqn:E.
  - intros [[= -> ->] | H]; [|eauto].
    apply backfill_keeps. now apply mem_In.
  - intros [[= -> ->] | H]; [|eauto].
    apply backfill_keeps. apply in_or_app. right. now left.
Qed.

Lemma insert_by_count_In_conv (x y : str * nat) (l : counter) :
  x = y \/ In x l -> In x (insert_by_count y l).
Proof.
  induction l as [|z l IH]; simpl.
  - intros [-> | []]. now left.
  - destruct (snd y <? snd z); simpl; intros [-> | [-> | H]]; auto.
Qed.

Lemma most_common_In_conv (x : str * nat) (c : counter) :
  In x c -> In x (most_common c).
Proof.
  induction c as [|y c IH]; simpl; [tauto|].
  intros [-> | H]; apply insert_by_count_In_conv; auto.
Qed.

Lemma counter_get_add (w w' : str) (c : counter) :
  counter_get w (counter_add w' c)
  = counter_get w c + (if str_eqb w w' then 1 else 0).
Proof.
  induction c as [|[k n] c IH]; simpl.
  - destruct (str_eqb w w'); reflexivity.
  - destruct (str_eqb w' k) eqn:E; simpl.
    + apply str_eqb_eq in E. subst k.
      destruct (str_eqb w w'); lia.
    + destruct (str_eqb w k) eqn:E2; [|exact IH].
      apply str_eqb_eq in E2. subst k.
      rewrite (str_eqb_neq w w'); [lia|].
      intros ->. now rewrite str_eqb_refl in E.
Qed.

Lemma counter_add_keys (w' : str) (c : counter) :
  NoDup (map fst c) ->
  NoDup (map fst (counter_add w' c))
  /\ (forall w, In w (map fst (counter_add w' c)) <-> w = w' \/ In w (map fst c)).
Proof.
  induction c as [|[k n] c IH]; simpl; intros H.
  - split; [repeat constructor; intros []|]. intros w. intuition.
  - inversion H as [|? ? Hk Hc]; subst.
    destruct (str_eqb w' k) eqn:E; simpl.
    + apply str_eqb_eq in E. subst k. split; [assumption|].
      intros w. intuition.
    + destruct (IH Hc) as [A B]. split.
      * constructor; [|assumption]. rewrite B. intros [-> | Hin]; [|auto].
        now rewrite str_eqb_refl in E.
      * intros w. rewrite B. intuition.
Qed.

Lemma counter_get_In (c : counter) (w : str) (n : nat) :
  NoDup (map fst c) -> In (w, n) c -> counter_get w c = n.
Proof.
  induction c as [|[k m] c IH]; simpl; intros H; [tauto|].
  inversion H as [|? ? Hk Hc]; subst.
  intros [[= -> ->] | Hin].
  - now rewrite str_eqb_refl.
  - destruct (str_eqb w k) eqn:E; [|auto].
    apply str_eqb_eq in E. subst k. elim Hk.
    apply in_map_iff. now exists (w, n).
Qed.

Lemma count_occ_eqb (ws : list str) (w x : str) :
  count_occ str_eq_dec (x :: ws) w
  = count_occ str_eq_dec ws w + (if str_eqb w x then 1 else 0).
Proof.
  simpl. destruct (str_eq_dec x w) as [-> | N].
  - rewrite str_eqb_refl. lia.
  - rewrite (str_eqb_neq w x) by congruence. lia.
Qed.

Lemma Counter_from (ws : list str) :
  forall c0, NoDup (map fst c0) ->
    let c := fold_left (fun c x => counter_add x c) ws c0 in
    NoDup (map fst c)
    /\ (forall w, In w (map fst c) <-> In w ws \/ In w (map fst c0))
    /\ (forall w, counter_get w c
                  = counter_get w c0 + count_occ str_eq_dec ws w).
Proof.
  induction ws as [|x ws IH]; intros c0 H0; simpl.
  - split; [assumption|]. split; [intuition | intros; lia].
  - destruct (counter_add_keys x c0 H0) as [A B].
    destruct (IH _ A) as (A' & B' & C'). split; [assumption|]. split.
    + intros w. rewrite B', B. intuition.
    + intros w. rewrite C', counter_get_add.
      destruct (str_eq_dec x w) as [-> | N].
      * rewrite str_eqb_refl. lia.
      * rewrite (str_eqb_neq w x) by congruence. lia.
Qed.

Lemma insert_by_count_perm (x : str * nat) (l : counter) :
  Permutation (x :: l) (insert_by_count x l).
Proof.
  induction l as [|y l IH]; simpl; [reflexivity|].
  destruct (snd x <? snd y); [|reflexivity].
  rewrite perm_swap. now constructor.
Qed.

Lemma most_common_perm (c : counter) : Permutation c (most_common c).
Proof.
  induction c as [|x c IH]; simpl; [constructor|].
  rewrite <- insert_by_count_perm. now constructor.
Qed.

Lemma insert_by_count_sorted (x : str * nat) (l : counter) :
  StronglySorted by_count l -> StronglySorted by_count (insert_by_count x l).
Proof.
  induction 1 as [|y l Hl IH Hy]; simpl.
  - repeat constructor.
  - destruct (snd x <? snd y) eqn:E.
    + constructor; [assumption|].
      rewrite <- insert_by_count_perm. constructor; [|assumption].
      apply Nat.ltb_lt in E. unfold by_count. lia.
    + apply Nat.ltb_ge in E. constructor; [now constructor|].
      constructor; [exact E|].
      rewrite Forall_forall in *. intros z Hz. specialize (Hy z Hz).
      unfold by_count in *. lia.
Qed.

Lemma most_common_sorted (c : counter) : StronglySorted by_count (most_common c).
Proof.
  induction c as [|x c IH]; simpl; [constructor|].
  now apply insert_by_count_sorted.
Qed.

(** The counter in the order of [most_common]. *)
Lemma most_common_Counter (ws : list str) :
  let cands := most_common (Counter ws) in
  NoDup (map fst cands)
  /\ (forall w, In w (map fst cands) <-> In w ws)
  /\ (forall w n, In (w, n) cands -> n = count_occ str_eq_dec ws w)
  /\ StronglySorted by_count cands.
Proof.
  intros cands. unfold cands.
  destruct (Counter_from ws [] (NoDup_nil _)) as (A & B & C).
  fold (Counter ws) in A, B, C.
  pose proof (most_common_perm (Counter ws)) as P.
  split; [|split; [|split]].
  - eapply Permutation_NoDup; [|exact A]. now apply Permutation_map.
  - intros w. rewrite <- (Permutation_in' eq_refl (Permutation_map fst P)).
    rewrite B. simpl. tauto.
  - intros w n H. apply (Permutation_in _ (Permutation_sym P)) in H.
    rewrite <- (counter_get_In _ _ _ A H). rewrite C. reflexivity.
  - apply most_common_sorted.
Qed.

(** The candidates of the backfill: the words of the text, each once,
    with the number of its occurrences, in the order of decreasing
    number. *)
Theorem backfill_candidates (ws : list str) :
  let cands := most_common (Counter ws) in
  NoDup (map fst cands)
  /\ (forall w, In w (map fst cands) <-> In w ws)
  /\ (forall w n, In (w, n) cands -> n = count_occ str_eq_dec ws w)
  /\ StronglySorted by_count cands.
Proof. exact (most_common_Counter ws). Qed.

Lemma backfill_fresh (ws : counter) :
  forall keep,
    length keep <= 3 -> NoDup (map fst ws) ->
    (forall w, In w (map fst ws) -> ~ In w keep) ->
    backfill keep ws = keep ++ firstn (3 - length keep) (map fst ws).
Proof.
  induction ws as [|[w m] ws IH]; intros keep Hl Hn Hd; cbn [backfill map fst].
  - now rewrite firstn_nil, app_nil_r.
  - destruct (length keep =? 3) eqn:E3.
    { apply Nat.eqb_eq in E3. rewrite E3. simpl. now rewrite app_nil_r. }
    apply Nat.eqb_neq in E3.
    rewrite (proj2 (mem_false_In w keep)) by (apply Hd; now left).
    inversion Hn as [|? ? Hw Hn']; subst.
    rewrite IH.
    + rewrite length_app. cbn [length].
      replace (3 - length keep) with (S (3 - (length keep + 1))) by lia.
      cbn [firstn]. now rewrite <- app_assoc.
    + rewrite length_app. cbn [length]. lia.
    + assumption.
    + intros x Hx Hin. apply in_app_or in Hin as [Hin | [<- | []]].
      * apply (Hd x); [now right | assumption].
      * contradiction.
Qed.

Lemma firstn_app_firstn {A} (n : nat) (a b : list A) :
  length a <= n -> firstn n (a ++ firstn (n - length a) b) = firstn n (a ++ b).
Proof.
  intros H. rewrite !firstn_app.
  rewrite firstn_firstn. now rewrite Nat.min_id.
Qed.

(** When no kept tag is itself a word of the text, the result is the
    first three of: the kept tags, then the candidates of the backfill in
    their order. *)
Theorem demeta_tags_order (tags : list str) (title content : str) :
  (forall w, In w (topical_words title content) -> ~ In w (kept_tags tags)) ->
  demeta_tags tags title content
  = firstn 3 (kept_tags tags
              ++ map fst (most_common (Counter (topical_words title content)))).
Proof.
  intros Hd. unfold demeta_tags. fold (kept_tags tags).
  destruct (length (kept_tags tags) <? 3) eqn:E.
  - apply Nat.ltb_lt in E.
    destruct (most_common_Counter (topical_words title content))
      as (A & B & _ & _).
    rewrite backfill_fresh; [| lia | assumption |].
    + apply firstn_app_firstn. lia.
    + intros w Hw. apply Hd. now apply B.
  - apply Nat.ltb_ge in E. rewrite firstn_app.
    replace (3 - length (kept_tags tags)) with 0 by lia.
    simpl. now rewrite app_nil_r.
Qed.

(** A result of fewer than 3 tags has left nothing out: it holds every
    kept tag of the input and every word that the text offers. *)
Theorem demeta_tags_short (tags : list str) (title content : str) :
  length (demeta_tags tags title content) < 3 ->
  (forall t, In t (kept_tags tags) -> In t (demeta_tags tags title content))
  /\ (forall w, In w (topical_words title content) ->
        In w (demeta_tags tags title content)).
Proof.
  unfold demeta_tags. fold (kept_tags tags). intros Hl.
  set (ws := most_common (Counter (topical_words title content))) in *.
  set (keep := if length (kept_tags tags) <? 3
               then backfill (kept_tags tags) ws else kept_tags tags) in *.
  assert (Hall : firstn 3 keep = keep).
  { apply firstn_all2. rewrite length_firstn in Hl. lia. }
  rewrite Hall in *. unfold keep in *.
  destruct (length (kept_tags tags) <? 3) eqn:E.
  - split.
    + intros t Ht. now apply backfill_keeps.
    + intros w Hw.
      destruct (most_common_Counter (topical_words title content))
        as (_ & B & _ & _).
      apply B in Hw. apply in_map_iff in Hw as ([w' n] & <- & Hin).
      now apply (backfill_complete ws _ Hl w' n).
  - apply Nat.ltb_ge in E. lia.
Qed.

Lemma span_token_cls (s a b : str) :
  span token_cls s = (a, b) -> forallb token_cls a = true.
Proof. apply span_forallb. Qed.

Lemma findall_tokens_at_shape (fuel : nat) :
  forall s, Forall (fun t => 4 <= length t /\ forallb token_cls t = true)
              (findall_tokens_at fuel s).
Proof.
  induction fuel as [|f IH]; intros s; cbn [findall_tokens_at];
    [constructor|].
  destruct s as [|c s']; [constructor|].
  destruct (is_az c) eqn:Ec; [|apply IH].
  destruct (span token_cls s') as [run rest] eqn:Es.
  destruct (3 <=? length run) eqn:El; [|apply IH].
  apply Nat.leb_le in El. constructor; [|apply IH]. split.
  - simpl. lia.
  - simpl. unfold token_cls at 1. rewrite Ec. simpl.
    now apply span_forallb in Es.
Qed.

(** A tag that the backfill adds has 4 characters at least, all of them
    small letters, hyphens or apostrophes. *)
Theorem demeta_tags_backfilled (tags : list str) (title content : str) :
  Forall (fun t => In t (kept_tags tags)
                   \/ (4 <= length t /\ forallb token_cls t = true))
    (demeta_tags tags title content).
Proof.
  apply Forall_forall. intros t Ht. unfold demeta_tags in Ht.
  fold (kept_tags tags) in Ht. apply In_firstn_keep in Ht.
  destruct (length (kept_tags tags) <? 3); [|now left].
  apply backfill_In in Ht as [Hk | [n Hn]]; [now left|]. right.
  apply most_common_In, Counter_In, topical_words_In in Hn as [Hn _].
  pose proof (findall_tokens_at_shape
                (length (lower (title ++ py " " ++ content)))
                (lower (title ++ py " " ++ content))) as H.
  rewrite Forall_forall in H. now apply H.
Qed.

End TopicMore.

(** ** The prompts of the pipeline *)

Lemma replace_at_fuel (old new : str) (f1 : nat) :
  old <> [] ->
  forall f2 s, length s <= f1 -> length s <= f2 ->
    replace_at f1 old new s = replace_at f2 old new s.
Proof.
  intros Ho. induction f1 as [|f1 IH]; intros f2 s H1 H2.
  - destruct s; [|simpl in H1; lia]. destruct f2; [reflexivity|].
    simpl. destruct old; [congruence | reflexivity].
  - destruct f2 as [|f2].
    { destruct s; [|simpl in H2; lia].
      simpl. destruct old; [congruence | reflexivity]. }
    cbn [replace_at].
    destruct (strip_prefix old s) as [rest|] eqn:E.
    + f_equal. apply strip_prefix_length in E.
      destruct old; [congruence|]. simpl in E. apply IH; lia.
    + destruct s as [|c s']; [reflexivity|]. simpl in H1, H2.
      f_equal. apply IH; lia.
Qed.

(** A match that runs into a line feed which the pattern does not have
    lies before it. *)
Lemma strip_prefix_crossing (old x y r : str) :
  ~ In (ascii_of_nat 10) old ->
  strip_prefix old (x ++ ascii_of_nat 10 :: y) = Some r ->
  exists b, x = old ++ b.
Proof.
  revert x. induction old as [|o old IH]; intros x Hn H.
  - now exists x.
  - destruct x as [|a x].
    + simpl in H. destruct (Ascii.eqb o (ascii_of_nat 10)) eqn:E;
        [|discriminate H].
      apply Ascii.eqb_eq in E. elim Hn. now left.
    + simpl in H. destruct (Ascii.eqb o a) eqn:E; [|discriminate H].
      apply Ascii.eqb_eq in E. subst a.
      destruct (IH x) as [b ->]; [intros Hin; apply Hn; now right | exact H |].
      now exists b.
Qed.

Lemma replace_before_tail (new : str) (pj : str) :
  forall f,
    length (pj ++ nl ++ nl ++ REVIEWER_MARK) <= f ->
    ~ occurs REVIEWER_MARK pj ->
    replace_at f REVIEWER_MARK new (pj ++ nl ++ nl ++ REVIEWER_MARK)
    = pj ++ nl ++ nl ++ new.
Proof.
  induction pj as [|c pj IH]; intros f Hf Ho.
  - rewrite (replace_at_fuel REVIEWER_MARK new f ltac:(discriminate)
               (length (nl ++ nl ++ REVIEWER_MARK))
               ([] ++ nl ++ nl ++ REVIEWER_MARK) Hf (le_n _)).
    cbn. now rewrite app_nil_r.
  - change ((c :: pj) ++ nl ++ nl ++ REVIEWER_MARK)
      with (c :: (pj ++ nl ++ nl ++ REVIEWER_MARK)) in *.
    cbn [length] in Hf.
    destruct f as [|f]; [lia|].
    cbn [replace_at].
    destruct (strip_prefix REVIEWER_MARK (c :: pj ++ nl ++ nl ++ REVIEWER_MARK))
      as [r|] eqn:E.
    + change (c :: pj ++ nl ++ nl ++ REVIEWER_MARK)
        with ((c :: pj) ++ ascii_of_nat 10 :: nl ++ REVIEWER_MARK) in E.
      apply strip_prefix_crossing in E as [b Hb].
      * elim Ho. exists [], b. exact Hb.
      * vm_compute. intuition discriminate.
    + change ((c :: pj) ++ nl ++ nl ++ new)
        with (c :: (pj ++ nl ++ nl ++ new)).
      f_equal. apply IH; [lia|].
      intros (a & b & ->). apply Ho. now exists (c :: a), b.
Qed.

(** The prompt of the finalizer is the planner text, an empty line and
    the reviewer text, provided the planner text does not hold the mark
    of the reviewer text; the second replacement runs over the planner
    text too. *)
Theorem finalizer_prompt_plain (planner_json reviewer_json : str) :
  ~ occurs REVIEWER_MARK planner_json ->
  finalizer_prompt planner_json reviewer_json
  = planner_json ++ nl ++ nl ++ reviewer_json.
Proof.
  intros Ho. unfold finalizer_prompt.
  assert (E : replace PLANNER_MARK planner_json
                (PLANNER_MARK ++ nl ++ nl ++ REVIEWER_MARK)
              = planner_json ++ nl ++ nl ++ REVIEWER_MARK)
    by (vm_compute; reflexivity).
  rewrite E. unfold replace. change REVIEWER_MARK with (py "<<REVIEWER JSON>>") at 1.
  cbn [py list_ascii_of_string].
  now apply replace_before_tail.
Qed.

(** Where the planner text holds that mark, the reviewer text lands
    inside it as well. *)
Lemma finalizer_prompt_marked :
  finalizer_prompt (py "see <<REVIEWER JSON>>") (py "R")
  = py "see R" ++ nl ++ nl ++ py "R".
Proof. vm_compute. reflexivity. Qed.

(** ** The pipeline *)

Section PipelineFacts.

Variable json_loads : str -> option json.
Variable json_dumps : json -> str.
Variable Backend : Type.
Variable llm_invoke : Backend -> str -> str -> outcome str * Backend.

Local Abbreviation sanitize := (sanitize_json_text json_loads).
Local Abbreviation attempt := (attempt json_loads).
Local Abbreviation invoke := (_invoke Backend llm_invoke).
Local Abbreviation loop := (repair_loop json_loads Backend llm_invoke).
Local Abbreviation run := (call_agent json_loads Backend llm_invoke).
Local Abbreviation stage := (stage json_loads Backend llm_invoke).
Local Abbreviation main := (main json_loads json_dumps Backend llm_invoke).
Local Abbreviation failures_decide := (Pipeline.failures_decide json_loads).
Local Abbreviation stage_facts := (Pipeline.stage_facts json_loads Backend).

Lemma failures_decide_nil (r : outcome (option AgentJSON)) :
  failures_decide [] r.
Proof. split; intros ? ? ? []. Qed.

Lemma repair_loop_failures (n : nat) :
  forall k max sys candidate w r w',
    loop n k max sys candidate w = (r, w') ->
    exists new, calls w' = calls w ++ new /\ failures_decide new r.
Proof.
  induction n as [|n IH]; intros k max sys candidate w r w' H.
  - simpl in H. inversion H; subst. exists []. rewrite app_nil_r.
    split; [reflexivity | apply failures_decide_nil].
  - cbn [repair_loop] in H.
    destruct (attempt candidate) as [a|].
    { inversion H; subst. exists []. rewrite app_nil_r.
      split; [reflexivity | apply failures_decide_nil]. }
    destruct (k =? max)%Z.
    { inversion H; subst. exists []. rewrite app_nil_r.
      split; [reflexivity | apply failures_decide_nil]. }
    destruct (invoke w sys (repair_prompt candidate)) as [r1 w1] eqn:Ei.
    apply _invoke_inv in Ei.
    destruct r1 as [raw|e].
    + destruct (sanitize raw) as [candidate'|e] eqn:Es.
      * destruct (sanitize_returned json_loads _ _ Es) as [_ Hj].
        apply IH in H. destruct H as (new & Hc & Hr & Hu).
        exists ((sys, repair_prompt candidate, Returned raw) :: new).
        rewrite Hc, Ei, <- app_assoc. split; [reflexivity|]. split.
        -- intros s h e [[=] | Hin]. eauto.
        -- intros s h raw0 [[= _ _ <-] | Hin] Hn; [congruence | eauto].
      * apply (proj2 (sanitize_json_text_cases json_loads raw)) in Es
          as [-> Hn].
        inversion H; subst.
        exists [(sys, repair_prompt candidate, Returned raw)].
        split; [assumption|]. split.
        -- intros s h e' [[=] | []].
        -- intros s h raw0 [[= _ _ <-] | []] _. reflexivity.
    + inversion H; subst.
      exists [(sys, repair_prompt candidate, Raised e)].
      split; [assumption|]. split.
      * intros s h e' [[= _ _ <-] | []]. reflexivity.
      * intros s h raw0 [[=] | []].
Qed.

Lemma call_agent_failures (w w' : world Backend) (sys hum : str) (max : Z)
    (r : outcome (option AgentJSON)) :
  run w sys hum max = (r, w') ->
  exists new, calls w' = calls w ++ new /\ failures_decide new r.
Proof.
  intros H. unfold call_agent in H.
  destruct (invoke w sys hum) as [r1 w1] eqn:Ei.
  apply _invoke_inv in Ei.
  destruct r1 as [raw|e].
  - destruct (sanitize raw) as [candidate|e] eqn:Es.
    + destruct (sanitize_returned json_loads _ _ Es) as [_ Hj].
      apply repair_loop_failures in H. destruct H as (new & Hc & Hr & Hu).
      exists ((sys, hum, Returned raw) :: new).
      rewrite Hc, Ei, <- app_assoc. split; [reflexivity|]. split.
      * intros s h e [[=] | Hin]. eauto.
      * intros s h raw0 [[= _ _ <-] | Hin] Hn; [congruence | eauto].
    + apply (proj2 (sanitize_json_text_cases json_loads raw)) in Es
        as [-> Hn].
      inversion H; subst. exists [(sys, hum, Returned raw)].
      split; [assumption|]. split.
      * intros s h e' [[=] | []].
      * intros s h raw0 [[= _ _ <-] | []] _. reflexivity.
  - inversion H; subst. exists [(sys, hum, Raised e)].
    split; [assumption|]. split.
    + intros s h e' [[= _ _ <-] | []]. reflexivity.
    + intros s h raw0 [[=] | []].
Qed.

Lemma run_result_well_formed (a : AgentJSON) :
  run_result json_loads (Returned (Some a)) -> well_formed a.
Proof.
  intros H. inversion H as [c obj a' Hj Hv| | |]; subst.
  - destruct (AgentJSON_validate_inv obj a Hv)
      as (d & th & m & db & t & s & i & _ & _ & _ & _ & _ & ->).
    repeat split; simpl;
      [apply _ensure_message_not_empty | apply _three_tags_length
       | apply _limit_25_word_count].
  - rewrite fallback_value. repeat split; simpl; try lia; try discriminate.
    vm_compute. lia.
Qed.

Lemma stage_inv (w w' : world Backend) (sys hum : str)
    (x : AgentJSON + main_result) :
  stage w sys hum = (x, w') -> stage_facts w sys hum x w'.
Proof.
  unfold Pipeline.stage. intros H.
  destruct (run w sys hum 2) as [r w1] eqn:Er.
  destruct (call_agent_invocations json_loads Backend llm_invoke
              w w1 sys hum 2 r ltac:(lia) Er) as (Hb & Hres & Hnone).
  destruct (call_agent_chain json_loads Backend llm_invoke
              w w1 sys hum 2 r Er) as (first & rest & Hc & _).
  destruct (call_agent_failures w w1 sys hum 2 r Er)
    as (new & Hc' & Hr & Hu).
  rewrite Hc in Hc'. apply app_inv_head in Hc'. subst new.
  unfold invocations in Hb. rewrite Hc, length_app in Hb.
  cbn [length] in Hb. change (Z.to_nat (2 + 1)) with 3 in Hb.
  assert (Hx : w' = w1 /\
               match r with
               | Returned (Some a) => x = inl a
               | Returned None => x = inr NoneType_error
               | Raised e => x = inr (Aborted e)
               end).
  { destruct r as [[a|]|e]; inversion H; subst; auto. }
  destruct Hx as [-> Hx].
  exists first, rest. split; [assumption|]. split; [lia|].
  split; [|split; [|split; [|split]]].
  - intros s h e Hin. apply Hr in Hin. subst r. exact Hx.
  - intros s h raw Hin Hn. rewrite (Hu s h raw Hin Hn) in Hx. exact Hx.
  - destruct r as [[a|]|e]; [subst; discriminate | congruence
                            | subst; discriminate].
  - intros p. destruct r as [[a|]|e]; subst; discriminate.
  - intros a ->. destruct r as [[a'|]|e]; try discriminate.
    inversion Hx; subst. now apply run_result_well_formed.
Qed.

End PipelineFacts.

Section MainFacts.

Variable json_loads : str -> option json.
Variable json_dumps : json -> str.
Variable Backend : Type.
Variable llm_invoke : Backend -> str -> str -> outcome str * Backend.

Local Abbreviation stage := (stage json_loads Backend llm_invoke).
Local Abbreviation main := (main json_loads json_dumps Backend llm_invoke).
Local Abbreviation facts := (stage_facts json_loads Backend).

(** The four ways through [main]. *)
Lemma main_inv (w w' : world Backend) (title content email date : str)
    (res : main_result) (out : list (str * json)) :
  main w title content email date = (res, w', out) ->
  (facts w PLANNER_SYS (planner_prompt title content) (inr res) w'
   /\ out = [])
  \/ (exists po w1,
        facts w PLANNER_SYS (planner_prompt title content) (inl po) w1
        /\ facts w1 REVIEWER_SYS (json_dumps (model_dump po)) (inr res) w'
        /\ out = [(py "Planner", model_dump po)])
  \/ (exists po w1 ro w2,
        facts w PLANNER_SYS (planner_prompt title content) (inl po) w1
        /\ facts w1 REVIEWER_SYS (json_dumps (model_dump po)) (inl ro) w2
        /\ facts w2 FINALIZER_SYS
             (finalizer_prompt (json_dumps (model_dump po))
                (json_dumps (model_dump ro))) (inr res) w'
        /\ out = [(py "Planner", model_dump po);
                  (py "Reviewer", model_dump ro)])
  \/ (exists po w1 ro w2 fo,
        facts w PLANNER_SYS (planner_prompt title content) (inl po) w1
        /\ facts w1 REVIEWER_SYS (json_dumps (model_dump po)) (inl ro) w2
        /\ facts w2 FINALIZER_SYS
             (finalizer_prompt (json_dumps (model_dump po))
                (json_dumps (model_dump ro))) (inl fo) w'
        /\ let final :=
             with_tags fo (demeta_tags (tags (data fo)) title content) in
           let publish :=
             publish_package title email content po ro final date in
           res = Completed publish
           /\ out = [(py "Planner", model_dump po);
                     (py "Reviewer", model_dump ro);
                     (py "Finalized Output", model_dump final);
                     (py "Publish Package", publish)]).
Proof.
  unfold Pipeline.main. intros H.
  destruct (stage w PLANNER_SYS (planner_prompt title content))
    as [[po|r1] w1] eqn:E1; apply stage_inv in E1.
  2: { inversion H; subst. left. now split. }
  destruct (stage w1 REVIEWER_SYS (json_dumps (model_dump po)))
    as [[ro|r2] w2] eqn:E2; apply stage_inv in E2.
  2: { inversion H; subst. right. left. now exists po, w1. }
  destruct (stage w2 FINALIZER_SYS
              (finalizer_prompt (json_dumps (model_dump po))
                 (json_dumps (model_dump ro))))
    as [[fo|r3] w3] eqn:E3; apply stage_inv in E3.
  2: { inversion H; subst. right. right. left. now exists po, w1, ro, w2. }
  inversion H; subst. right. right. right.
  exists po, w1, ro, w2, fo. repeat split; assumption.
Qed.

Ltac open_facts H first rest Hc Hl Hr Hu Hn Hp Hw :=
  destruct H as (first & rest & Hc & Hl & Hr & Hu & Hn & Hp & Hw).

(** [main] never fails on a missing object; it makes between 1 and 9
    backend invocations, and 3 at least when it completes. *)
Theorem main_invocations (w w' : world Backend)
    (title content email date : str) (res : main_result)
    (out : list (str * json)) :
  main w title content email date = (res, w', out) ->
  res <> NoneType_error
  /\ 1 <= invocations w w' <= 9
  /\ (forall p, res = Completed p -> 3 <= invocations w w').
Proof.
  intros H. unfold invocations.
  destruct (main_inv _ _ _ _ _ _ _ _ H)
    as [(F1 & _) | [(po & w1 & F1 & F2 & _)
       | [(po & w1 & ro & w2 & F1 & F2 & F3 & _)
         | (po & w1 & ro & w2 & fo & F1 & F2 & F3 & -> & _)]]].
  - open_facts F1 a1 l1 C1 L1 R1 U1 N1 P1 W1.
    rewrite C1, length_app. cbn [length].
    split; [congruence|]. split; [lia|].
    intros p ->. elim (P1 p). reflexivity.
  - open_facts F1 a1 l1 C1 L1 R1 U1 N1 P1 W1.
    open_facts F2 a2 l2 C2 L2 R2 U2 N2 P2 W2.
    rewrite C2, C1, !length_app. cbn [length].
    split; [congruence|]. split; [lia|].
    intros p ->. elim (P2 p). reflexivity.
  - open_facts F1 a1 l1 C1 L1 R1 U1 N1 P1 W1.
    open_facts F2 a2 l2 C2 L2 R2 U2 N2 P2 W2.
    open_facts F3 a3 l3 C3 L3 R3 U3 N3 P3 W3.
    rewrite C3, C2, C1, !length_app. cbn [length].
    split; [congruence|]. split; [lia|].
    intros p ->. elim (P3 p). reflexivity.
  - open_facts F1 a1 l1 C1 L1 R1 U1 N1 P1 W1.
    open_facts F2 a2 l2 C2 L2 R2 U2 N2 P2 W2.
    open_facts F3 a3 l3 C3 L3 R3 U3 N3 P3 W3.
    rewrite C3, C2, C1, !length_app. cbn [length].
    split; [discriminate|]. split; [lia|]. intros p _. lia.
Qed.

(** Any failure in the log of [main] is how [main] ends: an exception of
    the backend aborts it with that exception, an answer that does not
    decode aborts it with [re.error]; neither is turned into a fallback,
    and no stage follows. *)
Theorem main_aborts (w w' : world Backend)
    (title content email date : str) (res : main_result)
    (out : list (str * json)) :
  main w title content email date = (res, w', out) ->
  exists new,
    calls w' = calls w ++ new
    /\ (forall s h e, In (s, h, Raised e) new -> res = Aborted e)
    /\ (forall s h raw, In (s, h, Returned raw) new ->
          json_loads (strip raw) = None ->
          res = Aborted (re_error "R"%char 12)).
Proof.
  intros H.
  destruct (main_inv _ _ _ _ _ _ _ _ H)
    as [(F1 & _) | [(po & w1 & F1 & F2 & _)
       | [(po & w1 & ro & w2 & F1 & F2 & F3 & _)
         | (po & w1 & ro & w2 & fo & F1 & F2 & F3 & -> & _)]]].
  - open_facts F1 a1 l1 C1 L1 R1 U1 N1 P1 W1.
    exists ((PLANNER_SYS, planner_prompt title content, a1) :: l1).
    split; [assumption|]. split.
    + intros s h e Hin. specialize (R1 s h e Hin). congruence.
    + intros s h raw Hin Hn. specialize (U1 s h raw Hin Hn). congruence.
  - open_facts F1 a1 l1 C1 L1 R1 U1 N1 P1 W1.
    open_facts F2 a2 l2 C2 L2 R2 U2 N2 P2 W2.
    eexists. split; [rewrite C2, C1, <- app_assoc; reflexivity|]. split.
    + intros s h e Hin. apply in_app_or in Hin as [Hin | Hin].
      * specialize (R1 s h e Hin). discriminate.
      * specialize (R2 s h e Hin). congruence.
    + intros s h raw Hin Hn. apply in_app_or in Hin as [Hin | Hin].
      * specialize (U1 s h raw Hin Hn). discriminate.
      * specialize (U2 s h raw Hin Hn). congruence.
  - open_facts F1 a1 l1 C1 L1 R1 U1 N1 P1 W1.
    open_facts F2 a2 l2 C2 L2 R2 U2 N2 P2 W2.
    open_facts F3 a3 l3 C3 L3 R3 U3 N3 P3 W3.
    eexists. split; [rewrite C3, C2, C1, <- !app_assoc; reflexivity|]. split.
    + intros s h e Hin. apply in_app_or in Hin as [Hin | Hin];
        [|apply in_app_or in Hin as [Hin | Hin]].
      * specialize (R1 s h e Hin). discriminate.
      * specialize (R2 s h e Hin). discriminate.
      * specialize (R3 s h e Hin). congruence.
    + intros s h raw Hin Hn. apply in_app_or in Hin as [Hin | Hin];
        [|apply in_app_or in Hin as [Hin | Hin]].
      * specialize (U1 s h raw Hin Hn). discriminate.
      * specialize (U2 s h raw Hin Hn). discriminate.
      * specialize (U3 s h raw Hin Hn). congruence.
  - open_facts F1 a1 l1 C1 L1 R1 U1 N1 P1 W1.
    open_facts F2 a2 l2 C2 L2 R2 U2 N2 P2 W2.
    open_facts F3 a3 l3 C3 L3 R3 U3 N3 P3 W3.
    eexists. split; [rewrite C3, C2, C1, <- !app_assoc; reflexivity|]. split.
    + intros s h e Hin. apply in_app_or in Hin as [Hin | Hin];
        [|apply in_app_or in Hin as [Hin | Hin]].
      * specialize (R1 s h e Hin). discriminate.
      * specialize (R2 s h e Hin). discriminate.
      * specialize (R3 s h e Hin). discriminate.
    + intros s h raw Hin Hn. apply in_app_or in Hin as [Hin | Hin];
        [|apply in_app_or in Hin as [Hin | Hin]].
      * specialize (U1 s h raw Hin Hn). discriminate.
      * specialize (U2 s h raw Hin Hn). discriminate.
      * specialize (U3 s h raw Hin Hn). discriminate.
Qed.

(** What [main] prints: all four blocks, in order and ending with the
    package, when it completes; otherwise only the blocks of the stages
    that came through, never the final two. *)
Theorem main_prints (w w' : world Backend)
    (title content email date : str) (res : main_result)
    (out : list (str * json)) :
  main w title content email date = (res, w', out) ->
  match res with
  | Completed p =>
      exists x y z,
        out = [(py "Planner", x); (py "Reviewer", y);
               (py "Finalized Output", z); (py "Publish Package", p)]
  | _ =>
      map fst out = [] \/ map fst out = [py "Planner"]
      \/ map fst out = [py "Planner"; py "Reviewer"]
  end.
Proof.
  intros H.
  destruct (main_inv _ _ _ _ _ _ _ _ H)
    as [(F1 & ->) | [(po & w1 & F1 & F2 & ->)
       | [(po & w1 & ro & w2 & F1 & F2 & F3 & ->)
         | (po & w1 & ro & w2 & fo & F1 & F2 & F3 & -> & ->)]]].
  - open_facts F1 a1 l1 C1 L1 R1 U1 N1 P1 W1.
    destruct res as [p| |]; [elim (P1 p); reflexivity | auto | auto].
  - open_facts F2 a2 l2 C2 L2 R2 U2 N2 P2 W2.
    destruct res as [p| |]; [elim (P2 p); reflexivity | auto | auto].
  - open_facts F3 a3 l3 C3 L3 R3 U3 N3 P3 W3.
    destruct res as [p| |]; [elim (P3 p); reflexivity | auto | auto].
  - eauto.
Qed.


End MainFacts.

(** ** Further worked cases *)

(** [word_count] does not change when a text is replaced by its words
    joined with single spaces. *)
Theorem word_count_normalised (s : str) :
  word_count (join (py " ") (findall_words s)) = word_count s.
Proof.
  unfold word_count. rewrite findall_words_join; [reflexivity|].
  apply findall_words_at_wordlike.
Qed.

Lemma call_agent_bounds_witness :
  let w := mkWorld 0 [] in
  let run :=
    call_agent json_loads_ref nat (answering (py "[]")) w
      (py "system") (py "human") 1 in
  1 <= invocations w (snd run) <= Z.to_nat (1 + 1)
  /\ run_result json_loads_ref (fst run) /\ fst run <> Returned None.
Proof.
  intros w run.
  apply (call_agent_bounds json_loads_ref nat (answering (py "[]"))
           w (snd run) (py "system") (py "human") 1 (fst run)).
  - lia.
  - vm_compute; reflexivity.
Defined.

Lemma call_agent_exhausts_witness :
  exists w',
    call_agent json_loads_ref nat (answering (py "{}")) (mkWorld 0 [])
      (py "system") (py "human") 2
    = (Returned (Some fallback), w')
    /\ invocations (mkWorld 0 []) w' = Z.to_nat (2 + 1).
Proof.
  apply (call_agent_exhausts json_loads_ref nat (answering (py "{}"))).
  - lia.
  - intros b s h. exists (py "{}"), (S b), (JDict []).
    repeat split; vm_compute; reflexivity.
Defined.

Lemma call_agent_trace_witness :
  let bad := py " {} " in
  let run :=
    call_agent json_loads_ref nat (answering bad) (mkWorld 0 [])
      (py "system") (py "human") 1 in
  exists first rest,
    calls (snd run) = [] ++ (py "system", py "human", first) :: rest
    /\ repair_chain json_loads_ref (py "system") first rest.
Proof.
  intros bad run.
  apply (call_agent_trace json_loads_ref nat (answering bad) (mkWorld 0 [])
           (snd run) (py "system") (py "human") 1 (fst run)).
  vm_compute; reflexivity.
Defined.

Lemma call_agent_returns_decoded_witness :
  let run :=
    call_agent json_loads_ref nat (answering (py "{}")) (mkWorld 0 [])
      (py "system") (py "human") 1 in
  exists new,
    calls (snd run) = [] ++ new /\ new <> []
    /\ Forall (decoded_answer json_loads_ref) new.
Proof.
  intros run.
  apply (call_agent_returns_decoded json_loads_ref nat (answering (py "{}"))
           (mkWorld 0 []) (snd run) (py "system") (py "human") 1
           (Some fallback)).
  vm_compute; reflexivity.
Defined.

Lemma call_agent_negative_budget_witness :
  let good :=
    pyq "{`thought`:`t`,`message`:`m`,`data`:{`tags`:[],`summary`:`s`}}" in
  call_agent json_loads_ref nat (answering good) (mkWorld 0 [])
    (py "system") (py "human") (-1)
  = (Returned None, mkWorld 1 [(py "system", py "human", Returned good)]).
Proof.
  intros good.
  apply (call_agent_negative_budget json_loads_ref nat (answering good)
           (mkWorld 0 []) (py "system") (py "human") (-1) good 1
           (JDict [(py "thought", JStr (py "t")); (py "message", JStr (py "m"));
                   (py "data", JDict [(py "tags", JList []);
                                      (py "summary", JStr (py "s"))])])).
  - lia.
  - reflexivity.
  - vm_compute; reflexivity.
Defined.

Lemma call_agent_repaired_witness :
  let good :=
    pyq "{`thought`:`t`,`message`:`m`,`data`:{`tags`:[],`summary`:`s`}}" in
  let llm := scripted [Returned (py " {} "); Returned good] in
  call_agent json_loads_ref nat llm (mkWorld 0 [])
    (py "system") (py "human") 2
  = (Returned (Some (mkAgentJSON (py "t") (py "m")
                       (mkDataBlock [] (py "s") []))),
     mkWorld 2
       ([] ++ [(py "system", py "human", Returned (py " {} "));
               (py "system", repair_prompt (strip (py " {} ")),
                Returned good)])).
Proof.
  intros good llm.
  apply (call_agent_repaired json_loads_ref nat llm (mkWorld 0 [])
           (py "system") (py "human") 2 (py " {} ") good 1 2 (JDict [])
           (JDict [(py "thought", JStr (py "t")); (py "message", JStr (py "m"));
                   (py "data", JDict [(py "tags", JList []);
                                      (py "summary", JStr (py "s"))])])).
  - lia.
  - reflexivity.
  - vm_compute; reflexivity.
  - vm_compute; reflexivity.
  - reflexivity.
  - vm_compute; reflexivity.
  - vm_compute; reflexivity.
Defined.

Lemma demeta_tags_NoDup_witness :
  NoDup (demeta_tags [py "json"; py "health"] (py "Sleep and Focus")
           (py "sleep habits improve focus and memory")).
Proof.
  apply demeta_tags_NoDup.
  repeat constructor; simpl; intuition discriminate.
Defined.

Lemma demeta_tags_short_witness :
  In (py "sleep") (demeta_tags [py "json"; py "rest"] (py "Sleep") (py "")).
Proof.
  apply (proj2 (demeta_tags_short [py "json"; py "rest"] (py "Sleep") (py "")
                  ltac:(vm_compute; lia))).
  vm_compute. auto.
Defined.

Lemma demeta_tags_order_witness :
  demeta_tags [py "json"; py "rest"] (py "Sleep and Focus")
    (py "sleep habits improve focus and memory")
  = firstn 3
      (kept_tags [py "json"; py "rest"]
       ++ map fst
            (most_common
               (Counter
                  (topical_words (py "Sleep and Focus")
                     (py "sleep habits improve focus and memory"))))).
Proof.
  apply demeta_tags_order.
  intros w Hw Hk. vm_compute in Hk. destruct Hk as [<- | []].
  vm_compute in Hw. intuition discriminate.
Defined.

Lemma finalizer_prompt_plain_witness :
  finalizer_prompt (py "{}") (py "[]") = py "{}" ++ nl ++ nl ++ py "[]".
Proof.
  apply finalizer_prompt_plain.
  intros (a & b & H). apply (f_equal (@length ascii)) in H.
  rewrite !length_app in H. simpl in H. lia.
Defined.

Lemma main_invocations_witness :
  let r := sample_main three_answers in
  fst (fst r) <> NoneType_error
  /\ 1 <= invocations (mkWorld 0 []) (snd (fst r)) <= 9
  /\ (forall p, fst (fst r) = Completed p ->
        3 <= invocations (mkWorld 0 []) (snd (fst r))).
Proof.
  intros r.
  apply (main_invocations json_loads_ref json_dumps_ref nat
           (scripted three_answers) (mkWorld 0 []) (snd (fst r))
           (py "Sleep and Focus") (py "sleep habits improve focus and memory")
           (py "you@sjsu.edu") (py "2025-01-01T00:00:00Z")
           (fst (fst r)) (snd r)).
  vm_compute; reflexivity.
Defined.

Lemma main_aborts_witness :
  let r := sample_main [Returned (py "{}"); Returned (py "Sure! {}")] in
  exists new,
    calls (snd (fst r)) = [] ++ new
    /\ (forall s h e, In (s, h, Raised e) new -> fst (fst r) = Aborted e)
    /\ (forall s h raw, In (s, h, Returned raw) new ->
          json_loads_ref (strip raw) = None ->
          fst (fst r) = Aborted (re_error "R"%char 12)).
Proof.
  intros r.
  apply (main_aborts json_loads_ref json_dumps_ref nat
           (scripted [Returned (py "{}"); Returned (py "Sure! {}")])
           (mkWorld 0 []) (snd (fst r))
           (py "Sleep and Focus") (py "sleep habits improve focus and memory")
           (py "you@sjsu.edu") (py "2025-01-01T00:00:00Z")
           (fst (fst r)) (snd r)).
  vm_compute; reflexivity.
Defined.

Lemma main_prints_witness :
  let r := sample_main three_answers in
  match fst (fst r) with
  | Completed p =>
      exists x y z,
        snd r = [(py "Planner", x); (py "Reviewer", y);
                 (py "Finalized Output", z); (py "Publish Package", p)]
  | _ =>
      map fst (snd r) = [] \/ map fst (snd r) = [py "Planner"]
      \/ map fst (snd r) = [py "Planner"; py "Reviewer"]
  end.
Proof.
  intros r.
  apply (main_prints json_loads_ref json_dumps_ref nat
           (scripted three_answers) (mkWorld 0 []) (snd (fst r))
           (py "Sleep and Focus") (py "sleep habits improve focus and memory")
           (py "you@sjsu.edu") (py "2025-01-01T00:00:00Z")
           (fst (fst r)) (snd r)).
  vm_compute; reflexivity.
Defined.


(** The run of the three stages that the witnesses above use, in full:
    what the finalizer returns holds the banned tag "json"; the package
    holds "sleep", and "focus" and "habits" drawn from the text. *)
Lemma sample_main_tags :
  exists p w' out,
    sample_main three_answers = (Completed p, w', out)
    /\ dict_get (py "final") (match p with JDict d => d | _ => [] end)
       = Some (DataBlock_dump
                 (mkDataBlock [py "sleep"; py "focus"; py "habits"]
                    (py "Sleep helps focus") [])).
Proof.
  eexists. eexists. eexists. split; vm_compute; reflexivity.
Qed.
